(** * PintOS thread scheduler: a shallow embedding of
      [src/lib/fixed_point.h] and [src/threads/thread.c].

    C [int] is a 32-bit two's-complement integer, [int64_t] a 64-bit one and
    [size_t] an unsigned 32-bit one (the i386 target of the kernel).  They
    are all embedded as [Z]; every arithmetic operation writes its
    wrap-around out.  [>>] on a signed operand is the arithmetic shift that
    gcc generates, [/] truncates toward zero ([Z.quot]) and traps where the
    processor does: a division has no result then. *)

From Stdlib Require Import ZArith List Lia Bool Sorted Permutation.
Import ListNotations.
Local Open Scope Z_scope.

(** ** Machine integers *)

Module MachInt.

(** Reduce [x] into the signed [w]-bit range. *)
Definition wrap (w : Z) (x : Z) : Z :=
  (x + 2 ^ (w - 1)) mod 2 ^ w - 2 ^ (w - 1).

Definition int32 (x : Z) : Z := wrap 32 x.
Definition int64 (x : Z) : Z := wrap 64 x.
Definition uint32 (x : Z) : Z := x mod 2 ^ 32.

Definition INT_MIN : Z := - 2 ^ 31.
Definition INT_MAX : Z := 2 ^ 31 - 1.

Definition in_int32 (x : Z) : Prop := INT_MIN <= x <= INT_MAX.
Definition in_int64 (x : Z) : Prop := - 2 ^ 63 <= x <= 2 ^ 63 - 1.

(** [a << n] on an [int] and on an [int64_t]. *)
Definition shl32 (a n : Z) : Z := int32 (Z.shiftl a n).
Definition shl64 (a n : Z) : Z := int64 (Z.shiftl a n).

(** [a >> n]: arithmetic shift, never leaves the range of [a]. *)
Definition shr (a n : Z) : Z := Z.shiftr a n.

(** [a / b] on a signed [w]-bit type.  The processor raises a divide error,
    which panics the kernel, on a zero divisor and on the one quotient that
    does not fit, [MIN / -1]: the division has no result then. *)
Definition cdiv (w a b : Z) : option Z :=
  if (b =? 0) || ((b =? -1) && (a =? - 2 ^ (w - 1))) then None
  else Some (Z.quot a b).

End MachInt.
Import MachInt.

(** ** [src/lib/fixed_point.h] *)

(* #define MAX(a, b) (((a) > (b)) ? (a) : (b)) *)
Definition MAX (a b : Z) : Z := if a >? b then a else b.
(* #define MIN(a, b) (((a) < (b)) ? (a) : (b)) *)
Definition MIN (a b : Z) : Z := if a <? b then a else b.

(* typedef int fixed_t; *)
Definition fixed_t := Z.

Definition FP_SHIFT_BITS : Z := 16.

(* #define FP_FIX(a) ((a) << FP_SHIFT_BITS) *)
Definition FP_FIX (a : Z) : fixed_t := shl32 a FP_SHIFT_BITS.

(* #define FP_INT(a) ((a) >> FP_SHIFT_BITS) *)
Definition FP_INT (a : fixed_t) : Z := shr a FP_SHIFT_BITS.

(* #define FP_RND(a) ((int)(((a) >= 0) ?
     (((a) + (1 << (FP_SHIFT_BITS - 1))) >> FP_SHIFT_BITS) :
     (((a) - (1 << (FP_SHIFT_BITS - 1))) >> FP_SHIFT_BITS))) *)
Definition FP_RND (a : fixed_t) : Z :=
  int32 (if a >=? 0
         then shr (int32 (a + shl32 1 (FP_SHIFT_BITS - 1))) FP_SHIFT_BITS
         else shr (int32 (a - shl32 1 (FP_SHIFT_BITS - 1))) FP_SHIFT_BITS).

(* #define FP_ADD(a, b) ((a) + (b)) *)
Definition FP_ADD (a b : fixed_t) : fixed_t := int32 (a + b).
(* #define FP_ADDI(a, n) ((a) + ((n) << FP_SHIFT_BITS)) *)
Definition FP_ADDI (a : fixed_t) (n : Z) : fixed_t :=
  int32 (a + shl32 n FP_SHIFT_BITS).
(* #define FP_SUB(a, b) ((a) - (b)) *)
Definition FP_SUB (a b : fixed_t) : fixed_t := int32 (a - b).
(* #define FP_SUBI(a, n) ((a) - ((n) << FP_SHIFT_BITS)) *)
Definition FP_SUBI (a : fixed_t) (n : Z) : fixed_t :=
  int32 (a - shl32 n FP_SHIFT_BITS).
(* #define FP_ISUB(n, a) (((n) << FP_SHIFT_BITS) - (a)) *)
Definition FP_ISUB (n : Z) (a : fixed_t) : fixed_t :=
  int32 (shl32 n FP_SHIFT_BITS - a).

(* #define FP_IADD(a, n) ((n) + ((a) << FP_SHIFT_BITS)) *)
Definition FP_IADD (a : Z) (n : fixed_t) : fixed_t :=
  int32 (n + shl32 a FP_SHIFT_BITS).
(* #define FP_IADDI(m, n) (((m) << FP_SHIFT_BITS) + ((n) << FP_SHIFT_BITS)) *)
Definition FP_IADDI (m n : Z) : fixed_t :=
  int32 (shl32 m FP_SHIFT_BITS + shl32 n FP_SHIFT_BITS).
(* #define FP_ISUBI(m, n) (((m) << FP_SHIFT_BITS) - ((n) << FP_SHIFT_BITS)) *)
Definition FP_ISUBI (m n : Z) : fixed_t :=
  int32 (shl32 m FP_SHIFT_BITS - shl32 n FP_SHIFT_BITS).
(* #define FP_IMUL(n, a) ((n) * (a)) *)
Definition FP_IMUL (n : Z) (a : fixed_t) : fixed_t := int32 (n * a).
(* #define FP_IMULI(m, n) (((m) << FP_SHIFT_BITS) * (n)) *)
Definition FP_IMULI (m n : Z) : fixed_t :=
  int32 (shl32 m FP_SHIFT_BITS * n).
(* #define FP_IDIV(n, a) ((fixed_t)((((int64_t)(n)) << (2 * FP_SHIFT_BITS)) / (a))) *)
Definition FP_IDIV (n : Z) (a : fixed_t) : option fixed_t :=
  option_map (fun q => int32 (int64 q))
             (cdiv 64 (shl64 n (2 * FP_SHIFT_BITS)) a).

(* #define FP_MUL(a, b) ((fixed_t)(((int64_t)(a)) * (b) >> FP_SHIFT_BITS)) *)
Definition FP_MUL (a b : fixed_t) : fixed_t :=
  int32 (shr (int64 (a * b)) FP_SHIFT_BITS).
(* #define FP_MULI(a, n) ((a) * (n)) *)
Definition FP_MULI (a : fixed_t) (n : Z) : fixed_t := int32 (a * n).

(* #define FP_DIV(a, b) ((fixed_t)((((int64_t)(a)) << FP_SHIFT_BITS) / (b))) *)
Definition FP_DIV (a b : fixed_t) : option fixed_t :=
  option_map (fun q => int32 (int64 q)) (cdiv 64 (shl64 a FP_SHIFT_BITS) b).
(* #define FP_DIVI(a, n) ((a) / (n)) *)
Definition FP_DIVI (a : fixed_t) (n : Z) : option fixed_t :=
  option_map int32 (cdiv 32 a n).
(* #define FP_IDIVI(m, n) ((fixed_t)((((int64_t)(m)) << (2 * FP_SHIFT_BITS)) /
                                      ((n) << FP_SHIFT_BITS))) *)
Definition FP_IDIVI (m n : Z) : option fixed_t :=
  option_map (fun q => int32 (int64 q))
             (cdiv 64 (shl64 m (2 * FP_SHIFT_BITS)) (shl32 n FP_SHIFT_BITS)).

(** ** Lists of [lib/kernel/list.c], as far as [thread.c] calls them

    A [struct list] of intrusive [list_elem]s is embedded as the Rocq list of
    the addresses of the structures that own the elements, front first. *)

Section KernelList.
Context {A : Type}.

(** Modelled from the spec: [list_insert_ordered] lives in
    [lib/kernel/list.c], which is not among the sources.  The spec has the
    ordered insertion keep the order of the list "with FIFO tie-break": the
    element goes in front of the first resident [e] with [less elem e], so
    behind every resident it is not strictly less than. *)
Fixpoint list_insert_ordered (less : A -> A -> bool) (elem : A) (l : list A)
  : list A :=
  match l with
  | [] => [elem]
  | e :: l' =>
      if less elem e then elem :: l
      else e :: list_insert_ordered less elem l'
  end.

(** Insertion step of [list_sort]: [x] stood in front of every element of
    the (already sorted) [l], and stays in front of those it ties with. *)
Fixpoint sort_insert (less : A -> A -> bool) (x : A) (l : list A) : list A :=
  match l with
  | [] => [x]
  | e :: l' => if less e x then e :: sort_insert less x l' else x :: l
  end.

(** Modelled from the spec: [list_sort] lives in [lib/kernel/list.c], which
    is not among the sources; it sorts the list by [less], here as a stable
    insertion sort. *)
Definition list_sort (less : A -> A -> bool) (l : list A) : list A :=
  fold_right (sort_insert less) [] l.

(** Modelled from the spec: [list_empty] lives in [lib/kernel/list.c], which
    is not among the sources; the spec's "holds no locks" is the empty
    list. *)
Definition list_empty (l : list A) : bool :=
  match l with [] => true | _ :: _ => false end.

(** Modelled from the spec: [list_size] lives in [lib/kernel/list.c], which
    is not among the sources; the spec counts the threads of the ready set,
    and the count is a [size_t]. *)
Definition list_size (l : list A) : Z := uint32 (Z.of_nat (length l)).

End KernelList.

(** A pointer to a [struct thread] (the base of its page) or to a
    [struct lock]. *)
Definition ptr := Z.

Definition mem_ptr (x : ptr) (l : list ptr) : bool :=
  existsb (Z.eqb x) l.

(** The list [l] with the element [x] taken out of its place. *)
Fixpoint unlink (x : ptr) (l : list ptr) : list ptr :=
  match l with
  | [] => []
  | y :: l' => if y =? x then l' else y :: unlink x l'
  end.

(** Modelled from the spec: [list_remove] lives in [lib/kernel/list.c], which
    is not among the sources.  The spec has a thread "removed exactly once"
    from the all-threads set, a ready thread that [reorder] "removes and
    reinserts" and a released lock that [release] "removes from
    [held_locks]": the element leaves the list it is in, and the others keep
    their order.  An element that is in no list has no neighbours to be
    unlinked from, which the kernel's lists assert of it: the operation has
    no result then. *)
Definition list_remove (x : ptr) (l : list ptr) : option (list ptr) :=
  if mem_ptr x l then Some (unlink x l) else None.

(** ** [src/threads/thread.c]: data *)

(** Modelled from the spec: [threads/thread.h] is not among the sources.
    The spec names the priority range [PRI_MIN, PRI_MAX] and a "distinguished
    failure value" only; the values are those of the kernel's header. *)
Definition PRI_MIN : Z := 0.
Definition PRI_DEFAULT : Z := 31.
Definition PRI_MAX : Z := 63.
Definition TID_ERROR : Z := -1.

(** Modelled from the spec: the "timer frequency" constant of
    [devices/timer.h], which is not among the sources. *)
Definition TIMER_FREQ : Z := 100.

(* #define TIME_SLICE 4 *)
Definition TIME_SLICE : Z := 4.

(* enum thread_status *)
Inductive thread_status : Set :=
| THREAD_RUNNING
| THREAD_READY
| THREAD_BLOCKED
| THREAD_DYING.

Definition status_eqb (a b : thread_status) : bool :=
  match a, b with
  | THREAD_RUNNING, THREAD_RUNNING
  | THREAD_READY, THREAD_READY
  | THREAD_BLOCKED, THREAD_BLOCKED
  | THREAD_DYING, THREAD_DYING => true
  | _, _ => false
  end.

(** The members of [struct thread] that [thread.c] reads and writes.  The
    three [list_elem] members are the membership of the thread's address in
    [ready_list], [all_list] and [sleep_list]; name, stack and magic (memory
    layout) are left out. *)
Record thread : Type := mkThread {
  tid : Z;                      (* tid_t, an int *)
  status : thread_status;
  priority : Z;                 (* int *)
  base_priority : Z;            (* int *)
  locks : list ptr;             (* struct list of the locks held *)
  nice : Z;                     (* int *)
  recent_cpu : fixed_t;
  ticks_sleep : Z               (* int64_t *)
}.

(* memset (t, 0, sizeof *t) *)
Definition zero_thread : thread :=
  mkThread 0 THREAD_RUNNING 0 0 [] 0 0 0.

Definition set_tid (v : Z) (t : thread) : thread :=
  mkThread v (status t) (priority t) (base_priority t) (locks t) (nice t)
           (recent_cpu t) (ticks_sleep t).
Definition set_status (v : thread_status) (t : thread) : thread :=
  mkThread (tid t) v (priority t) (base_priority t) (locks t) (nice t)
           (recent_cpu t) (ticks_sleep t).
Definition set_priority (v : Z) (t : thread) : thread :=
  mkThread (tid t) (status t) v (base_priority t) (locks t) (nice t)
           (recent_cpu t) (ticks_sleep t).
Definition set_base_priority (v : Z) (t : thread) : thread :=
  mkThread (tid t) (status t) (priority t) v (locks t) (nice t)
           (recent_cpu t) (ticks_sleep t).
Definition set_locks (v : list ptr) (t : thread) : thread :=
  mkThread (tid t) (status t) (priority t) (base_priority t) v (nice t)
           (recent_cpu t) (ticks_sleep t).
Definition set_nice (v : Z) (t : thread) : thread :=
  mkThread (tid t) (status t) (priority t) (base_priority t) (locks t) v
           (recent_cpu t) (ticks_sleep t).
Definition set_recent_cpu (v : fixed_t) (t : thread) : thread :=
  mkThread (tid t) (status t) (priority t) (base_priority t) (locks t)
           (nice t) v (ticks_sleep t).
Definition set_ticks_sleep (v : Z) (t : thread) : thread :=
  mkThread (tid t) (status t) (priority t) (base_priority t) (locks t)
           (nice t) (recent_cpu t) v.

(** The file-scope variables of [thread.c], the memory holding the
    [struct thread]s and the [priority] member of the [struct lock]s, the
    thread the CPU is executing ([running_thread ()]) and the request of
    [intr_yield_on_return ()]. *)
Record sched : Type := mkSched {
  threads : ptr -> thread;
  lock_priority : ptr -> Z;
  sleep_list : list ptr;
  ready_list : list ptr;
  all_list : list ptr;
  idle_thread : option ptr;     (* None is NULL *)
  initial_thread : option ptr;
  running_thread : ptr;
  next_tid : Z;                 (* the static of allocate_tid *)
  ticks : Z;                    (* long long *)
  idle_ticks : Z;
  kernel_ticks : Z;
  load_avg : fixed_t;
  thread_ticks : Z;             (* unsigned *)
  thread_mlfqs : bool;
  yield_on_return : bool
}.

Definition with_threads (f : ptr -> thread) (s : sched) : sched :=
  mkSched f (lock_priority s) (sleep_list s) (ready_list s) (all_list s)
          (idle_thread s) (initial_thread s) (running_thread s) (next_tid s)
          (ticks s) (idle_ticks s) (kernel_ticks s) (load_avg s)
          (thread_ticks s) (thread_mlfqs s) (yield_on_return s).
Definition with_sleep_list (l : list ptr) (s : sched) : sched :=
  mkSched (threads s) (lock_priority s) l (ready_list s) (all_list s)
          (idle_thread s) (initial_thread s) (running_thread s) (next_tid s)
          (ticks s) (idle_ticks s) (kernel_ticks s) (load_avg s)
          (thread_ticks s) (thread_mlfqs s) (yield_on_return s).
Definition with_ready_list (l : list ptr) (s : sched) : sched :=
  mkSched (threads s) (lock_priority s) (sleep_list s) l (all_list s)
          (idle_thread s) (initial_thread s) (running_thread s) (next_tid s)
          (ticks s) (idle_ticks s) (kernel_ticks s) (load_avg s)
          (thread_ticks s) (thread_mlfqs s) (yield_on_return s).
Definition with_all_list (l : list ptr) (s : sched) : sched :=
  mkSched (threads s) (lock_priority s) (sleep_list s) (ready_list s) l
          (idle_thread s) (initial_thread s) (running_thread s) (next_tid s)
          (ticks s) (idle_ticks s) (kernel_ticks s) (load_avg s)
          (thread_ticks s) (thread_mlfqs s) (yield_on_return s).
Definition with_idle_thread (i : option ptr) (s : sched) : sched :=
  mkSched (threads s) (lock_priority s) (sleep_list s) (ready_list s)
          (all_list s) i (initial_thread s) (running_thread s) (next_tid s)
          (ticks s) (idle_ticks s) (kernel_ticks s) (load_avg s)
          (thread_ticks s) (thread_mlfqs s) (yield_on_return s).
Definition with_running_thread (r : ptr) (s : sched) : sched :=
  mkSched (threads s) (lock_priority s) (sleep_list s) (ready_list s)
          (all_list s) (idle_thread s) (initial_thread s) r (next_tid s)
          (ticks s) (idle_ticks s) (kernel_ticks s) (load_avg s)
          (thread_ticks s) (thread_mlfqs s) (yield_on_return s).
Definition with_next_tid (n : Z) (s : sched) : sched :=
  mkSched (threads s) (lock_priority s) (sleep_list s) (ready_list s)
          (all_list s) (idle_thread s) (initial_thread s) (running_thread s)
          n (ticks s) (idle_ticks s) (kernel_ticks s) (load_avg s)
          (thread_ticks s) (thread_mlfqs s) (yield_on_return s).
Definition with_tick_stats (t i k : Z) (s : sched) : sched :=
  mkSched (threads s) (lock_priority s) (sleep_list s) (ready_list s)
          (all_list s) (idle_thread s) (initial_thread s) (running_thread s)
          (next_tid s) t i k (load_avg s)
          (thread_ticks s) (thread_mlfqs s) (yield_on_return s).
Definition with_load_avg (a : fixed_t) (s : sched) : sched :=
  mkSched (threads s) (lock_priority s) (sleep_list s) (ready_list s)
          (all_list s) (idle_thread s) (initial_thread s) (running_thread s)
          (next_tid s) (ticks s) (idle_ticks s) (kernel_ticks s) a
          (thread_ticks s) (thread_mlfqs s) (yield_on_return s).
Definition with_thread_ticks (n : Z) (s : sched) : sched :=
  mkSched (threads s) (lock_priority s) (sleep_list s) (ready_list s)
          (all_list s) (idle_thread s) (initial_thread s) (running_thread s)
          (next_tid s) (ticks s) (idle_ticks s) (kernel_ticks s) (load_avg s)
          n (thread_mlfqs s) (yield_on_return s).
Definition with_yield_on_return (b : bool) (s : sched) : sched :=
  mkSched (threads s) (lock_priority s) (sleep_list s) (ready_list s)
          (all_list s) (idle_thread s) (initial_thread s) (running_thread s)
          (next_tid s) (ticks s) (idle_ticks s) (kernel_ticks s) (load_avg s)
          (thread_ticks s) (thread_mlfqs s) b.

(** [t->member = v] for the thread at address [t]. *)
Definition store (t : ptr) (f : thread -> thread) (s : sched) : sched :=
  with_threads (fun p => if p =? t then f (threads s p) else threads s p) s.

(** [ptr_is t o]: the C comparison [t == o] against a pointer that may be
    NULL. *)
Definition ptr_is (t : ptr) (o : option ptr) : bool :=
  match o with
  | Some p => t =? p
  | None => false
  end.

(** A failed [ASSERT] panics the kernel: the operation has no result.  The
    assertions on the interrupt level and on [is_thread]'s magic number are
    about state that is not embedded and are left out. *)
Notation "x <- e ;; k" :=
  (match e with Some x => k | None => None end)
  (at level 61, e at next level, right associativity, only parsing).
Notation "'ASSERT' b ;; k" :=
  (if b then k else None)
  (at level 61, b at next level, right associativity, only parsing).

(** ** [src/threads/thread.c]: operations

    Every operation is a transition of [sched] that runs up to the context
    switch it ends in; [switch_threads (cur, next)] makes [next] the running
    thread. *)

(* thread_cmp_priority (e1, e2, aux) *)
Definition thread_cmp_priority (m : ptr -> thread) (aux : bool)
  (e1 e2 : ptr) : bool :=
  if aux then priority (m e1) >? priority (m e2)
  else priority (m e1) <? priority (m e2).

(* thread_cmp_ticks_sleep (e1, e2, aux) *)
Definition thread_cmp_ticks_sleep (m : ptr -> thread) (aux : bool)
  (e1 e2 : ptr) : bool :=
  if aux then ticks_sleep (m e1) >? ticks_sleep (m e2)
  else ticks_sleep (m e1) <? ticks_sleep (m e2).

(** Modelled from the spec: [lock_cmp_priority] lives in [threads/synch.c],
    which is not among the sources.  The spec orders [held_locks] "by each
    lock's current priority ceiling, descending"; the comparison has the
    shape of its two siblings above. *)
Definition lock_cmp_priority (lp : ptr -> Z) (aux : bool) (e1 e2 : ptr)
  : bool :=
  if aux then lp e1 >? lp e2 else lp e1 <? lp e2.

(* thread_current (): the running thread, which must be THREAD_RUNNING. *)
Definition thread_current (s : sched) : option ptr :=
  let t := running_thread s in
  ASSERT (status_eqb (status (threads s t)) THREAD_RUNNING) ;;
  Some t.

(* next_thread_to_run () *)
Definition next_thread_to_run (s : sched) : option ptr * sched :=
  match ready_list s with
  | [] => (idle_thread s, s)
  | t :: rest => (Some t, with_ready_list rest s)   (* list_pop_front *)
  end.

(* thread_schedule_tail (prev); palloc_free_page (prev) returns the page of
   a dying thread to the allocator, which is not part of the state. *)
Definition thread_schedule_tail (prev : option ptr) (s : sched) : sched :=
  let cur := running_thread s in
  with_thread_ticks 0 (store cur (set_status THREAD_RUNNING) s).

(* schedule () *)
Definition schedule (s : sched) : option sched :=
  let cur := running_thread s in
  let (next, s1) := next_thread_to_run s in
  ASSERT (negb (status_eqb (status (threads s1 cur)) THREAD_RUNNING)) ;;
  n <- next ;;                                  (* is_thread (next) *)
  let prev := if cur =? n then None else Some cur in
  Some (thread_schedule_tail prev (with_running_thread n s1)).

(* thread_block () *)
Definition thread_block (s : sched) : option sched :=
  cur <- thread_current s ;;
  schedule (store cur (set_status THREAD_BLOCKED) s).

(* thread_unblock (t) *)
Definition thread_unblock (t : ptr) (s : sched) : option sched :=
  ASSERT (status_eqb (status (threads s t)) THREAD_BLOCKED) ;;
  let s1 :=
    with_ready_list
      (list_insert_ordered (thread_cmp_priority (threads s) true) t
                           (ready_list s)) s in
  Some (store t (set_status THREAD_READY) s1).

(* thread_yield () *)
Definition thread_yield (s : sched) : option sched :=
  current <- thread_current s ;;
  let s1 :=
    if negb (ptr_is current (idle_thread s)) then
      with_ready_list
        (list_insert_ordered (thread_cmp_priority (threads s) true) current
                             (ready_list s)) s
    else s in
  schedule (store current (set_status THREAD_READY) s1).

(* thread_sleep (ticks) *)
Definition thread_sleep (tks : Z) (s : sched) : option sched :=
  current <- thread_current s ;;
  let s1 := store current (set_ticks_sleep tks) s in
  let s2 :=
    with_sleep_list
      (list_insert_ordered (thread_cmp_ticks_sleep (threads s1) false)
                           current (sleep_list s1)) s1 in
  thread_block s2.

(** The loop of [thread_foreach_wake]: [l] is the part of [sleep_list] from
    [e] on; waking [e] unlinks it, so the list of the state is [l'] then. *)
Fixpoint wake_loop (tks : Z) (l : list ptr) (s : sched) : option sched :=
  match l with
  | [] => Some s
  | e :: l' =>
      if ticks_sleep (threads s e) <=? tks then
        let s1 := store e (set_ticks_sleep 0) (with_sleep_list l' s) in
        s2 <- thread_unblock e s1 ;;
        wake_loop tks l' s2
      else Some s                                (* break *)
  end.

(* thread_foreach_wake (ticks) *)
Definition thread_foreach_wake (tks : Z) (s : sched) : option sched :=
  wake_loop tks (sleep_list s) s.

(* thread_from_tid (tid): the loop over all_list. *)
Fixpoint thread_from_tid_loop (m : ptr -> thread) (l : list ptr) (id : Z)
  : option ptr :=
  match l with
  | [] => None                                   (* return NULL *)
  | t :: l' => if tid (m t) =? id then Some t
               else thread_from_tid_loop m l' id
  end.

Definition thread_from_tid (id : Z) (s : sched) : option ptr :=
  thread_from_tid_loop (threads s) (all_list s) id.

(* thread_tid () *)
Definition thread_tid (s : sched) : option Z :=
  cur <- thread_current s ;;
  Some (tid (threads s cur)).

(* allocate_tid (): tid = next_tid++ *)
Definition allocate_tid (s : sched) : Z * sched :=
  (next_tid s, with_next_tid (int32 (next_tid s + 1)) s).

(** Insert [t] at index [pos] of [l] (at the back when [pos] is past the
    end). *)
Fixpoint insert_at (pos : nat) (t : ptr) (l : list ptr) : list ptr :=
  match pos, l with
  | O, _ => t :: l
  | S _, [] => [t]
  | S k, e :: l' => e :: insert_at k t l'
  end.

(** [init_thread (t, name, priority)].  The insertion into [all_list] goes
    through [thread_cmp_priority], which takes the [allelem] it is handed
    for an [elem] and so compares whatever lies at that distance from the
    elements: where the thread lands in [all_list] depends on the memory
    layout, and is the argument [pos] here. *)
Definition init_thread (t : ptr) (prio : Z) (pos : nat) (s : sched)
  : option sched :=
  ASSERT ((PRI_MIN <=? prio) && (prio <=? PRI_MAX)) ;;
  let th :=
    set_base_priority prio
      (set_priority prio (set_status THREAD_BLOCKED zero_thread)) in
  let s1 := store t (fun _ => th) s in
  Some (with_all_list (insert_at pos t (all_list s1)) s1).

(** [thread_create (name, priority, function, aux)]; [page] is what
    [palloc_get_page (PAL_ZERO)] returns, [None] when no page is free. *)
Definition thread_create (prio : Z) (page : option ptr) (pos : nat)
  (s : sched) : option (Z * sched) :=
  match page with
  | None => Some (TID_ERROR, s)
  | Some t =>
      s1 <- init_thread t prio pos s ;;
      let (id, s2) := allocate_tid s1 in
      let s3 := store t (set_tid id) s2 in
      s4 <- thread_unblock t s3 ;;
      cur <- thread_current s4 ;;
      if prio >? priority (threads s4 cur) then
        s5 <- thread_yield s4 ;; Some (id, s5)
      else Some (id, s4)
  end.

(** [thread_init ()]: the code that is running, on the page [main], becomes
    the thread "main".  [mlfqs] is the kernel command-line option, [mem] and
    [lp] what the memory holds at boot. *)
Definition thread_init (mlfqs : bool) (mem : ptr -> thread) (lp : ptr -> Z)
  (main : ptr) (pos : nat) : option sched :=
  let s0 :=
    mkSched mem lp [] [] [] None (Some main) main 1 0 0 0 0 0 mlfqs false in
  s1 <- init_thread main PRI_DEFAULT pos s0 ;;
  let s2 := store main (set_status THREAD_RUNNING) s1 in
  let (id, s3) := allocate_tid s2 in
  Some (store main (set_tid id) s3).

(* thread_exit () *)
Definition thread_exit (s : sched) : option sched :=
  cur <- thread_current s ;;
  l <- list_remove cur (all_list s) ;;
  let s1 := with_all_list l s in
  schedule (store cur (set_status THREAD_DYING) s1).

(* idle (): idle_thread = thread_current (); *)
Definition idle_enter (s : sched) : option sched :=
  cur <- thread_current s ;;
  Some (with_idle_thread (Some cur) s).

(* idle (): one turn of for (;;) { intr_disable (); thread_block (); ... } *)
Definition idle_loop (s : sched) : option sched := thread_block s.

(* thread_set_priority (new_priority) *)
Definition thread_set_priority (new_priority : Z) (s : sched)
  : option sched :=
  if thread_mlfqs s then Some s
  else
    current <- thread_current s ;;
    let s1 := store current (set_base_priority new_priority) s in
    if list_empty (locks (threads s1 current))
       || (new_priority >? priority (threads s1 current))
    then thread_yield (store current (set_priority new_priority) s1)
    else Some s1.

(* thread_get_priority () *)
Definition thread_get_priority (s : sched) : option Z :=
  cur <- thread_current s ;;
  Some (priority (threads s cur)).

(* thread_update_priority (t) *)
Definition thread_update_priority (t : ptr) (s : sched) : sched :=
  let s1 := store t (set_priority (base_priority (threads s t))) s in
  match locks (threads s1 t) with
  | [] => s1
  | _ :: _ =>
      let sorted :=
        list_sort (lock_cmp_priority (lock_priority s1) true)
                  (locks (threads s1 t)) in
      let s2 := store t (set_locks sorted) s1 in
      match sorted with
      | [] => s2                                 (* list_front of no list *)
      | l :: _ =>
          let lock_prio := lock_priority s2 l in
          if lock_prio >? priority (threads s2 t)
          then store t (set_priority lock_prio) s2
          else s2
      end
  end.

(* thread_donate_priority (t); [t->elem] of a ready thread is in
   [ready_list]. *)
Definition thread_donate_priority (t : ptr) (s : sched) : option sched :=
  let old_priority := priority (threads s t) in
  let s1 := thread_update_priority t s in
  if status_eqb (status (threads s1 t)) THREAD_READY
     && negb (priority (threads s1 t) =? old_priority)
  then
    l <- list_remove t (ready_list s1) ;;
    Some (with_ready_list
            (list_insert_ordered (thread_cmp_priority (threads s1) true) t l)
            s1)
  else Some s1.

(* thread_hold_lock (lock) *)
Definition thread_hold_lock (lock : ptr) (s : sched) : option sched :=
  current <- thread_current s ;;
  let s1 :=
    store current
      (fun th => set_locks
         (list_insert_ordered (lock_cmp_priority (lock_priority s) true)
                              lock (locks th)) th) s in
  if lock_priority s1 lock >? priority (threads s1 current) then
    thread_yield (store current (set_priority (lock_priority s1 lock)) s1)
  else Some s1.

(** The list that [lock->elem] is in: the [locks] of the live thread that
    holds the lock. *)
Definition lock_holder (lock : ptr) (s : sched) : option ptr :=
  find (fun p => mem_ptr lock (locks (threads s p))) (all_list s).

(* thread_release_lock (lock): list_remove (&lock->elem) takes the lock out
   of the list it is in, which is the list of its holder; a lock that no
   thread holds is in no list. *)
Definition thread_release_lock (lock : ptr) (s : sched) : option sched :=
  h <- lock_holder lock s ;;
  l <- list_remove lock (locks (threads s h)) ;;
  let s1 := store h (set_locks l) s in
  cur <- thread_current s1 ;;
  Some (thread_update_priority cur s1).

(* thread_mlfqs_update_priority (t) *)
Definition thread_mlfqs_update_priority (t : ptr) (s : sched)
  : option sched :=
  ASSERT (thread_mlfqs s) ;;
  ASSERT (negb (ptr_is t (idle_thread s))) ;;
  (* priority = PRI_MAX - (recent_cpu / 4) - (nice * 2). *)
  q <- FP_DIVI (recent_cpu (threads s t)) 4 ;;
  let s1 :=
    store t
      (fun th => set_priority
         (FP_INT (FP_SUBI (FP_ISUB PRI_MAX q) (int32 (2 * nice th)))) th)
      s in
  (* Boundary check. *)
  Some (store t
          (fun th => set_priority
             (MIN (MAX (priority th) (FP_FIX PRI_MIN)) (FP_FIX PRI_MAX)) th)
          s1).

(* thread_set_nice (nice) *)
Definition thread_set_nice (n : Z) (s : sched) : option sched :=
  current <- thread_current s ;;
  let s1 := store current (set_nice n) s in
  let old_priority := priority (threads s1 current) in
  s2 <- thread_mlfqs_update_priority current s1 ;;
  if priority (threads s2 current) <? old_priority then thread_yield s2
  else Some s2.

(* thread_get_nice () *)
Definition thread_get_nice (s : sched) : option Z :=
  cur <- thread_current s ;;
  Some (nice (threads s cur)).

(* thread_get_load_avg () *)
Definition thread_get_load_avg (s : sched) : Z :=
  FP_RND (FP_MULI (load_avg s) 100).

(* thread_get_recent_cpu () *)
Definition thread_get_recent_cpu (s : sched) : option Z :=
  cur <- thread_current s ;;
  Some (FP_RND (FP_MULI (recent_cpu (threads s cur)) 100)).

(* thread_mlfqs_increment_recent_cpu () *)
Definition thread_mlfqs_increment_recent_cpu (s : sched) : option sched :=
  ASSERT (thread_mlfqs s) ;;
  current <- thread_current s ;;
  if ptr_is current (idle_thread s) then Some s
  else
    Some (store current
            (fun th => set_recent_cpu (FP_ADDI (recent_cpu th) 1) th) s).

(** [ready_threads] of [thread_mlfqs_update_load_avg], a [size_t]. *)
Definition ready_threads (s : sched) (cur : ptr) : Z :=
  uint32 (list_size (ready_list s)
          + (if negb (ptr_is cur (idle_thread s)) then 1 else 0)).

(* thread_mlfqs_update_load_avg () *)
Definition thread_mlfqs_update_load_avg (s : sched) : option sched :=
  ASSERT (thread_mlfqs s) ;;
  cur <- thread_current s ;;
  (* load_avg = (59/60)*load_avg + (1/60)*ready_threads. *)
  a <- FP_DIVI (FP_MULI (load_avg s) 59) 60 ;;
  b <- FP_IDIVI (ready_threads s cur) 60 ;;
  Some (with_load_avg (FP_ADD a b) s).

(** The loop of [thread_mlfqs_update_recent_cpu] over [all_list]. *)
Fixpoint update_recent_cpu_loop (l : list ptr) (s : sched) : option sched :=
  match l with
  | [] => Some s
  | t :: l' =>
      if negb (ptr_is t (idle_thread s)) then
        d <- FP_DIV (FP_MULI (load_avg s) 2)
                    (FP_ADDI (FP_MULI (load_avg s) 2) 1) ;;
        let s1 :=
          store t
            (fun th => set_recent_cpu
               (FP_ADDI (FP_MUL d (recent_cpu th)) (nice th)) th) s in
        s2 <- thread_mlfqs_update_priority t s1 ;;
        update_recent_cpu_loop l' s2
      else update_recent_cpu_loop l' s
  end.

(* thread_mlfqs_update_recent_cpu () *)
Definition thread_mlfqs_update_recent_cpu (s : sched) : option sched :=
  ASSERT (thread_mlfqs s) ;;
  s1 <- thread_mlfqs_update_load_avg s ;;
  update_recent_cpu_loop (all_list s1) s1.

(* thread_tick () *)
Definition thread_tick (s : sched) : option sched :=
  current <- thread_current s ;;
  (* Update statistics. *)
  let tk := int64 (ticks s + 1) in
  let s1 :=
    if ptr_is current (idle_thread s)
    then with_tick_stats tk (int64 (idle_ticks s + 1)) (kernel_ticks s) s
    else with_tick_stats tk (idle_ticks s) (int64 (kernel_ticks s + 1)) s in
  (* Update statistics for MLFQS. *)
  s2 <-
    (if thread_mlfqs s1 then
       s' <- thread_mlfqs_increment_recent_cpu s1 ;;
       if Z.rem (ticks s') TIMER_FREQ =? 0 then
         thread_mlfqs_update_recent_cpu s'
       else if (Z.rem (ticks s') 4 =? 0)
               && negb (ptr_is current (idle_thread s'))
       then thread_mlfqs_update_priority current s'
       else Some s'
     else Some s1) ;;
  (* Enforce preemption. *)
  let n := uint32 (thread_ticks s2 + 1) in
  let s3 := with_thread_ticks n s2 in
  if n >=? TIME_SLICE then Some (with_yield_on_return true s3)
  else Some s3.

(** The arithmetic is reasoned about through lemmas, not unfolded. *)
Arguments int32 : simpl never.
Arguments int64 : simpl never.
Arguments uint32 : simpl never.
Arguments shl32 : simpl never.
Arguments shl64 : simpl never.
Arguments shr : simpl never.
Arguments MAX : simpl never.
Arguments MIN : simpl never.
Arguments FP_FIX : simpl never.
Arguments FP_INT : simpl never.
Arguments FP_RND : simpl never.
Arguments FP_ADD : simpl never.
Arguments FP_ADDI : simpl never.
Arguments FP_SUB : simpl never.
Arguments FP_SUBI : simpl never.
Arguments FP_ISUB : simpl never.
Arguments FP_MUL : simpl never.
Arguments FP_MULI : simpl never.
Arguments FP_DIV : simpl never.
Arguments FP_DIVI : simpl never.
Arguments FP_IDIVI : simpl never.
Arguments FP_IADD : simpl never.
Arguments FP_IADDI : simpl never.
Arguments FP_ISUBI : simpl never.
Arguments FP_IMUL : simpl never.
Arguments FP_IMULI : simpl never.
Arguments FP_IDIV : simpl never.
Arguments list_size : simpl never.

(** * Properties *)

(** ** Machine integers *)

Section MachIntFacts.

Lemma int32_range x : in_int32 (int32 x).
Proof.
  unfold in_int32, int32, wrap, INT_MIN, INT_MAX.
  pose proof (Z.mod_pos_bound (x + 2 ^ (32 - 1)) (2 ^ 32) ltac:(lia)).
  change (2 ^ (32 - 1)) with 2147483648 in *.
  change (2 ^ 32) with 4294967296 in *.
  change (2 ^ 31) with 2147483648. lia.
Qed.

Lemma int32_small x : in_int32 x -> int32 x = x.
Proof.
  unfold in_int32, int32, wrap, INT_MIN, INT_MAX.
  change (2 ^ (32 - 1)) with 2147483648.
  change (2 ^ 32) with 4294967296.
  change (2 ^ 31) with 2147483648. intros H.
  rewrite Z.mod_small by lia. lia.
Qed.

Lemma int64_small x : in_int64 x -> int64 x = x.
Proof.
  unfold in_int64, int64, wrap.
  change (2 ^ (64 - 1)) with 9223372036854775808.
  change (2 ^ 64) with 18446744073709551616.
  change (2 ^ 63) with 9223372036854775808. intros H.
  rewrite Z.mod_small by lia. lia.
Qed.

Lemma in_int32_bounds x : in_int32 x <-> -2147483648 <= x <= 2147483647.
Proof. unfold in_int32, INT_MIN, INT_MAX. change (2 ^ 31) with 2147483648. lia. Qed.

Lemma in_int64_bounds x :
  in_int64 x <-> -9223372036854775808 <= x <= 9223372036854775807.
Proof. unfold in_int64. change (2 ^ 63) with 9223372036854775808. lia. Qed.

Lemma shl32_16 a :
  -32768 <= a <= 32767 -> shl32 a 16 = a * 65536.
Proof.
  intros H. unfold shl32. rewrite Z.shiftl_mul_pow2 by lia.
  change (2 ^ 16) with 65536. apply int32_small, in_int32_bounds. lia.
Qed.

Lemma shr_16 a : shr a 16 = a / 65536.
Proof. unfold shr. rewrite Z.shiftr_div_pow2 by lia. reflexivity. Qed.

(** A division by a divisor other than 0 and -1 does not trap. *)
Lemma cdiv_Some w a b : b <> 0 -> b <> -1 -> cdiv w a b = Some (Z.quot a b).
Proof.
  intros H0 H1. unfold cdiv.
  apply Z.eqb_neq in H0. apply Z.eqb_neq in H1. rewrite H0, H1. reflexivity.
Qed.

Lemma cdiv_zero w a : cdiv w a 0 = None.
Proof. reflexivity. Qed.

Lemma shr_16_range a : in_int32 a -> -32768 <= shr a 16 <= 32767.
Proof.
  rewrite in_int32_bounds, shr_16. intros H. split.
  - apply Z.div_le_lower_bound; lia.
  - apply Z.lt_succ_r, Z.div_lt_upper_bound; lia.
Qed.

End MachIntFacts.

(** ** Fixed point *)

Section FixedPointFacts.

Lemma FP_FIX_small n : -32768 <= n <= 32767 -> FP_FIX n = n * 65536.
Proof. apply shl32_16. Qed.

(** Rounding what [FP_FIX] made of a non-negative integer gives it back. *)
Lemma FP_RND_FIX_nonneg n : 0 <= n <= 32767 -> FP_RND (FP_FIX n) = n.
Proof.
  intros H. unfold FP_RND. rewrite FP_FIX_small by lia.
  change (shl32 1 (FP_SHIFT_BITS - 1)) with 32768.
  change FP_SHIFT_BITS with 16.
  destruct (n * 65536 >=? 0) eqn:E; [|lia].
  rewrite (int32_small (n * 65536 + 32768)) by (apply in_int32_bounds; lia).
  rewrite shr_16.
  replace (n * 65536 + 32768) with (32768 + n * 65536) by lia.
  rewrite Z.div_add by lia. change (32768 / 65536) with 0.
  apply int32_small, in_int32_bounds. lia.
Qed.

(** [FP_MUL] by the fixed-point one is the identity. *)
Lemma FP_MUL_one a : in_int32 a -> FP_MUL a (FP_FIX 1) = a.
Proof.
  intros H. unfold FP_MUL. change (FP_FIX 1) with 65536.
  change FP_SHIFT_BITS with 16. apply (proj1 (in_int32_bounds _)) in H.
  rewrite int64_small by (apply in_int64_bounds; lia).
  rewrite shr_16, Z.div_mul by lia.
  apply int32_small, in_int32_bounds. lia.
Qed.

(** [FP_DIV] by the fixed-point one is the identity. *)
Lemma FP_DIV_one a : in_int32 a -> FP_DIV a (FP_FIX 1) = Some a.
Proof.
  intros H. unfold FP_DIV, shl64. change (FP_FIX 1) with 65536.
  rewrite cdiv_Some by lia. cbn [option_map]. f_equal.
  change FP_SHIFT_BITS with 16. apply (proj1 (in_int32_bounds _)) in H.
  rewrite Z.shiftl_mul_pow2 by lia. change (2 ^ 16) with 65536.
  rewrite (int64_small (a * 65536)) by (apply in_int64_bounds; lia).
  rewrite Z.quot_mul by lia.
  rewrite int64_small by (apply in_int64_bounds; lia).
  apply int32_small, in_int32_bounds. lia.
Qed.

(** The divisions of [thread.c] by the constants 4 and 60 never trap. *)
Lemma FP_DIVI_4 a : FP_DIVI a 4 = Some (int32 (Z.quot a 4)).
Proof. reflexivity. Qed.

Lemma FP_DIVI_60 a : FP_DIVI a 60 = Some (int32 (Z.quot a 60)).
Proof. reflexivity. Qed.

(** C2.  The round trip is off by one on every negative integer whose
    rounding does not overflow: [FP_RND (FP_FIX n)] is [n - 1], not [n], because the
    negative branch of [FP_RND] subtracts one half and then shifts, and the
    arithmetic shift rounds toward minus infinity (the division that the
    formula needs rounds toward zero). *)
Theorem FP_RND_FIX_negative n :
  -32768 < n < 0 -> FP_RND (FP_FIX n) = n - 1.
Proof.
  intros H. unfold FP_RND. rewrite FP_FIX_small by lia.
  change (shl32 1 (FP_SHIFT_BITS - 1)) with 32768.
  change FP_SHIFT_BITS with 16.
  destruct (n * 65536 >=? 0) eqn:E; [lia|].
  rewrite (int32_small (n * 65536 - 32768)) by (apply in_int32_bounds; lia).
  rewrite shr_16.
  replace (n * 65536 - 32768) with (32768 + (n - 1) * 65536) by lia.
  rewrite Z.div_add by lia. change (32768 / 65536) with 0.
  apply int32_small, in_int32_bounds. lia.
Qed.

Lemma FP_RND_FIX_negative_witness :
  -32768 < -1 < 0 /\ FP_RND (FP_FIX (-1)) = -1 - 1.
Proof. split; [lia | apply (FP_RND_FIX_negative (-1)); lia]. Defined.

End FixedPointFacts.

(** ** Reading the state back after an assignment *)

Section StoreFacts.

Lemma threads_store_same t f s : threads (store t f s) t = f (threads s t).
Proof. simpl. rewrite Z.eqb_refl. reflexivity. Qed.

Lemma threads_store_other t f s p :
  p <> t -> threads (store t f s) p = threads s p.
Proof. intros H. simpl. apply Z.eqb_neq in H. rewrite H. reflexivity. Qed.

Lemma status_eqb_eq a b : status_eqb a b = true <-> a = b.
Proof. destruct a, b; simpl; split; congruence. Qed.

Lemma ptr_is_true t o : ptr_is t o = true <-> o = Some t.
Proof.
  destruct o as [p|]; simpl; [|split; discriminate].
  rewrite Z.eqb_eq. split; congruence.
Qed.

End StoreFacts.

(** ** MLFQS priority *)

Section MlfqsPriority.

(** The value that the two assignments of [thread_mlfqs_update_priority]
    leave in [t->priority]. *)
Lemma thread_mlfqs_update_priority_value t s :
  thread_mlfqs s = true ->
  ptr_is t (idle_thread s) = false ->
  exists s',
    thread_mlfqs_update_priority t s = Some s' /\
    priority (threads s' t) =
      MIN (MAX (FP_INT (FP_SUBI (FP_ISUB PRI_MAX
                                   (int32 (Z.quot (recent_cpu (threads s t))
                                                  4)))
                                (int32 (2 * nice (threads s t)))))
               (FP_FIX PRI_MIN))
          (FP_FIX PRI_MAX).
Proof.
  intros Hm Hi. unfold thread_mlfqs_update_priority.
  rewrite Hm, Hi, FP_DIVI_4.
  cbn [negb]. eexists. split; [reflexivity|].
  rewrite !threads_store_same. reflexivity.
Qed.

(** The lower bound of the boundary check holds for every input. *)
Lemma thread_mlfqs_update_priority_lower t s s' :
  thread_mlfqs_update_priority t s = Some s' ->
  PRI_MIN <= priority (threads s' t).
Proof.
  unfold thread_mlfqs_update_priority.
  destruct (thread_mlfqs s); [|discriminate].
  destruct (negb (ptr_is t (idle_thread s))); [|discriminate].
  rewrite FP_DIVI_4.
  intros H. injection H as <-. rewrite !threads_store_same.
  cbn [priority set_priority].
  change (FP_FIX PRI_MIN) with 0. change (FP_FIX PRI_MAX) with 4128768.
  unfold MIN, MAX, PRI_MIN.
  repeat match goal with
         | |- context [if ?c then _ else _] => destruct c eqn:?
         end; lia.
Qed.

(** With [recent_cpu = 0] and [nice = 0] the priority is [PRI_MAX]. *)
Lemma thread_mlfqs_update_priority_fresh t s :
  thread_mlfqs s = true ->
  ptr_is t (idle_thread s) = false ->
  recent_cpu (threads s t) = 0 -> nice (threads s t) = 0 ->
  exists s',
    thread_mlfqs_update_priority t s = Some s' /\
    priority (threads s' t) = PRI_MAX.
Proof.
  intros Hm Hi Hr Hn.
  destruct (thread_mlfqs_update_priority_value t s Hm Hi) as (s' & E & P).
  exists s'. split; [exact E|]. rewrite P, Hr, Hn. reflexivity.
Qed.

(** C1.  The boundary check compares the integer priority with
    [FP_FIX (PRI_MAX)], the fixed-point image of [PRI_MAX], so nothing is cut
    off at [PRI_MAX]: a thread with [recent_cpu = 0] and a negative [nice]
    (down to -20) gets priority [PRI_MAX - 2 * nice], above [PRI_MAX]. *)
Theorem thread_mlfqs_update_priority_above_PRI_MAX t s :
  thread_mlfqs s = true ->
  ptr_is t (idle_thread s) = false ->
  recent_cpu (threads s t) = 0 ->
  -20 <= nice (threads s t) < 0 ->
  exists s',
    thread_mlfqs_update_priority t s = Some s' /\
    priority (threads s' t) = PRI_MAX - 2 * nice (threads s t) /\
    PRI_MAX < priority (threads s' t).
Proof.
  intros Hm Hi Hr Hn.
  destruct (thread_mlfqs_update_priority_value t s Hm Hi) as (s' & E & P).
  exists s'. split; [exact E|]. rewrite P, Hr.
  set (n := nice (threads s t)) in *.
  change (FP_ISUB PRI_MAX (int32 (Z.quot 0 4))) with 4128768.
  change (FP_FIX PRI_MIN) with 0. change (FP_FIX PRI_MAX) with 4128768.
  unfold FP_SUBI, FP_INT. change FP_SHIFT_BITS with 16.
  rewrite (int32_small (2 * n)) by (apply in_int32_bounds; lia).
  rewrite shl32_16 by lia.
  rewrite int32_small by (apply in_int32_bounds; lia).
  rewrite shr_16.
  replace (4128768 - 2 * n * 65536) with ((63 - 2 * n) * 65536) by lia.
  rewrite Z.div_mul by lia.
  unfold MIN, MAX, PRI_MAX.
  destruct (63 - 2 * n >? 0) eqn:A; [|lia].
  destruct (63 - 2 * n <? 4128768) eqn:B; lia.
Qed.

End MlfqsPriority.

(** ** Example states *)

Section Examples.

(** A thread record in the given status with the given priority. *)
Definition a_thread (id : Z) (st : thread_status) (prio : Z) : thread :=
  mkThread id st prio prio [] 0 0 0.

(** Under MLFQS: thread 1 runs with [nice = -20] and [recent_cpu = 0];
    thread 2 is the idle thread. *)
Definition ex_mlfqs : sched :=
  mkSched (fun p => if p =? 1 then set_nice (-20) (a_thread 1 THREAD_RUNNING 63)
                    else a_thread 2 THREAD_BLOCKED 0)
          (fun _ => 0) [] [] [1; 2] (Some 2) (Some 1) 1 3
          0 0 0 0 0 true false.

End Examples.

Lemma thread_mlfqs_update_priority_above_PRI_MAX_witness :
  exists s',
    thread_mlfqs_update_priority 1 ex_mlfqs = Some s' /\
    priority (threads s' 1) = PRI_MAX - 2 * nice (threads ex_mlfqs 1) /\
    PRI_MAX < priority (threads s' 1).
Proof.
  apply (thread_mlfqs_update_priority_above_PRI_MAX 1 ex_mlfqs);
    [reflexivity | reflexivity | reflexivity | simpl; lia].
Defined.

(** ** Load average *)

(** The recurrence of the per-second update on the raw 17.16 values:
    [59/60] of the old average plus [1/60] of the count, each product
    truncated as the integer division of C does. *)
Definition load_avg_formula (la n : Z) : Z :=
  Z.quot (59 * la) 60 + Z.quot (n * 65536) 60.

(** The count of the per-second update: the threads of the ready list, and
    the running thread unless it is the idle thread. *)
Definition ready_thread_count (s : sched) : Z :=
  Z.of_nat (length (ready_list s))
  + (if ptr_is (running_thread s) (idle_thread s) then 0 else 1).

Section LoadAvg.

Lemma ready_threads_count s :
  Z.of_nat (length (ready_list s)) <= 32767 ->
  ready_threads s (running_thread s) = ready_thread_count s.
Proof.
  intros H. unfold ready_threads, ready_thread_count, list_size, uint32.
  change (2 ^ 32) with 4294967296.
  rewrite (Z.mod_small (Z.of_nat _)) by lia.
  destruct (ptr_is (running_thread s) (idle_thread s)); cbn [negb];
    apply Z.mod_small; lia.
Qed.

Lemma FP_IDIVI_60 n :
  0 <= n <= 32768 -> FP_IDIVI n 60 = Some (Z.quot (n * 65536) 60).
Proof.
  intros H. unfold FP_IDIVI, shl64. change (shl32 60 FP_SHIFT_BITS) with 3932160.
  rewrite cdiv_Some by lia. cbn [option_map]. f_equal.
  change (2 * FP_SHIFT_BITS) with 32.
  rewrite Z.shiftl_mul_pow2 by lia. change (2 ^ 32) with 4294967296.
  rewrite (int64_small (n * 4294967296)) by (apply in_int64_bounds; lia).
  replace (n * 4294967296) with (n * 65536 * 65536) by lia.
  change 3932160 with (60 * 65536).
  rewrite Z.quot_mul_cancel_r by lia.
  assert (0 <= Z.quot (n * 65536) 60 <= 35791394).
  { split; [apply Z.quot_pos; lia|].
    apply Z.lt_succ_r, Z.quot_lt_upper_bound; lia. }
  rewrite int64_small by (apply in_int64_bounds; lia).
  apply int32_small, in_int32_bounds. lia.
Qed.

(** The division by [60 << 16] never traps either. *)
Lemma FP_IDIVI_60_Some n : exists b, FP_IDIVI n 60 = Some b.
Proof.
  unfold FP_IDIVI. change (shl32 60 FP_SHIFT_BITS) with 3932160.
  rewrite cdiv_Some by lia. eexists. reflexivity.
Qed.

Lemma FP_load_avg_step la n :
  0 <= la -> 59 * la <= INT_MAX -> 0 <= n <= 32768 ->
  exists a b,
    FP_DIVI (FP_MULI la 59) 60 = Some a /\ FP_IDIVI n 60 = Some b /\
    FP_ADD a b = load_avg_formula la n.
Proof.
  unfold INT_MAX. change (2 ^ 31) with 2147483648. intros H0 H1 Hn.
  rewrite FP_DIVI_60, FP_IDIVI_60 by lia.
  eexists. eexists. split; [reflexivity|]. split; [reflexivity|].
  unfold FP_ADD, FP_MULI, load_avg_formula.
  rewrite (int32_small (la * 59)) by (apply in_int32_bounds; lia).
  replace (la * 59) with (59 * la) by lia.
  assert (0 <= Z.quot (59 * la) 60 <= 35791394).
  { split; [apply Z.quot_pos; lia|].
    apply Z.lt_succ_r, Z.quot_lt_upper_bound; lia. }
  assert (0 <= Z.quot (n * 65536) 60 <= 35791394).
  { split; [apply Z.quot_pos; lia|].
    apply Z.lt_succ_r, Z.quot_lt_upper_bound; lia. }
  rewrite (int32_small (Z.quot (59 * la) 60)) by (apply in_int32_bounds; lia).
  apply int32_small, in_int32_bounds. lia.
Qed.

(** The raw value is within two units of the last place (two 65536ths)
    below the exact rational [(59 * la + 65536 * n) / 60]. *)
Lemma load_avg_formula_exact la n :
  0 <= la -> 0 <= n ->
  0 <= (59 * la + 65536 * n) - 60 * load_avg_formula la n < 120.
Proof.
  intros H0 Hn. unfold load_avg_formula.
  pose proof (Z.quot_rem' (59 * la) 60) as Q1.
  pose proof (Z.quot_rem' (n * 65536) 60) as Q2.
  pose proof (Z.rem_bound_pos (59 * la) 60 ltac:(lia) ltac:(lia)).
  pose proof (Z.rem_bound_pos (n * 65536) 60 ltac:(lia) ltac:(lia)).
  lia.
Qed.

Lemma load_avg_formula_bound la n :
  0 <= la -> 59 * la <= INT_MAX -> 0 <= n <= 32768 ->
  0 <= load_avg_formula la n <= 71582788.
Proof.
  unfold INT_MAX. change (2 ^ 31) with 2147483648. intros H0 H1 Hn.
  unfold load_avg_formula.
  assert (0 <= Z.quot (59 * la) 60 <= 35791394).
  { split; [apply Z.quot_pos; lia|].
    apply Z.lt_succ_r, Z.quot_lt_upper_bound; lia. }
  assert (0 <= Z.quot (n * 65536) 60 <= 35791394).
  { split; [apply Z.quot_pos; lia|].
    apply Z.lt_succ_r, Z.quot_lt_upper_bound; lia. }
  lia.
Qed.

(** [thread_mlfqs_update_load_avg] returns and assigns the recurrence to
    [load_avg]: its two divisors are constants. *)
Lemma thread_mlfqs_update_load_avg_value s :
  thread_mlfqs s = true ->
  status (threads s (running_thread s)) = THREAD_RUNNING ->
  exists a b,
    FP_DIVI (FP_MULI (load_avg s) 59) 60 = Some a /\
    FP_IDIVI (ready_threads s (running_thread s)) 60 = Some b /\
    thread_mlfqs_update_load_avg s = Some (with_load_avg (FP_ADD a b) s).
Proof.
  intros Hm Hr. unfold thread_mlfqs_update_load_avg, thread_current.
  rewrite Hm, Hr. cbn [status_eqb]. rewrite FP_DIVI_60.
  destruct (FP_IDIVI_60_Some (ready_threads s (running_thread s)))
    as (b & ->).
  eexists. eexists. split; [reflexivity|]. split; reflexivity.
Qed.

(** The coefficient [(2 * load_avg) / (2 * load_avg + 1)] of the decay, in
    fixed point: for a load average that is not negative the divisor is
    positive, the division does not trap and the quotient lies in [0, 1). *)
Lemma decay_coefficient la :
  0 <= la <= 1073709055 ->
  exists d,
    FP_DIV (FP_MULI la 2) (FP_ADDI (FP_MULI la 2) 1) = Some d /\
    0 <= d < 65536.
Proof.
  intros H. unfold FP_MULI, FP_ADDI.
  rewrite (int32_small (la * 2)) by (apply in_int32_bounds; lia).
  change (shl32 1 FP_SHIFT_BITS) with 65536.
  rewrite (int32_small (la * 2 + 65536)) by (apply in_int32_bounds; lia).
  unfold FP_DIV, shl64. rewrite cdiv_Some by lia. cbn [option_map].
  eexists. split; [reflexivity|].
  change FP_SHIFT_BITS with 16.
  rewrite Z.shiftl_mul_pow2 by lia. change (2 ^ 16) with 65536.
  rewrite (int64_small (la * 2 * 65536)) by (apply in_int64_bounds; lia).
  rewrite Z.quot_div_nonneg by lia.
  assert (Hq : 0 <= la * 2 * 65536 / (la * 2 + 65536) < 65536).
  { split; [apply Z.div_pos; lia|].
    apply Z.div_lt_upper_bound; lia. }
  rewrite int64_small by (apply in_int64_bounds; lia).
  rewrite int32_small by (apply in_int32_bounds; lia). exact Hq.
Qed.

(** When the division of the decay does not trap, the sweep over [all_list]
    runs to its end and touches neither [load_avg] nor the lists nor the
    running thread. *)
Lemma update_recent_cpu_loop_frame l : forall s d,
  thread_mlfqs s = true ->
  FP_DIV (FP_MULI (load_avg s) 2) (FP_ADDI (FP_MULI (load_avg s) 2) 1)
    = Some d ->
  exists s',
    update_recent_cpu_loop l s = Some s' /\
    load_avg s' = load_avg s /\ thread_ticks s' = thread_ticks s /\
    ready_list s' = ready_list s /\ sleep_list s' = sleep_list s /\
    all_list s' = all_list s /\ idle_thread s' = idle_thread s /\
    running_thread s' = running_thread s /\ next_tid s' = next_tid s /\
    (forall p, status (threads s' p) = status (threads s p)) /\
    (forall p, tid (threads s' p) = tid (threads s p)).
Proof.
  induction l as [|t l IH]; intros s d Hm Hd; simpl.
  - exists s. repeat split; reflexivity.
  - destruct (ptr_is t (idle_thread s)) eqn:Hi; cbn [negb].
    + eapply IH; eassumption.
    + rewrite Hd. unfold thread_mlfqs_update_priority.
      cbn [thread_mlfqs idle_thread store with_threads].
      rewrite Hm, Hi, FP_DIVI_4. cbn [negb].
      match goal with
      | |- exists s', update_recent_cpu_loop l ?s1 = _ /\ _ =>
          destruct (IH s1 d Hm Hd)
            as (s' & E & A & B & C & D & F & G & H & I & J & K)
      end.
      exists s'. split; [exact E|].
      cbn in A, B, C, D, F, G, H, I.
      repeat split; try assumption.
      * intros p. rewrite J. cbn. destruct (p =? t); reflexivity.
      * intros p. rewrite K. cbn. destruct (p =? t); reflexivity.
Qed.

End LoadAvg.

Section LoadAvgTick.

(** When the division of the decay by the new load average does not trap,
    [thread_mlfqs_update_recent_cpu] returns, with the recurrence in
    [load_avg]. *)
Lemma thread_mlfqs_update_recent_cpu_load_avg s a b d :
  thread_mlfqs s = true ->
  status (threads s (running_thread s)) = THREAD_RUNNING ->
  FP_DIVI (FP_MULI (load_avg s) 59) 60 = Some a ->
  FP_IDIVI (ready_threads s (running_thread s)) 60 = Some b ->
  FP_DIV (FP_MULI (FP_ADD a b) 2) (FP_ADDI (FP_MULI (FP_ADD a b) 2) 1)
    = Some d ->
  exists s',
    thread_mlfqs_update_recent_cpu s = Some s' /\
    load_avg s' = FP_ADD a b /\
    thread_ticks s' = thread_ticks s.
Proof.
  intros Hm Hr Ha Hb Hd. unfold thread_mlfqs_update_recent_cpu.
  destruct (thread_mlfqs_update_load_avg_value s Hm Hr)
    as (a' & b' & Ea & Eb & E).
  rewrite Ha in Ea. rewrite Hb in Eb.
  injection Ea as <-. injection Eb as <-.
  rewrite Hm, E.
  match goal with
  | |- exists s', update_recent_cpu_loop ?l ?s1 = _ /\ _ =>
      destruct (update_recent_cpu_loop_frame l s1 d Hm Hd)
        as (s' & E' & A & B & _)
  end.
  exists s'. split; [exact E'|]. split; [exact A | exact B].
Qed.

Lemma thread_mlfqs_increment_recent_cpu_frame s :
  thread_mlfqs s = true ->
  status (threads s (running_thread s)) = THREAD_RUNNING ->
  exists s',
    thread_mlfqs_increment_recent_cpu s = Some s' /\
    thread_mlfqs s' = true /\ ticks s' = ticks s /\
    load_avg s' = load_avg s /\ ready_list s' = ready_list s /\
    idle_thread s' = idle_thread s /\
    running_thread s' = running_thread s /\
    status (threads s' (running_thread s')) = THREAD_RUNNING.
Proof.
  intros Hm Hr. unfold thread_mlfqs_increment_recent_cpu, thread_current.
  rewrite Hm, Hr. cbn [status_eqb].
  destruct (ptr_is (running_thread s) (idle_thread s)).
  - exists s. repeat split; assumption.
  - eexists. split; [reflexivity|]. cbn. rewrite Z.eqb_refl. cbn.
    repeat split; assumption.
Qed.

(** The tick that completes a second, for a load average that is not
    negative and below the overflow of its multiplication by 59: the tick
    returns and leaves the recurrence in [load_avg]. *)
Lemma thread_tick_sweep s :
  thread_mlfqs s = true ->
  status (threads s (running_thread s)) = THREAD_RUNNING ->
  Z.rem (int64 (ticks s + 1)) TIMER_FREQ = 0 ->
  0 <= load_avg s -> 59 * load_avg s <= INT_MAX ->
  Z.of_nat (length (ready_list s)) <= 32767 ->
  exists s',
    thread_tick s = Some s' /\
    load_avg s' = load_avg_formula (load_avg s) (ready_thread_count s).
Proof.
  intros Hm Hr Ht H0 H1 Hn.
  assert (Hc : 0 <= ready_thread_count s <= 32768).
  { unfold ready_thread_count.
    destruct (ptr_is (running_thread s) (idle_thread s)); lia. }
  unfold thread_tick, thread_current. rewrite Hr. cbn [status_eqb]. cbv zeta.
  set (s1 := if ptr_is (running_thread s) (idle_thread s) then _ else _).
  assert (P1 : thread_mlfqs s1 = true /\ ticks s1 = int64 (ticks s + 1) /\
               load_avg s1 = load_avg s /\ ready_list s1 = ready_list s /\
               idle_thread s1 = idle_thread s /\
               running_thread s1 = running_thread s /\
               threads s1 = threads s).
  { subst s1. destruct (ptr_is (running_thread s) (idle_thread s));
      repeat split; assumption. }
  destruct P1 as (Pm & Pt & Pl & Pr & Pi & Pc & Pth).
  assert (Ps : status (threads s1 (running_thread s1)) = THREAD_RUNNING)
    by (rewrite Pc, Pth; exact Hr).
  rewrite Pm.
  destruct (thread_mlfqs_increment_recent_cpu_frame s1 Pm Ps)
    as (s2 & E2 & Qm & Qt & Ql & Qr & Qi & Qc & Qs).
  rewrite E2, Qt, Pt, Ht. cbn [Z.eqb].
  assert (R : ready_threads s2 (running_thread s2) = ready_thread_count s).
  { pose proof (ready_threads_count s Hn) as R.
    unfold ready_threads, ready_thread_count in *.
    rewrite Qr, Pr, Qi, Pi, Qc, Pc. exact R. }
  destruct (FP_load_avg_step (load_avg s) (ready_thread_count s) H0 H1 Hc)
    as (a & b & Ea & Eb & Eab).
  pose proof (load_avg_formula_bound _ _ H0 H1 Hc) as Hb.
  destruct (decay_coefficient (FP_ADD a b)) as (d & Ed & _);
    [rewrite Eab; lia|].
  destruct (thread_mlfqs_update_recent_cpu_load_avg s2 a b d Qm Qs)
    as (s3 & E3 & L3 & _);
    [rewrite Ql, Pl; exact Ea | rewrite R; exact Eb | exact Ed |].
  rewrite E3.
  assert (L : load_avg s3 =
              load_avg_formula (load_avg s) (ready_thread_count s))
    by (rewrite L3; exact Eab).
  destruct (uint32 (thread_ticks s3 + 1) >=? TIME_SLICE);
    eexists; (split; [reflexivity|]);
    cbn [load_avg with_yield_on_return with_thread_ticks]; exact L.
Qed.


(** C8.  On the tick that completes a second ([ticks] becomes a multiple of
    [TIMER_FREQ]) under MLFQS, [thread_tick] leaves in [load_avg] the 17.16
    value of [(59/60) * load_avg + (1/60) * ready_thread_count], where the
    count is the length of the ready list plus one unless the idle thread is
    running: the two products are truncated to the 16 fractional bits, so the
    value lies less than two 65536ths below the exact one.  The bounds keep
    the 32-bit arithmetic from overflowing (a load average below 555). *)
Theorem thread_tick_load_avg s :
  thread_mlfqs s = true ->
  status (threads s (running_thread s)) = THREAD_RUNNING ->
  Z.rem (int64 (ticks s + 1)) TIMER_FREQ = 0 ->
  0 <= load_avg s -> 59 * load_avg s <= INT_MAX ->
  Z.of_nat (length (ready_list s)) <= 32767 ->
  exists s',
    thread_tick s = Some s' /\
    load_avg s' = load_avg_formula (load_avg s) (ready_thread_count s) /\
    0 <= (59 * load_avg s + 65536 * ready_thread_count s)
         - 60 * load_avg s' < 120.
Proof.
  intros Hm Hr Ht H0 H1 Hn.
  assert (Hc : 0 <= ready_thread_count s).
  { unfold ready_thread_count.
    destruct (ptr_is (running_thread s) (idle_thread s)); lia. }
  destruct (thread_tick_sweep s Hm Hr Ht H0 H1 Hn) as (s' & E & L).
  exists s'. split; [exact E|]. split; [exact L|].
  rewrite L. apply load_avg_formula_exact; assumption.
Qed.

End LoadAvgTick.

(** Under MLFQS at tick 99: thread 1 runs, threads 3 and 4 are ready,
    thread 2 is the idle thread, the load average is 1.0. *)
Definition ex_tick : sched :=
  mkSched (fun p => if p =? 1 then a_thread 1 THREAD_RUNNING 63
                    else if p =? 2 then a_thread 2 THREAD_BLOCKED 0
                    else a_thread p THREAD_READY 63)
          (fun _ => 0) [] [3; 4] [1; 2; 3; 4] (Some 2) (Some 1) 1 5
          99 0 99 65536 3 true false.

Lemma thread_tick_load_avg_witness :
  exists s',
    thread_tick ex_tick = Some s' /\
    load_avg s' =
      load_avg_formula (load_avg ex_tick) (ready_thread_count ex_tick) /\
    0 <= (59 * load_avg ex_tick + 65536 * ready_thread_count ex_tick)
         - 60 * load_avg s' < 120.
Proof.
  apply (thread_tick_load_avg ex_tick);
    [reflexivity | reflexivity | reflexivity
    | vm_compute; discriminate | vm_compute; discriminate
    | vm_compute; discriminate].
Defined.

(** ** Thread creation without a free page *)

Section Create.

(** C9.  When [palloc_get_page] has no page, [thread_create] returns
    [TID_ERROR] at once: the state it leaves is the state it was called in,
    so no thread joined [all_list] or [ready_list], no tid was consumed and
    nothing was retried. *)
Theorem thread_create_no_page prio pos s :
  thread_create prio None pos s = Some (TID_ERROR, s).
Proof. reflexivity. Qed.

End Create.

(** ** Ordered lists *)

(** The resident that a queue ordered by [key] hands out first when asked
    for "the maximum, and among equals the one that came first": [arr] lists
    the residents in the order they came. *)
Fixpoint first_max {A : Type} (key : A -> Z) (arr : list A) : option A :=
  match arr with
  | [] => None
  | t :: rest =>
      match first_max key rest with
      | None => Some t
      | Some u => if key u >? key t then Some u else Some t
      end
  end.

(** The largest of [base] and the keys of [l]. *)
Definition max_key {A : Type} (key : A -> Z) (base : Z) (l : list A) : Z :=
  fold_right (fun x acc => Z.max (key x) acc) base l.

Section OrderedLists.
Context {A : Type} (key : A -> Z).

(** Descending comparison, the [less] of [thread_cmp_priority] and
    [lock_cmp_priority] with [aux] true. *)
Definition desc (a b : A) : bool := key a >? key b.
(** Ascending comparison, the [less] of [thread_cmp_ticks_sleep] with [aux]
    false. *)
Definition asc (a b : A) : bool := key a <? key b.

Lemma list_insert_ordered_perm less (x : A) l :
  Permutation (list_insert_ordered less x l) (x :: l).
Proof.
  induction l as [|e l IH]; simpl; [reflexivity|].
  destruct (less x e); [reflexivity|].
  rewrite IH. apply perm_swap.
Qed.

Lemma list_insert_ordered_In less (x y : A) l :
  In y (list_insert_ordered less x l) <-> y = x \/ In y l.
Proof.
  split; intros H.
  - apply (Permutation_in _ (list_insert_ordered_perm less x l)) in H.
    destruct H; auto.
  - apply (Permutation_in _ (Permutation_sym (list_insert_ordered_perm less x l))).
    destruct H; [left|right]; auto.
Qed.

Lemma list_insert_ordered_front less (x e : A) l :
  less x e = true -> list_insert_ordered less x (e :: l) = x :: e :: l.
Proof. intros H. simpl. rewrite H. reflexivity. Qed.



Lemma list_sort_nil_inv arr : list_sort desc arr = [] -> arr = [].
Proof.
  destruct arr as [|a arr]; [reflexivity|]. unfold list_sort. simpl.
  destruct (fold_right (sort_insert desc) [] arr) as [|e l]; simpl;
    [discriminate|]. destruct (desc e a); discriminate.
Qed.

Lemma sort_insert_perm (x : A) l : Permutation (sort_insert desc x l) (x :: l).
Proof.
  induction l as [|e l IH]; simpl; [reflexivity|].
  destruct (desc e x); [|reflexivity].
  rewrite IH. apply perm_swap.
Qed.

Lemma list_sort_perm arr : Permutation (list_sort desc arr) arr.
Proof.
  induction arr as [|a arr IH]; [reflexivity|].
  unfold list_sort in *. simpl. rewrite sort_insert_perm, IH. reflexivity.
Qed.

Lemma first_max_In arr (h : A) : first_max key arr = Some h -> In h arr.
Proof.
  revert h. induction arr as [|a arr IH]; simpl; intros h; [discriminate|].
  destruct (first_max key arr) as [u|].
  - destruct (key u >? key a); intros [= <-]; auto.
  - intros [= <-]. auto.
Qed.


Lemma first_max_key arr (h : A) base :
  first_max key arr = Some h -> max_key key base arr = Z.max (key h) base.
Proof.
  revert h. induction arr as [|a arr IH]; simpl; intros h; [discriminate|].
  destruct (first_max key arr) as [u|] eqn:E.
  - rewrite (IH u eq_refl).
    destruct (key u >? key a) eqn:G; intros [= <-]; lia.
  - intros [= <-]. destruct arr as [|b arr]; [simpl; lia|].
    simpl in E. destruct (first_max key arr) as [v|];
      [destruct (key v >? key b)|]; discriminate.
Qed.

(** The front of the sorted list is the first arrival of maximal key. *)
Lemma list_sort_head arr (h : A) rest :
  list_sort desc arr = h :: rest -> first_max key arr = Some h.
Proof.
  revert h rest. induction arr as [|a arr IH]; intros h rest;
    [discriminate|].
  unfold list_sort in *. simpl.
  destruct (fold_right (sort_insert desc) [] arr) as [|h' rest'] eqn:E.
  - apply list_sort_nil_inv in E. subst arr. simpl. intros [= <- <-].
    reflexivity.
  - rewrite (IH h' rest' eq_refl). simpl. unfold desc.
    destruct (key h' >? key a); intros [= <- <-]; reflexivity.
Qed.

End OrderedLists.

(** ** Priority donation *)

(** ** Taking an element out of its list *)

Section Removal.

Lemma mem_ptr_In x l : mem_ptr x l = true <-> In x l.
Proof.
  unfold mem_ptr. rewrite existsb_exists. split.
  - intros (y & Hy & E). apply Z.eqb_eq in E. subst. exact Hy.
  - intros H. exists x. split; [exact H | apply Z.eqb_refl].
Qed.

Lemma list_remove_Some x l : In x l -> list_remove x l = Some (unlink x l).
Proof.
  intros H. unfold list_remove. apply mem_ptr_In in H. rewrite H.
  reflexivity.
Qed.

Lemma list_remove_None x l : ~ In x l -> list_remove x l = None.
Proof.
  intros H. unfold list_remove. destruct (mem_ptr x l) eqn:E; [|reflexivity].
  apply mem_ptr_In in E. contradiction.
Qed.

Lemma list_remove_inv x l l' :
  list_remove x l = Some l' -> In x l /\ l' = unlink x l.
Proof.
  unfold list_remove. destruct (mem_ptr x l) eqn:E; [|discriminate].
  intros [= <-]. split; [apply mem_ptr_In, E | reflexivity].
Qed.

(** In a list without repetition, the element taken out is the only one
    that leaves. *)
Lemma unlink_filter x l :
  NoDup l -> unlink x l = filter (fun y => negb (y =? x)) l.
Proof.
  induction l as [|y l IH]; intros Hn; [reflexivity|].
  apply NoDup_cons_iff in Hn. destruct Hn as [Hy Hn]. simpl.
  destruct (y =? x) eqn:E; cbn [negb].
  - apply Z.eqb_eq in E. subst y. symmetry.
    clear IH Hn. induction l as [|z l IH]; [reflexivity|]. simpl.
    destruct (z =? x) eqn:Ez; cbn [negb].
    + apply Z.eqb_eq in Ez. subst z. exfalso. apply Hy. left. reflexivity.
    + f_equal. apply IH. intros H. apply Hy. right. exact H.
  - f_equal. apply IH, Hn.
Qed.

(** The holder of a lock that one live thread holds is found. *)
Lemma lock_holder_Some lock t s :
  In t (all_list s) -> In lock (locks (threads s t)) ->
  (forall p, In p (all_list s) -> In lock (locks (threads s p)) -> p = t) ->
  lock_holder lock s = Some t.
Proof.
  unfold lock_holder. intros Ht Hl Hu.
  destruct (find _ (all_list s)) as [p|] eqn:E.
  - apply find_some in E. destruct E as [Hp Hm].
    apply mem_ptr_In in Hm. f_equal. apply Hu; assumption.
  - apply (find_none _ _ E) in Ht. apply mem_ptr_In in Hl. congruence.
Qed.

(** A lock that no live thread holds has no holder. *)
Lemma lock_holder_None lock s :
  (forall p, In p (all_list s) -> ~ In lock (locks (threads s p))) ->
  lock_holder lock s = None.
Proof.
  unfold lock_holder. intros Hu.
  destruct (find _ (all_list s)) as [p|] eqn:E; [|reflexivity].
  apply find_some in E. destruct E as [Hp Hm].
  apply mem_ptr_In in Hm. exfalso. exact (Hu p Hp Hm).
Qed.

End Removal.

Section Donation.

Lemma lock_cmp_priority_desc lp :
  lock_cmp_priority lp true = desc lp.
Proof. reflexivity. Qed.

(** [thread_update_priority] leaves in [t->priority] the largest of the base
    priority and the priorities of the locks [t] holds. *)
Lemma thread_update_priority_value t s :
  priority (threads (thread_update_priority t s) t)
  = max_key (lock_priority s) (base_priority (threads s t))
            (locks (threads s t)).
Proof.
  unfold thread_update_priority. rewrite threads_store_same.
  cbn [locks set_priority].
  destruct (locks (threads s t)) as [|l0 ls] eqn:El.
  - rewrite threads_store_same. reflexivity.
  - change (lock_priority (store t (set_priority (base_priority (threads s t))) s))
      with (lock_priority s).
    rewrite lock_cmp_priority_desc.
    destruct (list_sort (desc (lock_priority s)) (l0 :: ls)) as [|l rest] eqn:Es.
    + apply list_sort_nil_inv in Es. discriminate.
    + apply list_sort_head in Es.
      rewrite (first_max_key _ _ _ (base_priority (threads s t)) Es).
      cbn [lock_priority store with_threads].
      rewrite !threads_store_same. cbn [priority set_locks set_priority].
      destruct (lock_priority s l >? base_priority (threads s t)) eqn:G.
      * rewrite threads_store_same. cbn [priority set_priority]. lia.
      * rewrite !threads_store_same. cbn [priority set_locks set_priority].
        lia.
Qed.

Lemma thread_update_priority_frame t s :
  let s' := thread_update_priority t s in
  ready_list s' = ready_list s /\ running_thread s' = running_thread s /\
  base_priority (threads s' t) = base_priority (threads s t) /\
  lock_priority s' = lock_priority s.
Proof.
  unfold thread_update_priority. rewrite threads_store_same.
  cbn [locks set_priority].
  destruct (locks (threads s t)) as [|l0 ls].
  - cbn. rewrite Z.eqb_refl. repeat split; reflexivity.
  - destruct (list_sort _ (l0 :: ls)) as [|l rest].
    + cbn. rewrite Z.eqb_refl. repeat split; reflexivity.
    + match goal with |- context [if ?c then _ else _] => destruct c end;
        cbn; rewrite Z.eqb_refl; repeat split; reflexivity.
Qed.

(** The locks of [t] after [thread_update_priority] are the locks it held,
    sorted. *)
Lemma thread_update_priority_locks t s :
  Permutation (locks (threads (thread_update_priority t s) t))
              (locks (threads s t)).
Proof.
  unfold thread_update_priority. rewrite threads_store_same.
  cbn [locks set_priority].
  destruct (locks (threads s t)) as [|l0 ls] eqn:El.
  - rewrite threads_store_same. cbn [locks set_priority]. rewrite El.
    reflexivity.
  - change (lock_priority (store t (set_priority (base_priority (threads s t))) s))
      with (lock_priority s).
    rewrite lock_cmp_priority_desc.
    pose proof (list_sort_perm (lock_priority s) (l0 :: ls)) as P.
    destruct (list_sort (desc (lock_priority s)) (l0 :: ls)) as [|l rest].
    + rewrite threads_store_same. cbn [locks set_locks]. exact P.
    + match goal with |- context [if ?c then _ else _] => destruct c end;
        rewrite !threads_store_same; cbn [locks set_locks set_priority];
        exact P.
Qed.

(** The two ways [thread_donate_priority] returns: the thread is not ready
    or its priority has not changed, or the thread is taken out of the
    ready list, where it is, and inserted again. *)
Lemma thread_donate_priority_cases t s s' :
  thread_donate_priority t s = Some s' ->
  let s1 := thread_update_priority t s in
  s' = s1 \/
  (In t (ready_list s1) /\ status (threads s1 t) = THREAD_READY /\
   priority (threads s1 t) <> priority (threads s t) /\
   s' = with_ready_list
          (list_insert_ordered (thread_cmp_priority (threads s1) true) t
                               (unlink t (ready_list s1))) s1).
Proof.
  unfold thread_donate_priority. cbv zeta.
  destruct (status_eqb (status (threads (thread_update_priority t s) t))
                       THREAD_READY) eqn:Es;
    cbn [andb]; [|intros [= <-]; left; reflexivity].
  destruct (priority (threads (thread_update_priority t s) t)
            =? priority (threads s t)) eqn:Ep;
    cbn [negb]; [intros [= <-]; left; reflexivity|].
  destruct (list_remove t _) as [l|] eqn:El; [|discriminate].
  apply list_remove_inv in El. destruct El as [Hin ->]. intros [= <-].
  right. repeat split; try assumption.
  - destruct (status (threads (thread_update_priority t s) t));
      try discriminate Es. reflexivity.
  - apply Z.eqb_neq, Ep.
Qed.

(** Releasing a lock that no live thread holds: its element is in no list,
    and [list_remove] has no result. *)
Lemma thread_release_lock_unheld lock s :
  (forall p, In p (all_list s) -> ~ In lock (locks (threads s p))) ->
  thread_release_lock lock s = None.
Proof.
  intros H. unfold thread_release_lock. rewrite (lock_holder_None lock s H).
  reflexivity.
Qed.

(** C4.  Outside MLFQS, for the running thread [t] that holds [lock] (and
    maybe others): [thread_set_priority] with a value below the current
    priority records it as the base priority and leaves the priority, the
    running thread and the ready list alone (the lowering is deferred); the
    release of [lock] that follows takes [lock], and nothing else, out of
    the locks of [t], and sets the priority to the largest of that base
    priority and the priorities of the locks that remain, which is the new
    base priority as soon as no remaining lock lies above it. *)
Theorem thread_set_priority_deferred new_priority lock s :
  thread_mlfqs s = false ->
  status (threads s (running_thread s)) = THREAD_RUNNING ->
  In (running_thread s) (all_list s) ->
  In lock (locks (threads s (running_thread s))) ->
  NoDup (locks (threads s (running_thread s))) ->
  (forall p, In p (all_list s) -> In lock (locks (threads s p)) ->
     p = running_thread s) ->
  new_priority < priority (threads s (running_thread s)) ->
  let t := running_thread s in
  let remaining := filter (fun l => negb (l =? lock)) (locks (threads s t)) in
  exists s1 s2,
    thread_set_priority new_priority s = Some s1 /\
    priority (threads s1 t) = priority (threads s t) /\
    base_priority (threads s1 t) = new_priority /\
    running_thread s1 = t /\ ready_list s1 = ready_list s /\
    thread_release_lock lock s1 = Some s2 /\
    Permutation (locks (threads s2 t)) remaining /\
    ~ In lock (locks (threads s2 t)) /\
    base_priority (threads s2 t) = new_priority /\
    priority (threads s2 t)
      = max_key (lock_priority s) new_priority remaining /\
    (Forall (fun l => lock_priority s l <= new_priority) remaining ->
     priority (threads s2 t) = new_priority).
Proof.
  intros Hm Hr Hlive Hin Hnd Hu Hlt t remaining.
  fold t in Hr, Hlive, Hin, Hnd, Hu, Hlt.
  set (s1 := store t (set_base_priority new_priority) s).
  assert (E1 : thread_set_priority new_priority s = Some s1).
  { unfold thread_set_priority, thread_current. rewrite Hm. fold t.
    rewrite Hr. cbn [status_eqb]. fold s1. subst s1.
    rewrite !threads_store_same. cbn [locks priority set_base_priority].
    destruct (locks (threads s t)) as [|l0 ls]; [destruct Hin|].
    cbn [list_empty orb].
    destruct (new_priority >? priority (threads s t)) eqn:G; [|reflexivity].
    lia. }
  assert (Hlocks : forall p, locks (threads s1 p) = locks (threads s p)).
  { intros p. subst s1. cbn. destruct (p =? t); reflexivity. }
  assert (Eh : lock_holder lock s1 = Some t).
  { apply lock_holder_Some.
    - exact Hlive.
    - rewrite Hlocks. exact Hin.
    - intros p Hp. rewrite Hlocks. apply Hu, Hp. }
  set (s1' := store t (set_locks (unlink lock (locks (threads s t)))) s1).
  assert (E2 : thread_release_lock lock s1
               = Some (thread_update_priority t s1')).
  { unfold thread_release_lock, thread_current. rewrite Eh, Hlocks.
    rewrite (list_remove_Some lock _ Hin). fold s1'.
    change (running_thread s1') with t.
    subst s1' s1. rewrite !threads_store_same.
    cbn [status set_locks set_base_priority].
    rewrite Hr. reflexivity. }
  assert (El : locks (threads s1' t) = remaining).
  { subst s1' s1 remaining. rewrite threads_store_same. cbn [locks set_locks].
    apply unlink_filter, Hnd. }
  assert (P : priority (threads (thread_update_priority t s1') t)
              = max_key (lock_priority s) new_priority remaining).
  { rewrite thread_update_priority_value, El. subst s1' s1.
    cbn [lock_priority threads with_threads store].
    rewrite Z.eqb_refl. reflexivity. }
  assert (Pl : Permutation (locks (threads (thread_update_priority t s1') t))
                           remaining).
  { rewrite <- El. apply thread_update_priority_locks. }
  exists s1, (thread_update_priority t s1').
  split; [exact E1|].
  split; [subst s1; rewrite threads_store_same; reflexivity|].
  split; [subst s1; rewrite threads_store_same; reflexivity|].
  split; [reflexivity|]. split; [reflexivity|].
  split; [exact E2|].
  split; [exact Pl|].
  split.
  { intros H. apply (Permutation_in _ Pl) in H. subst remaining.
    apply filter_In in H. destruct H as [_ H].
    rewrite Z.eqb_refl in H. discriminate H. }
  split.
  { destruct (thread_update_priority_frame t s1') as (_ & _ & B & _).
    rewrite B. subst s1' s1. cbn. rewrite Z.eqb_refl. reflexivity. }
  split; [exact P|].
  intros F. rewrite P. clear -F.
  induction F as [|l ls Hle _ IH]; simpl; lia.
Qed.

End Donation.

(** Thread 1 runs with base priority 31, raised to 40 through lock 10; it
    also holds lock 11 of priority 35.  Thread 2 is the idle thread. *)
Definition ex_donation : sched :=
  mkSched (fun p => if p =? 1
                    then mkThread 1 THREAD_RUNNING 40 31 [10; 11] 0 0 0
                    else a_thread 2 THREAD_BLOCKED 0)
          (fun l => if l =? 10 then 40 else 35) [] [] [1; 2] (Some 2) (Some 1)
          1 3 0 0 0 0 0 false false.

Lemma thread_set_priority_deferred_witness :
  let s := ex_donation in
  let t := running_thread s in
  let remaining := filter (fun l => negb (l =? 10)) (locks (threads s t)) in
  exists s1 s2,
    thread_set_priority 20 s = Some s1 /\
    priority (threads s1 t) = priority (threads s t) /\
    base_priority (threads s1 t) = 20 /\
    running_thread s1 = t /\ ready_list s1 = ready_list s /\
    thread_release_lock 10 s1 = Some s2 /\
    Permutation (locks (threads s2 t)) remaining /\
    ~ In 10 (locks (threads s2 t)) /\
    base_priority (threads s2 t) = 20 /\
    priority (threads s2 t) = max_key (lock_priority s) 20 remaining /\
    (Forall (fun l => lock_priority s l <= 20) remaining ->
     priority (threads s2 t) = 20).
Proof.
  apply (thread_set_priority_deferred 20 10 ex_donation).
  - reflexivity.
  - reflexivity.
  - simpl. auto.
  - simpl. auto.
  - simpl. repeat constructor; simpl; intuition discriminate.
  - simpl. intros p [<-|[<-|[]]]; simpl; intuition discriminate.
  - reflexivity.
Defined.

(** ** The dispatcher *)

Section Dispatch.

Lemma schedule_pop s h rest :
  ready_list s = h :: rest ->
  status (threads s (running_thread s)) <> THREAD_RUNNING ->
  schedule s =
    Some (thread_schedule_tail
            (if running_thread s =? h then None else Some (running_thread s))
            (with_running_thread h (with_ready_list rest s))).
Proof.
  intros Hl Hs. unfold schedule, next_thread_to_run. rewrite Hl.
  cbn [threads with_ready_list].
  destruct (status_eqb (status (threads s (running_thread s))) THREAD_RUNNING)
    eqn:E; [apply status_eqb_eq in E; contradiction|]. reflexivity.
Qed.

Lemma schedule_idle s :
  ready_list s = [] ->
  status (threads s (running_thread s)) <> THREAD_RUNNING ->
  schedule s =
    match idle_thread s with
    | Some i =>
        Some (thread_schedule_tail
                (if running_thread s =? i then None
                 else Some (running_thread s))
                (with_running_thread i s))
    | None => None
    end.
Proof.
  intros Hl Hs. unfold schedule, next_thread_to_run. rewrite Hl.
  destruct (status_eqb (status (threads s (running_thread s))) THREAD_RUNNING)
    eqn:E; [apply status_eqb_eq in E; contradiction|]. reflexivity.
Qed.

Lemma thread_yield_unfold s :
  status (threads s (running_thread s)) = THREAD_RUNNING ->
  thread_yield s =
    schedule
      (store (running_thread s) (set_status THREAD_READY)
         (if negb (ptr_is (running_thread s) (idle_thread s)) then
            with_ready_list
              (list_insert_ordered (thread_cmp_priority (threads s) true)
                 (running_thread s) (ready_list s)) s
          else s)).
Proof.
  intros Hr. unfold thread_yield, thread_current. rewrite Hr. reflexivity.
Qed.

Lemma list_insert_ordered_ext {A} (less1 less2 : A -> A -> bool) x l :
  (forall e, less1 x e = less2 x e) ->
  list_insert_ordered less1 x l = list_insert_ordered less2 x l.
Proof.
  intros H. induction l as [|e l IH]; simpl; [reflexivity|].
  rewrite H, IH. reflexivity.
Qed.

Lemma set_status_back th :
  status th = THREAD_RUNNING ->
  set_status THREAD_RUNNING (set_status THREAD_READY th) = th.
Proof. destruct th. simpl. intros ->. reflexivity. Qed.

(** A yield of a thread that outranks every ready thread gives it the CPU
    back at once: running thread, ready list and memory are as before. *)
Lemma thread_yield_outranks s :
  status (threads s (running_thread s)) = THREAD_RUNNING ->
  ptr_is (running_thread s) (idle_thread s) = false ->
  Forall (fun r => priority (threads s r)
                   < priority (threads s (running_thread s))) (ready_list s) ->
  exists s',
    thread_yield s = Some s' /\
    running_thread s' = running_thread s /\
    ready_list s' = ready_list s /\
    (forall p, threads s' p = threads s p).
Proof.
  intros Hr Hi Hf. rewrite (thread_yield_unfold s Hr), Hi. cbn [negb].
  set (t := running_thread s) in *.
  assert (Hins : list_insert_ordered (thread_cmp_priority (threads s) true) t
                   (ready_list s) = t :: ready_list s).
  { destruct (ready_list s) as [|h rest]; [reflexivity|].
    apply list_insert_ordered_front. inversion Hf; subst.
    unfold thread_cmp_priority. lia. }
  rewrite Hins.
  erewrite schedule_pop;
    [| reflexivity
     | cbn [running_thread store with_threads with_ready_list]; fold t;
       rewrite threads_store_same; cbn; discriminate].
  eexists. split; [reflexivity|].
  split; [reflexivity|]. split; [reflexivity|].
  intros p. cbn. fold t. destruct (p =? t) eqn:E; [|reflexivity].
  apply Z.eqb_eq in E. subst p. apply set_status_back, Hr.
Qed.

(** A yield of a non-idle thread behind a ready thread of at least its
    priority hands the CPU to the front of the ready list. *)
Lemma thread_yield_outranked s h rest :
  status (threads s (running_thread s)) = THREAD_RUNNING ->
  ptr_is (running_thread s) (idle_thread s) = false ->
  ready_list s = h :: rest ->
  priority (threads s (running_thread s)) <= priority (threads s h) ->
  exists s',
    thread_yield s = Some s' /\
    running_thread s' = h /\
    ready_list s' =
      list_insert_ordered (thread_cmp_priority (threads s) true)
                          (running_thread s) rest.
Proof.
  intros Hr Hi Hl Hle. rewrite (thread_yield_unfold s Hr), Hi. cbn [negb].
  set (t := running_thread s) in *. rewrite Hl.
  assert (Hins : list_insert_ordered (thread_cmp_priority (threads s) true) t
                   (h :: rest)
                 = h :: list_insert_ordered
                          (thread_cmp_priority (threads s) true) t rest).
  { simpl. unfold thread_cmp_priority at 1.
    destruct (priority (threads s t) >? priority (threads s h)) eqn:G;
      [lia | reflexivity]. }
  rewrite Hins.
  erewrite schedule_pop;
    [| reflexivity
     | cbn [running_thread store with_threads with_ready_list]; fold t;
       rewrite threads_store_same; cbn; discriminate].
  eexists. split; [reflexivity|]. split; reflexivity.
Qed.

End Dispatch.

(** ** Setting the priority to its current value *)

(** Round robin: thread 1 runs at priority 31 and holds no lock, thread 3 is
    ready at priority 31, thread 2 is the idle thread. *)
Definition ex_rr : sched :=
  mkSched (fun p => if p =? 1 then a_thread 1 THREAD_RUNNING 31
                    else if p =? 3 then a_thread 3 THREAD_READY 31
                    else a_thread 2 THREAD_BLOCKED 0)
          (fun _ => 0) [] [3] [1; 2; 3] (Some 2) (Some 1) 1 4
          0 0 0 0 0 false false.

Section SamePriority.

(** With a lock held, [thread_set_priority] with a value that is not above
    the priority writes the base priority and nothing else: no yield, and
    a base priority that the call overwrites also when it is given the
    (donated) priority the thread has. *)
Lemma thread_set_priority_with_lock p s :
  thread_mlfqs s = false ->
  status (threads s (running_thread s)) = THREAD_RUNNING ->
  locks (threads s (running_thread s)) <> [] ->
  p <= priority (threads s (running_thread s)) ->
  thread_set_priority p s
  = Some (store (running_thread s) (set_base_priority p) s).
Proof.
  intros Hm Hr Hl Hle.
  unfold thread_set_priority, thread_current. rewrite Hm, Hr.
  cbn [status_eqb]. rewrite !threads_store_same.
  cbn [locks priority set_base_priority].
  destruct (locks (threads s (running_thread s))) as [|l0 ls];
    [contradiction|].
  cbn [list_empty orb].
  destruct (p >? priority (threads s (running_thread s))) eqn:G;
    [lia | reflexivity].
Qed.

End SamePriority.

(** ** Well-formed scheduler states *)

(** What the lists of the scheduler promise between two operations. *)
Record wf_lists (s : sched) : Prop := mk_wf_lists {
  wfl_ready_nodup : NoDup (ready_list s);
  wfl_ready_status :
    forall t, In t (ready_list s) -> status (threads s t) = THREAD_READY;
  wfl_ready_live : incl (ready_list s) (all_list s);
  wfl_sleep_nodup : NoDup (sleep_list s);
  wfl_sleep_status :
    forall t, In t (sleep_list s) -> status (threads s t) = THREAD_BLOCKED;
  wfl_sleep_live : incl (sleep_list s) (all_list s);
  wfl_sleep_sorted :
    StronglySorted Z.le
      (map (fun t => ticks_sleep (threads s t)) (sleep_list s));
  wfl_idle :
    forall i, idle_thread s = Some i ->
      ~ In i (ready_list s) /\ ~ In i (sleep_list s) /\ In i (all_list s);
  wfl_all_nodup : NoDup (all_list s);
  wfl_tids :
    forall t, In t (all_list s) -> 0 < tid (threads s t) < next_tid s;
  wfl_tid_nodup : NoDup (map (fun t => tid (threads s t)) (all_list s))
}.

(** A state between two operations: the lists are well formed and the
    running thread is a live thread in state [THREAD_RUNNING]. *)
Record wf (s : sched) : Prop := mk_wf {
  wf_running : status (threads s (running_thread s)) = THREAD_RUNNING;
  wf_running_live : In (running_thread s) (all_list s);
  wf_wf_lists : wf_lists s
}.

(** Two states that the invariant cannot tell apart. *)
Definition same_view (s s' : sched) : Prop :=
  ready_list s' = ready_list s /\ sleep_list s' = sleep_list s /\
  all_list s' = all_list s /\ idle_thread s' = idle_thread s /\
  next_tid s' = next_tid s /\ running_thread s' = running_thread s /\
  forall p,
    status (threads s' p) = status (threads s p) /\
    ticks_sleep (threads s' p) = ticks_sleep (threads s p) /\
    tid (threads s' p) = tid (threads s p).

(** The calls that reach [thread.c], each with what the caller guarantees:
    the idle thread runs [idle] only, so it never sleeps, exits, creates
    threads, takes locks or changes its priority or niceness; the
    allocator hands out a page that no live thread occupies; the tid counter
    has not run out; a thread unblocked from outside (a semaphore) is a live
    thread that is neither asleep on the timer nor the idle thread; a thread
    that priority is donated to is a live thread that holds a lock, so not
    the idle thread; [idle] is entered once, by the thread that
    [thread_start] creates for it. *)
Inductive step (s : sched) : sched -> Prop :=
| step_create prio page pos id s' :
    ptr_is (running_thread s) (idle_thread s) = false ->
    (forall t, page = Some t -> ~ In t (all_list s)) ->
    next_tid s < INT_MAX ->
    thread_create prio page pos s = Some (id, s') -> step s s'
| step_block s' :
    thread_block s = Some s' -> step s s'
| step_unblock t s' :
    In t (all_list s) -> ~ In t (sleep_list s) ->
    ptr_is t (idle_thread s) = false ->
    thread_unblock t s = Some s' -> step s s'
| step_yield s' :
    thread_yield s = Some s' -> step s s'
| step_sleep tks s' :
    ptr_is (running_thread s) (idle_thread s) = false ->
    thread_sleep tks s = Some s' -> step s s'
| step_foreach_wake tks s' :
    thread_foreach_wake tks s = Some s' -> step s s'
| step_exit s' :
    ptr_is (running_thread s) (idle_thread s) = false ->
    thread_exit s = Some s' -> step s s'
| step_set_priority p s' :
    ptr_is (running_thread s) (idle_thread s) = false ->
    thread_set_priority p s = Some s' -> step s s'
| step_donate_priority t s' :
    In t (all_list s) -> ptr_is t (idle_thread s) = false ->
    thread_donate_priority t s = Some s' -> step s s'
| step_hold_lock lock s' :
    ptr_is (running_thread s) (idle_thread s) = false ->
    thread_hold_lock lock s = Some s' -> step s s'
| step_release_lock lock s' :
    thread_release_lock lock s = Some s' -> step s s'
| step_set_nice n s' :
    ptr_is (running_thread s) (idle_thread s) = false ->
    thread_set_nice n s = Some s' -> step s s'
| step_tick s' :
    thread_tick s = Some s' -> step s s'
| step_idle_enter s' :
    idle_thread s = None ->
    idle_enter s = Some s' -> step s s'.

(** Any number of calls. *)
Inductive steps (s : sched) : sched -> Prop :=
| steps_refl : steps s s
| steps_step s1 s2 : steps s s1 -> step s1 s2 -> steps s s2.

(** The states the kernel goes through after [thread_init]. *)
Inductive reachable : sched -> Prop :=
| reach_init mlfqs mem lp main pos s :
    thread_init mlfqs mem lp main pos = Some s -> reachable s
| reach_step s s' :
    reachable s -> step s s' -> reachable s'.

Section ListFacts.

Lemma list_insert_ordered_NoDup {A} less (x : A) l :
  NoDup l -> ~ In x l -> NoDup (list_insert_ordered less x l).
Proof.
  intros Hn Hx.
  apply (Permutation_NoDup (Permutation_sym (list_insert_ordered_perm less x l))).
  constructor; assumption.
Qed.

Lemma unlink_In x y l : In y (unlink x l) -> In y l.
Proof.
  induction l as [|e l IH]; simpl; [tauto|].
  destruct (e =? x); simpl; tauto.
Qed.

Lemma unlink_In_other x y l : y <> x -> In y l -> In y (unlink x l).
Proof.
  intros Hne. induction l as [|e l IH]; simpl; [tauto|].
  destruct (e =? x) eqn:E; simpl.
  - apply Z.eqb_eq in E. intros [->|H]; [contradiction|exact H].
  - tauto.
Qed.

Lemma unlink_NoDup x l : NoDup l -> NoDup (unlink x l).
Proof.
  induction 1 as [|e l Hn Hd IH]; simpl; [constructor|].
  destruct (e =? x); [exact Hd|].
  constructor; [|exact IH]. intros H. apply Hn. eapply unlink_In, H.
Qed.

Lemma unlink_not_In x l : NoDup l -> ~ In x (unlink x l).
Proof.
  induction 1 as [|e l Hn Hd IH]; simpl; [tauto|].
  destruct (e =? x) eqn:E.
  - apply Z.eqb_eq in E. subst e. exact Hn.
  - apply Z.eqb_neq in E. simpl. intros [H|H]; [congruence|tauto].
Qed.

Lemma unlink_absent x l : ~ In x l -> unlink x l = l.
Proof.
  induction l as [|e l IH]; simpl; [reflexivity|]. intros H.
  destruct (e =? x) eqn:E.
  - apply Z.eqb_eq in E. subst e. tauto.
  - rewrite IH by tauto. reflexivity.
Qed.

Lemma insert_at_perm pos t l : Permutation (insert_at pos t l) (t :: l).
Proof.
  revert l. induction pos as [|k IH]; intros [|e l]; simpl;
    try reflexivity.
  rewrite IH. apply perm_swap.
Qed.

(** Ordered insertion by an ascending key keeps the keys sorted. *)
Lemma list_insert_ordered_sorted {A} (key : A -> Z) x l :
  StronglySorted Z.le (map key l) ->
  StronglySorted Z.le (map key (list_insert_ordered (asc key) x l)).
Proof.
  induction l as [|e l IH]; simpl; intros Hs.
  - constructor; constructor.
  - inversion Hs as [|k ks Hs' Hall]; subst.
    unfold asc at 1. destruct (key x <? key e) eqn:E.
    + simpl. constructor; [exact Hs|].
      constructor; [lia|].
      eapply Forall_impl; [|exact Hall]. intros k Hk. cbv beta in Hk. lia.
    + simpl. constructor; [apply IH, Hs'|].
      apply Forall_forall. intros k Hk. apply in_map_iff in Hk.
      destruct Hk as (y & <- & Hy). apply list_insert_ordered_In in Hy.
      destruct Hy as [->|Hy]; [lia|].
      rewrite Forall_forall in Hall. apply Hall, in_map, Hy.
Qed.

End ListFacts.

Section WellFormed.

Lemma same_view_refl s : same_view s s.
Proof. repeat split; reflexivity. Qed.

Lemma same_view_trans s1 s2 s3 :
  same_view s1 s2 -> same_view s2 s3 -> same_view s1 s3.
Proof.
  intros (A1 & B1 & C1 & D1 & E1 & F1 & G1) (A2 & B2 & C2 & D2 & E2 & F2 & G2).
  repeat split; try congruence;
    destruct (G1 p) as (X & Y & Z0); destruct (G2 p) as (X' & Y' & Z');
    congruence.
Qed.

Lemma wf_lists_same_view s s' : same_view s s' -> wf_lists s -> wf_lists s'.
Proof.
  intros (A & B & C & D & E & F & G) [].
  assert (Gs : forall p, status (threads s' p) = status (threads s p))
    by (intros p; apply G).
  assert (Gk : forall p, ticks_sleep (threads s' p) = ticks_sleep (threads s p))
    by (intros p; apply G).
  assert (Gt : forall p, tid (threads s' p) = tid (threads s p))
    by (intros p; apply G).
  constructor; rewrite ?A, ?B, ?C, ?D, ?E; try assumption.
  - intros t Ht. rewrite Gs. auto.
  - intros t Ht. rewrite Gs. auto.
  - erewrite map_ext; [eassumption|]. intros a. apply Gk.
  - intros t Ht. rewrite Gt. auto.
  - erewrite map_ext; [eassumption|]. intros a. apply Gt.
Qed.

Lemma wf_same_view s s' : same_view s s' -> wf s -> wf s'.
Proof.
  intros V [R L W]. pose proof V as (A & B & C & D & E & F & G).
  constructor.
  - rewrite F. destruct (G (running_thread s)) as (-> & _). exact R.
  - rewrite F, C. exact L.
  - eapply wf_lists_same_view; eassumption.
Qed.

(** Storing into members that the invariant does not read. *)
Lemma same_view_store t f s :
  (forall th, status (f th) = status th /\
              ticks_sleep (f th) = ticks_sleep th /\ tid (f th) = tid th) ->
  same_view s (store t f s).
Proof.
  intros H. repeat split; try reflexivity; cbn;
    destruct (p =? t); try reflexivity; apply H.
Qed.

End WellFormed.

Section WellFormedLists.

Lemma wf_lists_store_status t st s :
  wf_lists s ->
  (In t (ready_list s) -> st = THREAD_READY) ->
  (In t (sleep_list s) -> st = THREAD_BLOCKED) ->
  wf_lists (store t (set_status st) s).
Proof.
  intros [] Hr Hs. constructor; cbn; try assumption.
  - intros u Hu. destruct (u =? t) eqn:E; [|auto].
    apply Z.eqb_eq in E. subst u. cbn. auto.
  - intros u Hu. destruct (u =? t) eqn:E; [|auto].
    apply Z.eqb_eq in E. subst u. cbn. auto.
  - erewrite map_ext; [eassumption|]. intros a. cbv beta.
    destruct (a =? t); reflexivity.
  - intros u Hu. destruct (u =? t); cbn; auto.
  - erewrite map_ext; [eassumption|]. intros a. cbv beta.
    destruct (a =? t); reflexivity.
Qed.

Lemma wf_lists_store_ticks_sleep t k s :
  wf_lists s -> ~ In t (sleep_list s) ->
  wf_lists (store t (set_ticks_sleep k) s).
Proof.
  intros [] Hs. constructor; cbn; try assumption.
  - intros u Hu. destruct (u =? t); cbn; auto.
  - intros u Hu. destruct (u =? t); cbn; auto.
  - erewrite map_ext_in; [eassumption|]. intros a Ha. cbv beta.
    destruct (a =? t) eqn:E; [|reflexivity].
    apply Z.eqb_eq in E. subst a. contradiction.
  - intros u Hu. destruct (u =? t); cbn; auto.
  - erewrite map_ext; [eassumption|]. intros a. cbv beta.
    destruct (a =? t); reflexivity.
Qed.

Lemma wf_lists_ready_insert less t s :
  wf_lists s ->
  ~ In t (ready_list s) -> status (threads s t) = THREAD_READY ->
  In t (all_list s) -> ptr_is t (idle_thread s) = false ->
  wf_lists (with_ready_list (list_insert_ordered less t (ready_list s)) s).
Proof.
  intros [] Hn Hs Ha Hi. constructor; cbn; try assumption.
  - apply list_insert_ordered_NoDup; assumption.
  - intros u Hu. apply list_insert_ordered_In in Hu.
    destruct Hu as [->|Hu]; auto.
  - intros u Hu. apply list_insert_ordered_In in Hu.
    destruct Hu as [->|Hu]; auto.
  - intros i Ei. destruct (wfl_idle0 i Ei) as (A & B & C).
    split; [|split; assumption].
    intros Hu. apply list_insert_ordered_In in Hu.
    destruct Hu as [->|Hu]; [|contradiction].
    rewrite Ei in Hi. cbn in Hi. rewrite Z.eqb_refl in Hi. discriminate.
Qed.

Lemma wf_lists_ready_tail h rest s :
  wf_lists s -> ready_list s = h :: rest -> wf_lists (with_ready_list rest s).
Proof.
  intros [] E. rewrite E in *. constructor; cbn; try assumption.
  - inversion wfl_ready_nodup0; assumption.
  - intros u Hu. apply wfl_ready_status0. right. exact Hu.
  - intros u Hu. apply wfl_ready_live0. right. exact Hu.
  - intros i Ei. destruct (wfl_idle0 i Ei) as (A & B & C).
    split; [|split; assumption]. intros Hu. apply A. right. exact Hu.
Qed.

Lemma wf_lists_sleep_insert t s :
  wf_lists s ->
  ~ In t (sleep_list s) -> status (threads s t) = THREAD_BLOCKED ->
  In t (all_list s) -> ptr_is t (idle_thread s) = false ->
  wf_lists
    (with_sleep_list
       (list_insert_ordered (thread_cmp_ticks_sleep (threads s) false) t
                            (sleep_list s)) s).
Proof.
  intros [] Hn Hs Ha Hi. constructor; cbn; try assumption.
  - apply list_insert_ordered_NoDup; assumption.
  - intros u Hu. apply list_insert_ordered_In in Hu.
    destruct Hu as [->|Hu]; auto.
  - intros u Hu. apply list_insert_ordered_In in Hu.
    destruct Hu as [->|Hu]; auto.
  - apply (list_insert_ordered_sorted (fun p => ticks_sleep (threads s p))).
    assumption.
  - intros i Ei. destruct (wfl_idle0 i Ei) as (A & B & C).
    split; [assumption|]. split; [|assumption].
    intros Hu. apply list_insert_ordered_In in Hu.
    destruct Hu as [->|Hu]; [|contradiction].
    rewrite Ei in Hi. cbn in Hi. rewrite Z.eqb_refl in Hi. discriminate.
Qed.

Lemma wf_lists_sleep_tail e rest s :
  wf_lists s -> sleep_list s = e :: rest -> wf_lists (with_sleep_list rest s).
Proof.
  intros [] E. rewrite E in *. constructor; cbn; try assumption.
  - inversion wfl_sleep_nodup0; assumption.
  - intros u Hu. apply wfl_sleep_status0. right. exact Hu.
  - intros u Hu. apply wfl_sleep_live0. right. exact Hu.
  - inversion wfl_sleep_sorted0; assumption.
  - intros i Ei. destruct (wfl_idle0 i Ei) as (A & B & C).
    split; [assumption|]. split; [|assumption].
    intros Hu. apply B. right. exact Hu.
Qed.

(** The lists do not mention which thread runs. *)
Lemma wf_lists_running n s : wf_lists s -> wf_lists (with_running_thread n s).
Proof. intros []. constructor; assumption. Qed.

Lemma wf_lists_thread_ticks n s : wf_lists s -> wf_lists (with_thread_ticks n s).
Proof. intros []. constructor; assumption. Qed.

(** [schedule] leaves a well-formed state behind when it starts from
    well-formed lists. *)
Lemma wf_schedule s s' :
  wf_lists s -> schedule s = Some s' -> wf s'.
Proof.
  intros W. unfold schedule, next_thread_to_run.
  destruct (ready_list s) as [|h rest] eqn:El.
  - destruct (negb (status_eqb (status (threads s (running_thread s)))
                               THREAD_RUNNING)); [|discriminate].
    destruct (idle_thread s) as [i|] eqn:Ei; [|discriminate].
    intros [= <-]. destruct (wfl_idle s W i Ei) as (A & B & C).
    unfold thread_schedule_tail.
    change (running_thread (with_running_thread i s)) with i.
    constructor.
    + cbn. rewrite Z.eqb_refl. reflexivity.
    + exact C.
    + apply wf_lists_thread_ticks, wf_lists_store_status;
        [apply wf_lists_running, W | intros H; contradiction
        | intros H; contradiction].
  - cbn [threads with_ready_list].
    destruct (negb (status_eqb (status (threads s (running_thread s)))
                               THREAD_RUNNING)); [|discriminate].
    intros [= <-]. unfold thread_schedule_tail.
    change (running_thread (with_running_thread h (with_ready_list rest s)))
      with h.
    assert (Hh : In h (ready_list s)) by (rewrite El; left; reflexivity).
    constructor.
    + cbn. rewrite Z.eqb_refl. reflexivity.
    + apply (wfl_ready_live s W), Hh.
    + apply wf_lists_thread_ticks, wf_lists_store_status.
      * apply wf_lists_running. eapply wf_lists_ready_tail; eassumption.
      * cbn. intros H. pose proof (wfl_ready_nodup s W) as N.
        rewrite El in N. inversion N. contradiction.
      * cbn. intros H. pose proof (wfl_sleep_status s W h H) as S1.
        pose proof (wfl_ready_status s W h Hh) as S2. congruence.
Qed.

End WellFormedLists.

Section Preservation.

Lemma running_not_ready s : wf s -> ~ In (running_thread s) (ready_list s).
Proof.
  intros [R _ W] H. pose proof (wfl_ready_status s W _ H). congruence.
Qed.

Lemma running_not_asleep s : wf s -> ~ In (running_thread s) (sleep_list s).
Proof.
  intros [R _ W] H. pose proof (wfl_sleep_status s W _ H). congruence.
Qed.

Lemma idle_not_asleep s t :
  wf_lists s -> In t (sleep_list s) -> ptr_is t (idle_thread s) = false.
Proof.
  intros W H. destruct (idle_thread s) as [i|] eqn:Ei; [|reflexivity].
  cbn. apply Z.eqb_neq. intros ->.
  destruct (wfl_idle s W i Ei) as (_ & B & _). contradiction.
Qed.

Lemma thread_current_wf s : wf s -> thread_current s = Some (running_thread s).
Proof. intros [R _ _]. unfold thread_current. rewrite R. reflexivity. Qed.

Lemma wf_thread_yield s s' : wf s -> thread_yield s = Some s' -> wf s'.
Proof.
  intros W. pose proof W as [R L WL].
  rewrite (thread_yield_unfold s R). apply wf_schedule.
  destruct (ptr_is (running_thread s) (idle_thread s)) eqn:Ei; cbn [negb].
  - apply wf_lists_store_status; [exact WL| |].
    + intros H. exfalso. eapply running_not_ready; eassumption.
    + intros H. exfalso. eapply running_not_asleep; eassumption.
  - match goal with
    | |- wf_lists (store ?t ?f (with_ready_list (list_insert_ordered ?less ?t ?l) ?s0)) =>
        change (wf_lists (with_ready_list
                  (list_insert_ordered less t (ready_list (store t f s0)))
                  (store t f s0)))
    end.
    apply wf_lists_ready_insert.
    + apply wf_lists_store_status; [exact WL| |].
      * intros H. exfalso. eapply running_not_ready; eassumption.
      * intros H. exfalso. eapply running_not_asleep; eassumption.
    + exact (running_not_ready s W).
    + rewrite threads_store_same. reflexivity.
    + exact L.
    + exact Ei.
Qed.

Lemma wf_thread_block s s' : wf s -> thread_block s = Some s' -> wf s'.
Proof.
  intros W. pose proof W as [R L WL]. unfold thread_block.
  rewrite (thread_current_wf s W). apply wf_schedule.
  apply wf_lists_store_status; [exact WL| |].
  - intros H. exfalso. eapply running_not_ready; eassumption.
  - reflexivity.
Qed.

Lemma wf_thread_unblock t s s' :
  wf s -> In t (all_list s) -> ~ In t (sleep_list s) ->
  ptr_is t (idle_thread s) = false ->
  thread_unblock t s = Some s' -> wf s'.
Proof.
  intros W. pose proof W as [R L WL]. intros Ha Hs Hi. unfold thread_unblock.
  destruct (status_eqb (status (threads s t)) THREAD_BLOCKED) eqn:Eb;
    [|discriminate].
  apply status_eqb_eq in Eb. intros [= <-].
  assert (Hne : running_thread s <> t) by (intros <-; congruence).
  assert (Hr : ~ In t (ready_list s)).
  { intros H. pose proof (wfl_ready_status s WL _ H). congruence. }
  constructor.
  - cbn. apply Z.eqb_neq in Hne. rewrite Hne. exact R.
  - exact L.
  - match goal with
    | |- wf_lists (store ?t ?f (with_ready_list (list_insert_ordered ?less ?t ?l) ?s0)) =>
        change (wf_lists (with_ready_list
                  (list_insert_ordered less t (ready_list (store t f s0)))
                  (store t f s0)))
    end.
    apply wf_lists_ready_insert; try assumption.
    + apply wf_lists_store_status; [exact WL| |]; intros H; contradiction.
    + rewrite threads_store_same. reflexivity.
Qed.

Lemma thread_sleep_unfold tks s :
  status (threads s (running_thread s)) = THREAD_RUNNING ->
  let t := running_thread s in
  let s1 := store t (set_ticks_sleep tks) s in
  thread_sleep tks s =
    schedule
      (store t (set_status THREAD_BLOCKED)
         (with_sleep_list
            (list_insert_ordered (thread_cmp_ticks_sleep (threads s1) false)
                                 t (sleep_list s)) s1)).
Proof.
  intros R. unfold thread_sleep, thread_block, thread_current.
  rewrite R. cbn. rewrite Z.eqb_refl. cbn. rewrite R. reflexivity.
Qed.

Lemma wf_thread_sleep tks s s' :
  wf s -> ptr_is (running_thread s) (idle_thread s) = false ->
  thread_sleep tks s = Some s' -> wf s'.
Proof.
  intros W Hi. pose proof W as [R L WL].
  rewrite (thread_sleep_unfold tks s R). cbv zeta. apply wf_schedule.
  set (t := running_thread s) in *.
  set (s1 := store t (set_ticks_sleep tks) s).
  match goal with
  | |- wf_lists (store t ?f (with_sleep_list ?l ?s0)) =>
      change (wf_lists (with_sleep_list l (store t f s1)))
  end.
  assert (W1 : wf_lists (store t (set_status THREAD_BLOCKED) s1)).
  { apply wf_lists_store_status.
    - apply wf_lists_store_ticks_sleep; [exact WL|].
      exact (running_not_asleep s W).
    - intros H. exfalso. eapply (running_not_ready s); eassumption.
    - reflexivity. }
  erewrite list_insert_ordered_ext.
  - apply (wf_lists_sleep_insert t _ W1).
    + exact (running_not_asleep s W).
    + rewrite threads_store_same. reflexivity.
    + exact L.
    + exact Hi.
  - intros e. unfold thread_cmp_ticks_sleep. cbn.
    rewrite Z.eqb_refl. destruct (e =? t); reflexivity.
Qed.

Lemma wf_wake_loop tks l : forall s s',
  wf s -> sleep_list s = l -> wake_loop tks l s = Some s' -> wf s'.
Proof.
  induction l as [|e l IH]; intros s s' W El; simpl.
  - intros [= <-]. exact W.
  - destruct (ticks_sleep (threads s e) <=? tks); [|intros [= <-]; exact W].
    pose proof W as [R L WL].
    assert (He : In e (sleep_list s)) by (rewrite El; left; reflexivity).
    assert (Hne : running_thread s <> e).
    { intros <-. eapply running_not_asleep; eassumption. }
    assert (Hn : ~ In e l).
    { pose proof (wfl_sleep_nodup s WL) as N. rewrite El in N.
      inversion N. assumption. }
    set (s1 := store e (set_ticks_sleep 0) (with_sleep_list l s)).
    assert (W1 : wf s1).
    { constructor.
      - cbn. apply Z.eqb_neq in Hne. rewrite Hne. exact R.
      - exact L.
      - apply wf_lists_store_ticks_sleep; [|exact Hn].
        eapply wf_lists_sleep_tail; eassumption. }
    destruct (thread_unblock e s1) as [s2|] eqn:E2; [|discriminate].
    intros H. eapply (IH s2); [| |exact H].
    + eapply (wf_thread_unblock e s1); [exact W1| | | |exact E2].
      * apply (wfl_sleep_live s WL), He.
      * exact Hn.
      * apply (idle_not_asleep s e WL He).
    + unfold thread_unblock in E2.
      destruct (status_eqb (status (threads s1 e)) THREAD_BLOCKED);
        [|discriminate].
      injection E2 as <-. reflexivity.
Qed.

Lemma wf_thread_foreach_wake tks s s' :
  wf s -> thread_foreach_wake tks s = Some s' -> wf s'.
Proof. intros W. apply wf_wake_loop; [exact W | reflexivity]. Qed.

End Preservation.

(** [view_tac] settles [same_view] between a state and one that differs
    from it by assignments to members the invariant does not read. *)
Ltac view_tac :=
  repeat split; try reflexivity; cbn;
  repeat match goal with
         | |- context [?p =? ?t] => destruct (p =? t)
         end;
  reflexivity.

Section PreservationViews.

Lemma thread_update_priority_view t s :
  same_view s (thread_update_priority t s).
Proof.
  unfold thread_update_priority. rewrite threads_store_same.
  cbn [locks set_priority].
  destruct (locks (threads s t)) as [|l0 ls]; [view_tac|].
  destruct (list_sort _ (l0 :: ls)) as [|l rest]; [view_tac|].
  match goal with |- context [if ?c then _ else _] => destruct c end;
    view_tac.
Qed.

Lemma thread_mlfqs_update_priority_view t s s' :
  thread_mlfqs_update_priority t s = Some s' -> same_view s s'.
Proof.
  unfold thread_mlfqs_update_priority.
  destruct (thread_mlfqs s); [|discriminate].
  destruct (negb (ptr_is t (idle_thread s))); [|discriminate].
  rewrite FP_DIVI_4. intros [= <-]. view_tac.
Qed.

Lemma update_recent_cpu_loop_view l : forall s s',
  update_recent_cpu_loop l s = Some s' -> same_view s s'.
Proof.
  induction l as [|t l IH]; intros s s'; simpl.
  - intros [= <-]. apply same_view_refl.
  - destruct (negb (ptr_is t (idle_thread s))); [|apply IH].
    destruct (FP_DIV _ _) as [d|]; [|discriminate].
    match goal with
    | |- match thread_mlfqs_update_priority t ?s1 with _ => _ end = _ -> _ =>
        destruct (thread_mlfqs_update_priority t s1) as [s2|] eqn:E;
        [|discriminate];
        intros H; apply IH in H;
        apply thread_mlfqs_update_priority_view in E;
        refine (same_view_trans s s1 s' _ (same_view_trans s1 s2 s' E H))
    end.
    view_tac.
Qed.

Lemma thread_mlfqs_update_recent_cpu_view s s' :
  thread_mlfqs_update_recent_cpu s = Some s' -> same_view s s'.
Proof.
  unfold thread_mlfqs_update_recent_cpu, thread_mlfqs_update_load_avg.
  destruct (thread_mlfqs s); [|discriminate].
  destruct (thread_current s); [|discriminate].
  destruct (FP_DIVI _ _) as [a|]; [|discriminate].
  destruct (FP_IDIVI _ _) as [b|]; [|discriminate].
  intros H. apply update_recent_cpu_loop_view in H.
  eapply same_view_trans; [|exact H]. view_tac.
Qed.

Lemma thread_mlfqs_increment_recent_cpu_view s s' :
  thread_mlfqs_increment_recent_cpu s = Some s' -> same_view s s'.
Proof.
  unfold thread_mlfqs_increment_recent_cpu.
  destruct (thread_mlfqs s); [|discriminate].
  destruct (thread_current s) as [cur|]; [|discriminate].
  destruct (ptr_is cur (idle_thread s)); intros [= <-];
    [apply same_view_refl | view_tac].
Qed.

Lemma thread_tick_view s s' : thread_tick s = Some s' -> same_view s s'.
Proof.
  unfold thread_tick.
  destruct (thread_current s) as [cur|]; [|discriminate]. cbv zeta.
  set (s1 := if ptr_is cur (idle_thread s) then _ else _).
  assert (V1 : same_view s s1).
  { subst s1. destruct (ptr_is cur (idle_thread s)); view_tac. }
  destruct (thread_mlfqs s1).
  - destruct (thread_mlfqs_increment_recent_cpu s1) as [s2|] eqn:E2;
      [|discriminate].
    apply thread_mlfqs_increment_recent_cpu_view in E2.
    assert (V2 : same_view s s2) by (eapply same_view_trans; eassumption).
    destruct (Z.rem (ticks s2) TIMER_FREQ =? 0).
    + destruct (thread_mlfqs_update_recent_cpu s2) as [s3|] eqn:E3;
        [|discriminate].
      apply thread_mlfqs_update_recent_cpu_view in E3.
      assert (V3 : same_view s s3) by (eapply same_view_trans; eassumption).
      destruct (uint32 (thread_ticks s3 + 1) >=? TIME_SLICE);
        intros [= <-]; (eapply same_view_trans; [exact V3|]); view_tac.
    + destruct ((Z.rem (ticks s2) 4 =? 0)
                && negb (ptr_is cur (idle_thread s2))).
      * destruct (thread_mlfqs_update_priority cur s2) as [s3|] eqn:E3;
          [|discriminate].
        apply thread_mlfqs_update_priority_view in E3.
        assert (V3 : same_view s s3) by (eapply same_view_trans; eassumption).
        destruct (uint32 (thread_ticks s3 + 1) >=? TIME_SLICE);
          intros [= <-]; (eapply same_view_trans; [exact V3|]); view_tac.
      * destruct (uint32 (thread_ticks s2 + 1) >=? TIME_SLICE);
          intros [= <-]; (eapply same_view_trans; [exact V2|]); view_tac.
  - destruct (uint32 (thread_ticks s1 + 1) >=? TIME_SLICE);
      intros [= <-]; (eapply same_view_trans; [exact V1|]); view_tac.
Qed.

Lemma thread_release_lock_view lock s s' :
  thread_release_lock lock s = Some s' -> same_view s s'.
Proof.
  unfold thread_release_lock.
  destruct (lock_holder lock s) as [h|]; [|discriminate].
  destruct (list_remove lock (locks (threads s h))) as [l|]; [|discriminate].
  match goal with
  | |- match thread_current ?s1 with _ => _ end = _ -> _ =>
      destruct (thread_current s1) as [cur|]; [|discriminate];
      intros [= <-];
      refine (same_view_trans s s1 _ _ (thread_update_priority_view cur s1))
  end.
  view_tac.
Qed.

End PreservationViews.

Section PreservationOps.

Lemma wf_thread_set_priority p s s' :
  wf s -> thread_set_priority p s = Some s' -> wf s'.
Proof.
  intros W. unfold thread_set_priority.
  destruct (thread_mlfqs s); [intros [= <-]; exact W|].
  rewrite (thread_current_wf s W).
  match goal with |- (if ?c then _ else _) = _ -> _ => destruct c end.
  - apply wf_thread_yield. eapply wf_same_view; [|exact W]. view_tac.
  - intros [= <-]. eapply wf_same_view; [|exact W]. view_tac.
Qed.

Lemma wf_thread_hold_lock lock s s' :
  wf s -> thread_hold_lock lock s = Some s' -> wf s'.
Proof.
  intros W. unfold thread_hold_lock.
  rewrite (thread_current_wf s W). cbv zeta.
  match goal with |- (if ?c then _ else _) = _ -> _ => destruct c end.
  - apply wf_thread_yield. eapply wf_same_view; [|exact W]. view_tac.
  - intros [= <-]. eapply wf_same_view; [|exact W]. view_tac.
Qed.

Lemma wf_thread_set_nice n s s' :
  wf s -> thread_set_nice n s = Some s' -> wf s'.
Proof.
  intros W. unfold thread_set_nice.
  rewrite (thread_current_wf s W). cbv zeta.
  match goal with
  | |- match thread_mlfqs_update_priority ?t ?s1 with _ => _ end = _ -> _ =>
      destruct (thread_mlfqs_update_priority t s1) as [s2|] eqn:E;
      [|discriminate];
      apply thread_mlfqs_update_priority_view in E;
      assert (W2 : wf s2)
        by (eapply wf_same_view; [exact E|];
            eapply wf_same_view; [|exact W]; view_tac)
  end.
  match goal with |- (if ?c then _ else _) = _ -> _ => destruct c end.
  - apply wf_thread_yield, W2.
  - intros [= <-]. exact W2.
Qed.

Lemma wf_lists_ready_remove t s :
  wf_lists s -> wf_lists (with_ready_list (unlink t (ready_list s)) s).
Proof.
  intros []. constructor; cbn; try assumption.
  - apply unlink_NoDup. assumption.
  - intros u Hu. apply unlink_In in Hu. auto.
  - intros u Hu. apply unlink_In in Hu. auto.
  - intros i Ei. destruct (wfl_idle0 i Ei) as (A & B & C).
    split; [|split; assumption]. intros Hu. apply unlink_In in Hu.
    contradiction.
Qed.

Lemma wf_thread_donate_priority t s s' :
  wf s -> In t (all_list s) -> ptr_is t (idle_thread s) = false ->
  thread_donate_priority t s = Some s' -> wf s'.
Proof.
  intros W Ha Hi. unfold thread_donate_priority.
  pose proof (thread_update_priority_view t s) as V.
  set (s1 := thread_update_priority t s) in *.
  pose proof (wf_same_view s s1 V W) as W1.
  destruct V as (Vr & Vs & Va & Vi & Vn & Vc & Vp).
  destruct (status_eqb (status (threads s1 t)) THREAD_READY) eqn:Es;
    cbn [andb]; [|intros [= <-]; exact W1].
  destruct (negb (priority (threads s1 t) =? priority (threads s t)));
    [|intros [= <-]; exact W1].
  destruct (list_remove t (ready_list s1)) as [l|] eqn:El; [|discriminate].
  apply list_remove_inv in El. destruct El as [_ ->]. intros [= <-].
  apply status_eqb_eq in Es. destruct W1 as [R1 L1 WL1].
  constructor; [exact R1 | exact L1 |].
  pose proof (wf_lists_ready_remove t s1 WL1) as W2.
  apply (wf_lists_ready_insert
           (thread_cmp_priority (threads s1) true) t _ W2).
  - cbn. apply unlink_not_In, (wfl_ready_nodup s1 WL1).
  - exact Es.
  - cbn. rewrite Va. exact Ha.
  - cbn. rewrite Vi. exact Hi.
Qed.

Lemma wf_idle_enter s s' : wf s -> idle_enter s = Some s' -> wf s'.
Proof.
  intros W. unfold idle_enter. rewrite (thread_current_wf s W).
  intros [= <-]. pose proof W as [R L WL]. constructor; [exact R|exact L|].
  destruct WL. constructor; cbn; try assumption.
  intros i [= <-]. split; [exact (running_not_ready s W)|].
  split; [exact (running_not_asleep s W)|exact L].
Qed.

Lemma unlink_map_NoDup (f : ptr -> Z) x l :
  NoDup (map f l) -> NoDup (map f (unlink x l)).
Proof.
  induction l as [|e l IH]; simpl; intros H; [constructor|].
  inversion H as [|k ks Hn Hd]; subst.
  destruct (e =? x); [exact Hd|]. simpl. constructor; [|apply IH, Hd].
  intros Hin. apply Hn. apply in_map_iff in Hin.
  destruct Hin as (y & Ey & Hy). apply in_map_iff. exists y.
  split; [exact Ey|]. eapply unlink_In, Hy.
Qed.

(** [thread_exit] between two operations: the running thread is live, so
    its element is in [all_list]. *)
Lemma thread_exit_unfold s :
  wf s ->
  thread_exit s =
    schedule
      (store (running_thread s) (set_status THREAD_DYING)
         (with_all_list (unlink (running_thread s) (all_list s)) s)).
Proof.
  intros W. unfold thread_exit.
  rewrite (thread_current_wf s W),
    (list_remove_Some _ _ (wf_running_live s W)).
  reflexivity.
Qed.

Lemma wf_thread_exit s s' :
  wf s -> ptr_is (running_thread s) (idle_thread s) = false ->
  thread_exit s = Some s' -> wf s'.
Proof.
  intros W Hi. rewrite (thread_exit_unfold s W).
  apply wf_schedule. pose proof W as [R L WL].
  set (t := running_thread s) in *.
  apply wf_lists_store_status.
  - destruct WL. constructor; cbn; try assumption.
    + intros u Hu. apply unlink_In_other; [|auto].
      intros ->. exact (running_not_ready s W Hu).
    + intros u Hu. apply unlink_In_other; [|auto].
      intros ->. exact (running_not_asleep s W Hu).
    + intros i Ei. destruct (wfl_idle0 i Ei) as (A & B & C).
      split; [assumption|]. split; [assumption|].
      apply unlink_In_other; [|assumption].
      intros ->. rewrite Ei in Hi. cbn in Hi. rewrite Z.eqb_refl in Hi.
      discriminate.
    + apply unlink_NoDup. assumption.
    + intros u Hu. apply unlink_In in Hu. auto.
    + apply unlink_map_NoDup. assumption.
  - intros H. exfalso. exact (running_not_ready s W H).
  - intros H. exfalso. exact (running_not_asleep s W H).
Qed.

End PreservationOps.

Section PreservationCreate.

(** The record that [init_thread] writes. *)
Definition fresh_thread (prio : Z) : thread :=
  set_base_priority prio
    (set_priority prio (set_status THREAD_BLOCKED zero_thread)).

(** The state of [thread_create] when the new thread has its tid. *)
Definition spawned (t : ptr) (prio : Z) (pos : nat) (s : sched) : sched :=
  store t (set_tid (next_tid s))
    (with_next_tid (int32 (next_tid s + 1))
       (with_all_list (insert_at pos t (all_list s))
          (store t (fun _ => fresh_thread prio) s))).

Lemma spawned_other t prio pos s u :
  u <> t -> threads (spawned t prio pos s) u = threads s u.
Proof.
  intros H. apply Z.eqb_neq in H. cbn. rewrite H. reflexivity.
Qed.

Lemma spawned_same t prio pos s :
  threads (spawned t prio pos s) t = set_tid (next_tid s) (fresh_thread prio).
Proof. cbn. rewrite Z.eqb_refl. reflexivity. Qed.

Lemma next_tid_pos s : wf s -> 1 < next_tid s.
Proof.
  intros [R L WL]. pose proof (wfl_tids s WL _ L). lia.
Qed.

Lemma wf_spawned t prio pos s :
  wf s -> ~ In t (all_list s) -> next_tid s < INT_MAX ->
  wf (spawned t prio pos s).
Proof.
  intros W Hf Hn. pose proof W as [R L WL].
  pose proof (next_tid_pos s W) as Hp.
  assert (Hnext : next_tid (spawned t prio pos s) = next_tid s + 1).
  { cbn. apply int32_small, in_int32_bounds.
    unfold INT_MAX in Hn. change (2 ^ 31) with 2147483648 in Hn. lia. }
  assert (Hall : forall u, In u (all_list (spawned t prio pos s))
                           <-> u = t \/ In u (all_list s)).
  { intros u. cbn. split; intros H.
    - apply (Permutation_in _ (insert_at_perm pos t (all_list s))) in H.
      destruct H; auto.
    - apply (Permutation_in _ (Permutation_sym (insert_at_perm pos t _))).
      destruct H; [left|right]; auto. }
  assert (Hne : forall u, In u (all_list s) -> u <> t)
    by (intros u Hu ->; contradiction).
  constructor.
  - change (running_thread (spawned t prio pos s)) with (running_thread s).
    rewrite spawned_other by auto. exact R.
  - apply Hall. right. exact L.
  - destruct WL. constructor;
      change (ready_list (spawned t prio pos s)) with (ready_list s);
      change (sleep_list (spawned t prio pos s)) with (sleep_list s);
      change (idle_thread (spawned t prio pos s)) with (idle_thread s);
      try assumption.
    + intros u Hu. rewrite spawned_other by auto. auto.
    + intros u Hu. apply Hall. right. auto.
    + intros u Hu. rewrite spawned_other by auto. auto.
    + intros u Hu. apply Hall. right. auto.
    + erewrite map_ext_in; [eassumption|]. intros u Hu. cbv beta.
      rewrite spawned_other by auto. reflexivity.
    + intros i Ei. destruct (wfl_idle0 i Ei) as (A & B & C).
      split; [assumption|]. split; [assumption|]. apply Hall. right. exact C.
    + cbn. apply (Permutation_NoDup (Permutation_sym (insert_at_perm pos t _))).
      constructor; assumption.
    + intros u Hu. rewrite Hnext. apply Hall in Hu. destruct Hu as [->|Hu].
      * rewrite spawned_same. cbn. lia.
      * rewrite spawned_other by auto. pose proof (wfl_tids0 u Hu). lia.
    + change (all_list (spawned t prio pos s))
        with (insert_at pos t (all_list s)).
      eapply Permutation_NoDup.
      * apply Permutation_sym, Permutation_map, insert_at_perm.
      * cbn [map]. constructor.
        -- intros Hin. apply in_map_iff in Hin. destruct Hin as (u & Eu & Hu).
           pose proof (wfl_tids0 u Hu) as Hb.
           rewrite (spawned_other t prio pos s u (Hne u Hu)) in Eu.
           rewrite spawned_same in Eu. cbn in Eu. lia.
        -- erewrite map_ext_in; [eassumption|]. intros u Hu. cbv beta.
           rewrite (spawned_other t prio pos s u (Hne u Hu)). reflexivity.
Qed.

Lemma thread_create_unfold prio t pos s :
  thread_create prio (Some t) pos s =
    (ASSERT ((PRI_MIN <=? prio) && (prio <=? PRI_MAX)) ;;
     s4 <- thread_unblock t (spawned t prio pos s) ;;
     cur <- thread_current s4 ;;
     if prio >? priority (threads s4 cur) then
       s5 <- thread_yield s4 ;; Some (next_tid s, s5)
     else Some (next_tid s, s4)).
Proof.
  unfold thread_create, init_thread.
  destruct ((PRI_MIN <=? prio) && (prio <=? PRI_MAX)); reflexivity.
Qed.

Lemma wf_thread_create prio page pos s id s' :
  wf s -> (forall t, page = Some t -> ~ In t (all_list s)) ->
  next_tid s < INT_MAX ->
  thread_create prio page pos s = Some (id, s') -> wf s'.
Proof.
  intros W Hf Hn. destruct page as [t|]; [|intros [= _ <-]; exact W].
  rewrite thread_create_unfold.
  destruct ((PRI_MIN <=? prio) && (prio <=? PRI_MAX)); [|discriminate].
  specialize (Hf t eq_refl).
  pose proof (wf_spawned t prio pos s W Hf Hn) as W3.
  destruct (thread_unblock t (spawned t prio pos s)) as [s4|] eqn:E4;
    [|discriminate].
  assert (W4 : wf s4).
  { pose proof W as [R L WL].
    eapply (wf_thread_unblock t _ s4 W3); [| | |exact E4].
    - cbn. apply (Permutation_in _ (Permutation_sym (insert_at_perm pos t _))).
      left. reflexivity.
    - cbn. intros H. apply Hf, (wfl_sleep_live s WL), H.
    - cbn. destruct (idle_thread s) as [i|] eqn:Ei; [|reflexivity].
      cbn. apply Z.eqb_neq. intros ->.
      destruct (wfl_idle s WL i Ei) as (_ & _ & C). contradiction. }
  rewrite (thread_current_wf s4 W4).
  destruct (prio >? priority (threads s4 (running_thread s4))).
  - destruct (thread_yield s4) as [s5|] eqn:E5; [|discriminate].
    intros [= _ <-]. eapply wf_thread_yield; eassumption.
  - intros [= _ <-]. exact W4.
Qed.

Lemma wf_thread_init mlfqs mem lp main pos s :
  thread_init mlfqs mem lp main pos = Some s -> wf s.
Proof.
  unfold thread_init, init_thread. cbn. intros [= <-].
  destruct pos; cbn.
  all: constructor; cbn; rewrite ?Z.eqb_refl; cbn;
    [reflexivity | left; reflexivity |].
  all: constructor; cbn; rewrite ?Z.eqb_refl; cbn;
    try (constructor; fail); try (intros ? []; fail);
    try (intros ? ?; discriminate).
  all: try (repeat constructor; intros []; fail).
  all: intros t [<-|[]]; rewrite !Z.eqb_refl; cbn;
    change (int32 2) with 2; lia.
Qed.

End PreservationCreate.

Section Reachable.

Lemma step_wf s s' : wf s -> step s s' -> wf s'.
Proof.
  intros W St. destruct St.
  - eapply wf_thread_create; eassumption.
  - eapply wf_thread_block; eassumption.
  - eapply wf_thread_unblock; eassumption.
  - eapply wf_thread_yield; eassumption.
  - eapply wf_thread_sleep; eassumption.
  - eapply wf_thread_foreach_wake; eassumption.
  - eapply wf_thread_exit; eassumption.
  - eapply wf_thread_set_priority; eassumption.
  - eapply wf_thread_donate_priority; eassumption.
  - eapply wf_thread_hold_lock; eassumption.
  - eapply wf_same_view; [eapply thread_release_lock_view|]; eassumption.
  - eapply wf_thread_set_nice; eassumption.
  - eapply wf_same_view; [eapply thread_tick_view|]; eassumption.
  - eapply wf_idle_enter; eassumption.
Qed.

(** Every state the kernel goes through is well formed. *)
Lemma reachable_wf s : reachable s -> wf s.
Proof.
  induction 1 as [mlfqs mem lp main pos s E | s s' _ IH St].
  - eapply wf_thread_init, E.
  - eapply step_wf; eassumption.
Qed.

End Reachable.

(** ** Lookup by tid *)

Section FromTid.

Lemma thread_from_tid_loop_Some m l id t :
  thread_from_tid_loop m l id = Some t -> In t l /\ tid (m t) = id.
Proof.
  induction l as [|e l IH]; simpl; [discriminate|].
  destruct (tid (m e) =? id) eqn:E.
  - intros [= <-]. apply Z.eqb_eq in E. auto.
  - intros H. destruct (IH H). auto.
Qed.

Lemma thread_from_tid_loop_None m l id :
  thread_from_tid_loop m l id = None -> forall t, In t l -> tid (m t) <> id.
Proof.
  induction l as [|e l IH]; simpl; [intros _ t []|].
  destruct (tid (m e) =? id) eqn:E; [discriminate|].
  apply Z.eqb_neq in E. intros H t [<-|Ht]; auto.
Qed.

Lemma thread_from_tid_loop_found m l id t :
  NoDup (map (fun u => tid (m u)) l) -> In t l -> tid (m t) = id ->
  thread_from_tid_loop m l id = Some t.
Proof.
  induction l as [|e l IH]; simpl; [intros _ []|].
  intros N [<-|Ht] E.
  - apply Z.eqb_eq in E. rewrite E. reflexivity.
  - inversion N as [|k ks Hn Hd]; subst.
    destruct (tid (m e) =? tid (m t)) eqn:G; [|auto].
    apply Z.eqb_eq in G. exfalso. apply Hn. rewrite G.
    apply (in_map (fun u => tid (m u))), Ht.
Qed.

(** C10.  In every state the kernel goes through, [thread_from_tid] returns
    a thread exactly when that thread is in [all_list] and has the tid asked
    for, so it returns the one live thread with that tid; no two live
    threads share a tid ([allocate_tid] counts upward and every live tid is
    below the counter); and it returns NULL exactly when no live thread has
    that tid. *)
Theorem thread_from_tid_unique id s :
  reachable s ->
  (forall t,
     thread_from_tid id s = Some t
     <-> In t (all_list s) /\ tid (threads s t) = id) /\
  (forall t u,
     In t (all_list s) -> In u (all_list s) ->
     tid (threads s t) = tid (threads s u) -> t = u) /\
  (forall t, In t (all_list s) -> tid (threads s t) < next_tid s) /\
  (thread_from_tid id s = None
   <-> forall t, In t (all_list s) -> tid (threads s t) <> id).
Proof.
  intros Hr. apply reachable_wf in Hr. destruct Hr as [_ _ WL].
  pose proof (wfl_tid_nodup s WL) as N.
  assert (Hfound : forall i t, In t (all_list s) -> tid (threads s t) = i ->
                               thread_from_tid i s = Some t).
  { intros i t Ht E. apply thread_from_tid_loop_found; assumption. }
  split; [|split; [|split]].
  - intros t. split.
    + apply thread_from_tid_loop_Some.
    + intros [Ht E]. apply Hfound; assumption.
  - intros t u Ht Hu E.
    pose proof (Hfound _ t Ht E) as E1.
    pose proof (Hfound _ u Hu eq_refl) as E2. congruence.
  - intros t Ht. apply (wfl_tids s WL t Ht).
  - split.
    + apply thread_from_tid_loop_None.
    + intros H. destruct (thread_from_tid id s) as [t|] eqn:E; [|reflexivity].
      apply thread_from_tid_loop_Some in E. destruct E as [Ht E].
      exfalso. exact (H t Ht E).
Qed.

End FromTid.

(** ** The idle thread *)

Section Idle.

Lemma schedule_idle_thread s s' :
  schedule s = Some s' -> idle_thread s' = idle_thread s.
Proof.
  unfold schedule, next_thread_to_run.
  destruct (ready_list s) as [|h rest]; cbn [threads with_ready_list];
    destruct (negb (status_eqb (status (threads s (running_thread s)))
                               THREAD_RUNNING)); try discriminate.
  - destruct (idle_thread s) eqn:Ei; [|discriminate]. intros [= <-].
    cbn. exact Ei.
  - intros [= <-]. reflexivity.
Qed.

Lemma thread_yield_idle_thread s s' :
  thread_yield s = Some s' -> idle_thread s' = idle_thread s.
Proof.
  unfold thread_yield. destruct (thread_current s) as [cur|]; [|discriminate].
  intros H. apply schedule_idle_thread in H. rewrite H.
  destruct (negb (ptr_is cur (idle_thread s))); reflexivity.
Qed.

Lemma thread_block_idle_thread s s' :
  thread_block s = Some s' -> idle_thread s' = idle_thread s.
Proof.
  unfold thread_block. destruct (thread_current s) as [cur|]; [|discriminate].
  intros H. apply schedule_idle_thread in H. rewrite H. reflexivity.
Qed.

Lemma thread_unblock_idle_thread t s s' :
  thread_unblock t s = Some s' -> idle_thread s' = idle_thread s.
Proof.
  unfold thread_unblock.
  destruct (status_eqb (status (threads s t)) THREAD_BLOCKED);
    [|discriminate]. intros [= <-]. reflexivity.
Qed.

Lemma wake_loop_idle_thread tks l : forall s s',
  wake_loop tks l s = Some s' -> idle_thread s' = idle_thread s.
Proof.
  induction l as [|e l IH]; intros s s'; simpl; [intros [= <-]; reflexivity|].
  destruct (ticks_sleep (threads s e) <=? tks);
    [|intros [= <-]; reflexivity].
  match goal with
  | |- match thread_unblock e ?s1 with _ => _ end = _ -> _ =>
      destruct (thread_unblock e s1) as [s2|] eqn:E; [|discriminate];
      apply thread_unblock_idle_thread in E
  end.
  intros H. apply IH in H. rewrite H, E. reflexivity.
Qed.

Lemma same_view_idle_thread s s' :
  same_view s s' -> idle_thread s' = idle_thread s.
Proof. intros (_ & _ & _ & H & _). exact H. Qed.

Lemma step_idle_thread s s' i :
  step s s' -> idle_thread s = Some i -> idle_thread s' = Some i.
Proof.
  intros St Ei. rewrite <- Ei. destruct St.
  - destruct page as [t|]; [|injection H2 as _ <-; reflexivity].
    rewrite thread_create_unfold in H2.
    destruct ((PRI_MIN <=? prio) && (prio <=? PRI_MAX)); [|discriminate].
    destruct (thread_unblock t (spawned t prio pos s)) as [s4|] eqn:E4;
      [|discriminate].
    apply thread_unblock_idle_thread in E4.
    destruct (thread_current s4) as [cur|]; [|discriminate].
    destruct (prio >? priority (threads s4 cur)).
    + destruct (thread_yield s4) as [s5|] eqn:E5; [|discriminate].
      apply thread_yield_idle_thread in E5. injection H2 as _ <-.
      rewrite E5, E4. reflexivity.
    + injection H2 as _ <-. rewrite E4. reflexivity.
  - eapply thread_block_idle_thread; eassumption.
  - eapply thread_unblock_idle_thread; eassumption.
  - eapply thread_yield_idle_thread; eassumption.
  - unfold thread_sleep in H0.
    destruct (thread_current s) as [cur|]; [|discriminate].
    apply thread_block_idle_thread in H0. rewrite H0. reflexivity.
  - eapply wake_loop_idle_thread; eassumption.
  - unfold thread_exit in H0.
    destruct (thread_current s) as [cur|]; [|discriminate].
    destruct (list_remove cur (all_list s)) as [l|]; [|discriminate].
    apply schedule_idle_thread in H0. rewrite H0. reflexivity.
  - unfold thread_set_priority in H0.
    destruct (thread_mlfqs s); [injection H0 as <-; reflexivity|].
    destruct (thread_current s) as [cur|]; [|discriminate].
    match type of H0 with (if ?c then _ else _) = _ => destruct c end.
    + apply thread_yield_idle_thread in H0. rewrite H0. reflexivity.
    + injection H0 as <-. reflexivity.
  - pose proof (same_view_idle_thread _ _ (thread_update_priority_view t s)).
    destruct (thread_donate_priority_cases t s s' H1) as [->|(_ & _ & _ & ->)];
      assumption.
  - unfold thread_hold_lock in H0.
    destruct (thread_current s) as [cur|]; [|discriminate]. cbv zeta in H0.
    match type of H0 with (if ?c then _ else _) = _ => destruct c end.
    + apply thread_yield_idle_thread in H0. rewrite H0. reflexivity.
    + injection H0 as <-. reflexivity.
  - eapply same_view_idle_thread, thread_release_lock_view; eassumption.
  - unfold thread_set_nice in H0.
    destruct (thread_current s) as [cur|]; [|discriminate]. cbv zeta in H0.
    match type of H0 with
    | match thread_mlfqs_update_priority ?t ?s1 with _ => _ end = _ =>
        destruct (thread_mlfqs_update_priority t s1) as [s2|] eqn:E;
        [|discriminate];
        apply thread_mlfqs_update_priority_view, same_view_idle_thread in E
    end.
    match type of H0 with (if ?c then _ else _) = _ => destruct c end.
    + apply thread_yield_idle_thread in H0. rewrite H0, E. reflexivity.
    + injection H0 as <-. rewrite E. reflexivity.
  - eapply same_view_idle_thread, thread_tick_view; eassumption.
  - congruence.
Qed.

Lemma steps_reachable s s' : reachable s -> steps s s' -> reachable s'.
Proof.
  intros R. induction 1 as [|s1 s2 _ IH St]; [exact R|].
  eapply reach_step; eassumption.
Qed.

Lemma steps_idle_thread s s' i :
  steps s s' -> idle_thread s = Some i -> idle_thread s' = Some i.
Proof.
  induction 1 as [|s1 s2 _ IH St]; intros Ei; [exact Ei|].
  eapply step_idle_thread; eauto.
Qed.

(** A yield by the idle thread only takes the front off the ready list. *)
Lemma thread_yield_by_idle s s' :
  ptr_is (running_thread s) (idle_thread s) = true ->
  thread_yield s = Some s' -> ready_list s' = tl (ready_list s).
Proof.
  intros Hi. unfold thread_yield.
  destruct (thread_current s) as [cur|] eqn:Ec; [|discriminate].
  assert (cur = running_thread s) as ->.
  { unfold thread_current in Ec.
    destruct (status_eqb _ _); congruence. }
  rewrite Hi. cbn [negb]. unfold schedule, next_thread_to_run.
  cbn [ready_list store with_threads].
  destruct (ready_list s) as [|h rest] eqn:El.
  - match goal with |- (if ?c then _ else _) = _ -> _ => destruct c end;
      [|discriminate].
    match goal with
    | |- match ?x with _ => _ end = _ -> _ => destruct x; [|discriminate]
    end.
    intros [= <-]. cbn. rewrite El. reflexivity.
  - match goal with |- (if ?c then _ else _) = _ -> _ => destruct c end;
      [|discriminate].
    intros [= <-]. reflexivity.
Qed.

(** C7.  Once the idle thread has run for the first time ([idle_thread] is
    set), then after any further calls it still is the idle thread and is
    not in the ready list; whenever the ready list is empty,
    [next_thread_to_run] returns it and leaves the state alone; and when it
    yields, the ready list only loses its front: the idle thread is not
    inserted. *)
Theorem idle_thread_never_ready s i s' :
  reachable s -> idle_thread s = Some i -> steps s s' ->
  idle_thread s' = Some i /\
  ~ In i (ready_list s') /\
  (ready_list s' = [] -> next_thread_to_run s' = (Some i, s')) /\
  (running_thread s' = i ->
   forall s'', thread_yield s' = Some s'' ->
     ready_list s'' = tl (ready_list s') /\ ~ In i (ready_list s'')).
Proof.
  intros R Ei St.
  pose proof (steps_idle_thread s s' i St Ei) as Ei'.
  pose proof (steps_reachable s s' R St) as R'.
  pose proof (reachable_wf s' R') as W'.
  destruct (wfl_idle s' (wf_wf_lists s' W') i Ei') as (A & _ & _).
  split; [exact Ei'|]. split; [exact A|]. split.
  - intros E. unfold next_thread_to_run. rewrite E, Ei'. reflexivity.
  - intros Hrun s'' Y. split.
    + apply thread_yield_by_idle; [|exact Y].
      rewrite Ei', Hrun. cbn. apply Z.eqb_refl.
    + pose proof (wf_thread_yield s' s'' W' Y) as W''.
      apply thread_yield_idle_thread in Y. rewrite Ei' in Y.
      destruct (wfl_idle s'' (wf_wf_lists s'' W'') i Y) as (A' & _ & _).
      exact A'.
Qed.

End Idle.

(** ** A boot sequence *)

(** The state an operation returns, for the examples. *)
Definition after (o : option sched) : sched :=
  match o with
  | Some s => s
  | None => ex_rr
  end.

(** [thread_init] on page 1; [thread_start] creates the idle thread on
    page 2 and waits for it ([sema_down] blocks "main"); the idle thread
    runs [idle]: it sets [idle_thread], wakes "main" ([sema_up]) and
    blocks. *)
Definition boot0 : sched :=
  after (thread_init false (fun _ => zero_thread) (fun _ => 0) 1 0).
Definition boot1 : sched :=
  after (option_map snd (thread_create PRI_MIN (Some 2) 0 boot0)).
Definition boot2 : sched := after (thread_block boot1).
Definition boot3 : sched := after (idle_enter boot2).
Definition boot4 : sched := after (thread_unblock 1 boot3).
Definition boot5 : sched := after (idle_loop boot4).

Definition is_Some {A} (o : option A) : bool :=
  match o with Some _ => true | None => false end.

Section Boot.

Lemma after_Some o : is_Some o = true -> o = Some (after o).
Proof. destruct o; [reflexivity | discriminate]. Qed.

Lemma after_create (o : option (Z * sched)) id :
  option_map fst o = Some id -> o = Some (id, after (option_map snd o)).
Proof. destruct o as [[i s]|]; simpl; intros [= ->]; reflexivity. Qed.

Lemma boot3_reachable : reachable boot3.
Proof.
  assert (R0 : reachable boot0).
  { eapply (reach_init false (fun _ => zero_thread) (fun _ => 0) 1 0).
    apply after_Some. reflexivity. }
  assert (R1 : reachable boot1).
  { eapply reach_step; [exact R0|].
    eapply (step_create boot0 PRI_MIN (Some 2) 0 2).
    - vm_compute. reflexivity.
    - intros t [= <-]. vm_compute. intros [H|[]]. discriminate H.
    - vm_compute. reflexivity.
    - apply after_create. vm_compute. reflexivity. }
  assert (R2 : reachable boot2).
  { eapply reach_step; [exact R1|]. apply step_block, after_Some.
    vm_compute. reflexivity. }
  eapply reach_step; [exact R2|]. apply step_idle_enter.
  - vm_compute. reflexivity.
  - apply after_Some. vm_compute. reflexivity.
Qed.

Lemma boot3_boot4 : steps boot3 boot4.
Proof.
  eapply steps_step; [apply steps_refl|].
  apply (step_unblock boot3 1 boot4).
  - vm_compute. auto.
  - vm_compute. tauto.
  - vm_compute. reflexivity.
  - apply after_Some. vm_compute. reflexivity.
Qed.

Lemma boot5_reachable : reachable boot5.
Proof.
  eapply reach_step.
  - eapply steps_reachable; [apply boot3_reachable | apply boot3_boot4].
  - apply (step_block boot4 boot5), after_Some. vm_compute. reflexivity.
Qed.

End Boot.

Lemma idle_thread_never_ready_witness :
  idle_thread boot4 = Some 2 /\
  ~ In 2 (ready_list boot4) /\
  (ready_list boot4 = [] -> next_thread_to_run boot4 = (Some 2, boot4)) /\
  (running_thread boot4 = 2 ->
   forall s'', thread_yield boot4 = Some s'' ->
     ready_list s'' = tl (ready_list boot4) /\ ~ In 2 (ready_list s'')).
Proof.
  apply (idle_thread_never_ready boot3 2 boot4);
    [apply boot3_reachable | vm_compute; reflexivity | apply boot3_boot4].
Defined.

Lemma thread_from_tid_unique_witness :
  (forall t,
     thread_from_tid 2 boot5 = Some t
     <-> In t (all_list boot5) /\ tid (threads boot5 t) = 2) /\
  (forall t u,
     In t (all_list boot5) -> In u (all_list boot5) ->
     tid (threads boot5 t) = tid (threads boot5 u) -> t = u) /\
  (forall t, In t (all_list boot5) -> tid (threads boot5 t) < next_tid boot5) /\
  (thread_from_tid 2 boot5 = None
   <-> forall t, In t (all_list boot5) -> tid (threads boot5 t) <> 2).
Proof.
  apply (thread_from_tid_unique 2 boot5), boot5_reachable.
Defined.

(** ** Timed sleep *)

(** The threads that left the sleep list between [s] and [s']. *)
Definition woken (s s' : sched) : list ptr :=
  filter (fun t => negb (mem_ptr t (sleep_list s'))) (sleep_list s).

(** One call of [thread_foreach_wake] per element of [nows]; the result
    lists the threads each call woke. *)
Fixpoint wake_run (nows : list Z) (s : sched)
  : option (list (list ptr) * sched) :=
  match nows with
  | [] => Some ([], s)
  | now :: rest =>
      s1 <- thread_foreach_wake now s ;;
      r <- wake_run rest s1 ;;
      Some (woken s s1 :: fst r, snd r)
  end.

Section Sleep.

Lemma filter_none {A} (f : A -> bool) l :
  (forall x, In x l -> f x = false) -> filter f l = [].
Proof.
  induction l as [|x l IH]; simpl; intros H; [reflexivity|].
  rewrite (H x) by (left; reflexivity). apply IH. intros y Hy.
  apply H. right. exact Hy.
Qed.

(** Waking the front of the sleep list. *)
Lemma wake_one e l s :
  wf s -> sleep_list s = e :: l ->
  exists s2,
    thread_unblock e (store e (set_ticks_sleep 0) (with_sleep_list l s))
      = Some s2 /\
    wf s2 /\ sleep_list s2 = l /\
    Permutation (ready_list s2) (e :: ready_list s) /\
    (forall t, t <> e -> threads s2 t = threads s t) /\
    status (threads s2 e) = THREAD_READY /\
    ticks_sleep (threads s2 e) = 0.
Proof.
  intros W El. pose proof W as [R L WL].
  assert (He : In e (sleep_list s)) by (rewrite El; left; reflexivity).
  assert (Hne : running_thread s <> e).
  { intros <-. eapply running_not_asleep; eassumption. }
  assert (Hn : ~ In e l).
  { pose proof (wfl_sleep_nodup s WL) as N. rewrite El in N.
    inversion N. assumption. }
  set (s1 := store e (set_ticks_sleep 0) (with_sleep_list l s)).
  assert (W1 : wf s1).
  { constructor.
    - cbn. apply Z.eqb_neq in Hne. rewrite Hne. exact R.
    - exact L.
    - apply wf_lists_store_ticks_sleep; [|exact Hn].
      eapply wf_lists_sleep_tail; eassumption. }
  assert (Eb : status (threads s1 e) = THREAD_BLOCKED).
  { subst s1. rewrite threads_store_same. cbn.
    apply (wfl_sleep_status s WL e He). }
  assert (E2 : exists s2, thread_unblock e s1 = Some s2).
  { unfold thread_unblock. rewrite Eb. cbn [status_eqb]. eexists.
    reflexivity. }
  destruct E2 as (s2 & E2). exists s2. split; [exact E2|].
  split.
  { eapply (wf_thread_unblock e s1); [exact W1| | | |exact E2].
    - apply (wfl_sleep_live s WL), He.
    - exact Hn.
    - apply (idle_not_asleep s e WL He). }
  unfold thread_unblock in E2. rewrite Eb in E2. cbn [status_eqb] in E2.
  injection E2 as <-.
  split; [reflexivity|]. split; [apply list_insert_ordered_perm|].
  split; [|split].
  - intros t Ht. apply Z.eqb_neq in Ht. cbn. rewrite Ht. reflexivity.
  - cbn. rewrite Z.eqb_refl. reflexivity.
  - cbn. rewrite Z.eqb_refl. reflexivity.
Qed.

(** The loop wakes the sleepers that are due, and only those. *)
Lemma wake_loop_spec tks l : forall s,
  wf s -> sleep_list s = l ->
  exists s',
    wake_loop tks l s = Some s' /\ wf s' /\
    sleep_list s' = filter (fun t => tks <? ticks_sleep (threads s t)) l /\
    Permutation (ready_list s')
      (filter (fun t => ticks_sleep (threads s t) <=? tks) l ++ ready_list s) /\
    (forall t, ~ In t l \/ tks < ticks_sleep (threads s t) ->
               threads s' t = threads s t) /\
    (forall t, In t l -> ticks_sleep (threads s t) <= tks ->
               status (threads s' t) = THREAD_READY /\
               ticks_sleep (threads s' t) = 0).
Proof.
  induction l as [|e l IH]; intros s W El.
  - exists s. simpl. split; [reflexivity|]. split; [exact W|].
    split; [exact El|]. split; [reflexivity|].
    split; [reflexivity|]. intros t [].
  - simpl. destruct (ticks_sleep (threads s e) <=? tks) eqn:Ed.
    + destruct (wake_one e l s W El) as (s2 & E2 & W2 & S2 & P2 & F2 & St2 & T2).
      rewrite E2.
      destruct (IH s2 W2 S2) as (s' & E' & W' & S' & P' & F' & D').
      pose proof (wfl_sleep_nodup s (wf_wf_lists s W)) as N.
      rewrite El in N. apply NoDup_cons_iff in N. destruct N as [Hn Hd].
      assert (Hkey : forall t, In t l ->
                ticks_sleep (threads s2 t) = ticks_sleep (threads s t)).
      { intros t Ht. rewrite F2; [reflexivity|]. intros ->. contradiction. }
      exists s'. split; [exact E'|]. split; [exact W'|].
      assert (Ed' : (tks <? ticks_sleep (threads s e)) = false) by lia.
      rewrite Ed'. split; [|split; [|split]].
      * rewrite S'. apply filter_ext_in. intros t Ht. rewrite Hkey by exact Ht.
        reflexivity.
      * rewrite P'. rewrite (filter_ext_in _
          (fun t => ticks_sleep (threads s t) <=? tks))
          by (intros t Ht; rewrite Hkey by exact Ht; reflexivity).
        rewrite P2. simpl. symmetry. apply Permutation_middle.
      * intros t Ht. assert (Hte : t <> e).
        { intros ->. destruct Ht as [Ht|Ht]; [apply Ht; left; reflexivity|].
          lia. }
        rewrite <- (F2 t Hte). apply F'.
        destruct Ht as [Ht|Ht].
        -- left. intros H. apply Ht. right. exact H.
        -- right. rewrite (F2 t Hte). exact Ht.
      * intros t [<-|Ht] Hdue.
        -- rewrite (F' e) by (left; exact Hn). split; assumption.
        -- apply D'; [exact Ht|]. rewrite Hkey by exact Ht. exact Hdue.
    + pose proof (wfl_sleep_sorted s (wf_wf_lists s W)) as Hs.
      rewrite El in Hs. simpl in Hs.
      apply StronglySorted_inv in Hs. destruct Hs as [Hs' Hall].
      assert (Hlate : forall t, In t l -> tks < ticks_sleep (threads s t)).
      { intros t Ht. rewrite Forall_forall in Hall.
        specialize (Hall _ (in_map (fun t => ticks_sleep (threads s t)) _ _ Ht)).
        cbv beta in Hall. lia. }
      exists s. split; [reflexivity|]. split; [exact W|].
      assert (Ed' : (tks <? ticks_sleep (threads s e)) = true) by lia.
      rewrite Ed'. split; [|split; [|split]].
      * rewrite El. f_equal. symmetry. apply forallb_filter_id.
        apply forallb_forall. intros t Ht. specialize (Hlate t Ht). lia.
      * rewrite filter_none; [reflexivity|].
        intros t Ht. specialize (Hlate t Ht). lia.
      * reflexivity.
      * intros t [<-|Ht] Hdue; [lia|]. specialize (Hlate t Ht). lia.
Qed.

End Sleep.

Section SleepWake.

Lemma thread_foreach_wake_spec now s :
  wf s ->
  exists s',
    thread_foreach_wake now s = Some s' /\ wf s' /\
    sleep_list s' =
      filter (fun t => now <? ticks_sleep (threads s t)) (sleep_list s) /\
    Permutation (ready_list s')
      (filter (fun t => ticks_sleep (threads s t) <=? now) (sleep_list s)
       ++ ready_list s) /\
    (forall t, ~ In t (sleep_list s) \/ now < ticks_sleep (threads s t) ->
               threads s' t = threads s t) /\
    (forall t, In t (sleep_list s) -> ticks_sleep (threads s t) <= now ->
               status (threads s' t) = THREAD_READY /\
               ticks_sleep (threads s' t) = 0).
Proof. intros W. apply wake_loop_spec; [exact W | reflexivity]. Qed.

(** The threads that left the sleep list are those that were due. *)
Lemma woken_due now s s' :
  sleep_list s' =
    filter (fun t => now <? ticks_sleep (threads s t)) (sleep_list s) ->
  woken s s' =
    filter (fun t => ticks_sleep (threads s t) <=? now) (sleep_list s).
Proof.
  intros E. unfold woken. apply filter_ext_in. intros t Ht.
  destruct (mem_ptr t (sleep_list s')) eqn:M.
  - apply mem_ptr_In in M. rewrite E in M. apply filter_In in M.
    destruct M as [_ M]. cbn. lia.
  - cbn. destruct (ticks_sleep (threads s t) <=? now) eqn:D; [reflexivity|].
    assert (In t (sleep_list s')).
    { rewrite E. apply filter_In. split; [exact Ht | lia]. }
    apply mem_ptr_In in H. congruence.
Qed.

(** However many calls follow one another, no thread is in the woken list
    of two of them. *)
Lemma wake_run_NoDup nows : forall s,
  wf s ->
  exists ws s'',
    wake_run nows s = Some (ws, s'') /\
    NoDup (concat ws) /\ incl (concat ws) (sleep_list s).
Proof.
  induction nows as [|now nows IH]; intros s W; simpl.
  - exists [], s. split; [reflexivity|]. split; [constructor|].
    intros x [].
  - destruct (thread_foreach_wake_spec now s W)
      as (s1 & E1 & W1 & S1 & _).
    rewrite E1.
    destruct (IH s1 W1) as (ws & s'' & E & N & I).
    rewrite E. exists (woken s s1 :: ws), s''.
    split; [reflexivity|]. simpl.
    assert (Isub : incl (sleep_list s1) (sleep_list s)).
    { intros x Hx. rewrite S1 in Hx. apply filter_In in Hx. tauto. }
    split.
    + apply NoDup_app.
      * apply NoDup_filter, (wfl_sleep_nodup s (wf_wf_lists s W)).
      * exact N.
      * intros x Hx Hx'. unfold woken in Hx. apply filter_In in Hx.
        destruct Hx as [_ Hx]. apply I in Hx'. apply mem_ptr_In in Hx'.
        rewrite Hx' in Hx. discriminate.
    + apply incl_app.
      * intros x Hx. unfold woken in Hx. apply filter_In in Hx. tauto.
      * intros x Hx. apply Isub, I, Hx.
Qed.

(** C5.  In every state the kernel goes through, [thread_foreach_wake now]
    returns; the threads it moves to the ready list are exactly the
    sleepers whose [ticks_sleep] is at most [now], each of them
    [THREAD_READY] and off the sleep list afterwards; the sleep list keeps
    exactly the sleepers with [ticks_sleep] above [now], still blocked; and
    over any sequence of calls that begins with this one (a non-decreasing
    one in particular) the lists of threads woken by the calls share no
    thread. *)
Theorem thread_foreach_wake_exact now s :
  reachable s ->
  exists s',
    thread_foreach_wake now s = Some s' /\
    woken s s' =
      filter (fun t => ticks_sleep (threads s t) <=? now) (sleep_list s) /\
    Permutation (ready_list s') (woken s s' ++ ready_list s) /\
    (forall t, In t (woken s s') ->
       status (threads s' t) = THREAD_READY /\
       In t (ready_list s') /\ ~ In t (sleep_list s')) /\
    sleep_list s' =
      filter (fun t => now <? ticks_sleep (threads s t)) (sleep_list s) /\
    (forall t, In t (sleep_list s') ->
       now < ticks_sleep (threads s' t) /\
       status (threads s' t) = THREAD_BLOCKED) /\
    (forall nows, exists ws s'',
       wake_run (now :: nows) s = Some (ws, s'') /\ NoDup (concat ws)).
Proof.
  intros R. apply reachable_wf in R.
  destruct (thread_foreach_wake_spec now s R)
    as (s' & E & W' & S' & P' & F' & D').
  pose proof (woken_due now s s' S') as Ew.
  exists s'. split; [exact E|]. split; [exact Ew|].
  split; [rewrite Ew; exact P'|]. split; [|split; [exact S'|split]].
  - intros t Ht. rewrite Ew in Ht. apply filter_In in Ht.
    destruct Ht as [Ht Hd]. split; [apply D'; [exact Ht | lia]|]. split.
    + apply (Permutation_in _ (Permutation_sym P')), in_or_app. left.
      apply filter_In. split; assumption.
    + rewrite S'. intros H. apply filter_In in H. lia.
  - intros t Ht. pose proof Ht as Ht'. rewrite S' in Ht'.
    apply filter_In in Ht'. destruct Ht' as [Hin Hl].
    rewrite F' by (right; lia). split; [lia|].
    rewrite <- (F' t) by (right; lia).
    apply (wfl_sleep_status s' (wf_wf_lists s' W') t Ht).
  - intros nows. destruct (wake_run_NoDup (now :: nows) s R)
      as (ws & s'' & Er & N & _).
    exists ws, s''. split; assumption.
Qed.

End SleepWake.

(** After the boot: "main" creates thread 3 at its own priority and sleeps
    until tick 100, thread 3 sleeps until tick 50, the idle thread runs. *)
Definition nap0 : sched :=
  after (option_map snd (thread_create PRI_DEFAULT (Some 3) 0 boot5)).
Definition nap1 : sched := after (thread_sleep 100 nap0).
Definition nap2 : sched := after (thread_sleep 50 nap1).

Lemma nap0_reachable : reachable nap0.
Proof.
  eapply reach_step; [exact boot5_reachable|].
  eapply (step_create boot5 PRI_DEFAULT (Some 3) 0 3).
  - vm_compute. reflexivity.
  - intros t [= <-]. vm_compute. intros [H|[H|[]]]; discriminate H.
  - vm_compute. reflexivity.
  - apply after_create. vm_compute. reflexivity.
Qed.

Lemma nap2_reachable : reachable nap2.
Proof.
  assert (R1 : reachable nap1).
  { eapply reach_step; [exact nap0_reachable|].
    apply (step_sleep nap0 100);
      [|apply after_Some]; vm_compute; reflexivity. }
  eapply reach_step; [exact R1|].
  apply (step_sleep nap1 50); [|apply after_Some]; vm_compute; reflexivity.
Qed.

Lemma thread_foreach_wake_exact_witness :
  exists s',
    thread_foreach_wake 60 nap2 = Some s' /\
    woken nap2 s' =
      filter (fun t => ticks_sleep (threads nap2 t) <=? 60) (sleep_list nap2) /\
    Permutation (ready_list s') (woken nap2 s' ++ ready_list nap2) /\
    (forall t, In t (woken nap2 s') ->
       status (threads s' t) = THREAD_READY /\
       In t (ready_list s') /\ ~ In t (sleep_list s')) /\
    sleep_list s' =
      filter (fun t => 60 <? ticks_sleep (threads nap2 t)) (sleep_list nap2) /\
    (forall t, In t (sleep_list s') ->
       60 < ticks_sleep (threads s' t) /\
       status (threads s' t) = THREAD_BLOCKED) /\
    (forall nows, exists ws s'',
       wake_run (60 :: nows) nap2 = Some (ws, s'') /\ NoDup (concat ws)).
Proof.
  apply (thread_foreach_wake_exact 60 nap2), nap2_reachable.
Defined.

(** ** The ready queue *)

(** The operations that put threads into the ready list and take them out:
    [thread_unblock (t)], [thread_yield ()] (the running thread goes in, the
    front comes out) and [thread_block ()] (the front comes out). *)
Inductive queue_op : Type :=
| QUnblock (t : ptr)
| QYield
| QBlock.

(** One operation on the state and on the arrivals: the residents of the
    ready list in the order in which they became ready. *)
Definition queue_step (op : queue_op) (c : sched * list ptr)
  : option (sched * list ptr) :=
  let (s, arr) := c in
  match op with
  | QUnblock t =>
      s' <- thread_unblock t s ;; Some (s', arr ++ [t])
  | QYield =>
      s' <- thread_yield s ;;
      let arr1 :=
        if negb (ptr_is (running_thread s) (idle_thread s))
        then arr ++ [running_thread s] else arr in
      Some (s', unlink (running_thread s') arr1)
  | QBlock =>
      s' <- thread_block s ;;
      Some (s', unlink (running_thread s') arr)
  end.

Fixpoint queue_run (ops : list queue_op) (c : sched * list ptr)
  : option (sched * list ptr) :=
  match ops with
  | [] => Some c
  | op :: rest => c' <- queue_step op c ;; queue_run rest c'
  end.


Section ReadyQueue.



Lemma schedule_ready s s' :
  schedule s = Some s' ->
  (forall p, priority (threads s' p) = priority (threads s p)) /\
  match ready_list s with
  | [] => ready_list s' = []
  | h :: rest => running_thread s' = h /\ ready_list s' = rest
  end.
Proof.
  unfold schedule, next_thread_to_run.
  destruct (ready_list s) as [|h rest] eqn:El; cbn [threads with_ready_list];
    destruct (negb (status_eqb (status (threads s (running_thread s)))
                               THREAD_RUNNING)); try discriminate.
  - destruct (idle_thread s) as [i|]; [|discriminate]. intros [= <-].
    split; [|cbn; exact El]. intros p. cbn. destruct (p =? i); reflexivity.
  - intros [= <-]. split; [|split; reflexivity].
    intros p. cbn. destruct (p =? h); reflexivity.
Qed.






End ReadyQueue.

(** Thread 1 runs, thread 2 is the idle thread; threads 3 and 5 (priority
    3), 4 (priority 5) and 6 (priority 1) are blocked. *)
Definition ex_queue : sched :=
  mkSched (fun p => if p =? 1 then a_thread 1 THREAD_RUNNING 31
                    else if p =? 2 then a_thread 2 THREAD_BLOCKED 0
                    else if p =? 4 then a_thread 4 THREAD_BLOCKED 5
                    else if p =? 6 then a_thread 6 THREAD_BLOCKED 1
                    else a_thread p THREAD_BLOCKED 3)
          (fun _ => 0) [] [] [1; 2; 3; 4; 5; 6] (Some 2) (Some 1) 1 7
          0 0 0 0 0 false false.

(** Threads 6, 4, 3 and 5 become ready in this order, then the running
    thread blocks: thread 4 gets the CPU and threads 3, 5 and 6 wait. *)
Definition ex_queue_ops : list queue_op :=
  [QUnblock 6; QUnblock 4; QUnblock 3; QUnblock 5; QBlock].

Definition ex_queue_end : sched * list ptr :=
  match queue_run ex_queue_ops (ex_queue, []) with
  | Some c => c
  | None => (ex_queue, [])
  end.




(** In the example thread 4 got the CPU; thread 3 is to leave the ready list
    before thread 5, which has the same priority and became ready after
    it. *)
Example ex_queue_order :
  ready_list (fst ex_queue_end) = [3; 5; 6] /\
  snd ex_queue_end = [6; 3; 5] /\
  running_thread (fst ex_queue_end) = 4.
Proof. vm_compute. repeat split; reflexivity. Qed.

(** ** Further checks on the states the kernel goes through *)

Section EndToEnd.

(** C3.  Outside MLFQS, in a state the kernel goes through where the running
    thread [t] holds no lock and the front [h] of the ready list has at
    least [t]'s priority (the same, say), [thread_set_priority] with the
    priority that [t] already has gives the CPU away: [h] runs, [t] keeps
    its priority and, unless it is the idle thread, waits in the ready list
    in state [THREAD_READY].  The yield of the function is "for more
    prioritized threads if any", in the words of its own comment. *)
Theorem thread_set_priority_same_gives_up_cpu s h rest :
  reachable s -> thread_mlfqs s = false ->
  locks (threads s (running_thread s)) = [] ->
  ready_list s = h :: rest ->
  priority (threads s (running_thread s)) <= priority (threads s h) ->
  let t := running_thread s in
  exists s',
    thread_set_priority (priority (threads s t)) s = Some s' /\
    running_thread s' = h /\ h <> t /\
    status (threads s' h) = THREAD_RUNNING /\
    priority (threads s' t) = priority (threads s t) /\
    ~ In h (ready_list s') /\
    (ptr_is t (idle_thread s) = false ->
     In t (ready_list s') /\ status (threads s' t) = THREAD_READY).
Proof.
  intros R Hm Hl Hq Hle t. apply reachable_wf in R.
  pose proof R as [Hr Hlive WL]. fold t in Hr, Hl, Hle, Hlive.
  set (p := priority (threads s t)) in *.
  set (s2 := store t (set_priority p) (store t (set_base_priority p) s)).
  assert (U : thread_set_priority p s = thread_yield s2).
  { unfold thread_set_priority, thread_current. rewrite Hm. fold t.
    rewrite Hr. cbn [status_eqb]. rewrite !threads_store_same.
    cbn [locks priority set_base_priority]. rewrite Hl. reflexivity. }
  assert (W2 : wf s2) by (eapply wf_same_view; [|exact R]; view_tac).
  assert (Hne : h <> t).
  { intros ->. apply (running_not_ready s R). fold t. rewrite Hq.
    left. reflexivity. }
  assert (Hprio : forall x, priority (threads s2 x) = priority (threads s x)).
  { intros x. subst s2. cbn. destruct (x =? t) eqn:E; [|reflexivity].
    apply Z.eqb_eq in E. subst x. reflexivity. }
  destruct (thread_yield s2) as [s'|] eqn:E.
  2:{ exfalso. rewrite (thread_yield_unfold s2 (wf_running s2 W2)) in E.
      match type of E with schedule ?m = _ =>
        assert (Hm' : exists r, ready_list m = h :: r)
      end.
      { change (running_thread s2) with t.
        change (idle_thread s2) with (idle_thread s).
        destruct (ptr_is t (idle_thread s)); cbn [negb].
        - exists rest. exact Hq.
        - eexists. cbn [ready_list store with_threads with_ready_list].
          change (ready_list s2) with (ready_list s). rewrite Hq.
          cbn [list_insert_ordered]. unfold thread_cmp_priority at 1.
          rewrite !Hprio. fold p.
          destruct (p >? priority (threads s h)) eqn:G; [lia|].
          reflexivity. }
      destruct Hm' as (r & Er).
      rewrite (schedule_pop _ h r Er) in E; [discriminate|].
      destruct (negb (ptr_is (running_thread s2) (idle_thread s2)));
        cbn; rewrite Z.eqb_refl; cbn; discriminate. }
  pose proof (wf_thread_yield s2 s' W2 E) as W'.
  exists s'. split; [rewrite U; reflexivity|].
  rewrite (thread_yield_unfold s2 (wf_running s2 W2)) in E.
  change (running_thread s2) with t in E.
  change (idle_thread s2) with (idle_thread s) in E.
  destruct (schedule_ready _ _ E) as [Hp Hrd].
  assert (Hrun : running_thread s' = h /\
                 (ptr_is t (idle_thread s) = false -> In t (ready_list s'))).
  { destruct (ptr_is t (idle_thread s)); cbn [negb] in E, Hrd.
    - cbn [ready_list store with_threads] in Hrd.
      change (ready_list s2) with (ready_list s) in Hrd. rewrite Hq in Hrd.
      destruct Hrd as [A _]. split; [exact A | discriminate].
    - cbn [ready_list store with_threads with_ready_list] in Hrd.
      change (ready_list s2) with (ready_list s) in Hrd. rewrite Hq in Hrd.
      cbn [list_insert_ordered] in Hrd.
      unfold thread_cmp_priority at 1 in Hrd. rewrite !Hprio in Hrd.
      fold p in Hrd.
      destruct (p >? priority (threads s h)) eqn:G; [lia|].
      destruct Hrd as [A B]. split; [exact A|]. intros _. rewrite B.
      apply list_insert_ordered_In. left. reflexivity. }
  destruct Hrun as [Hrun Hin].
  split; [exact Hrun|]. split; [exact Hne|].
  split; [rewrite <- Hrun; apply (wf_running s' W')|].
  split.
  { rewrite Hp. destruct (ptr_is t (idle_thread s)); cbn [negb];
      cbn [threads store with_threads with_ready_list];
      rewrite Z.eqb_refl; cbn [priority set_status]; apply Hprio. }
  split; [rewrite <- Hrun; apply (running_not_ready s' W')|].
  intros Hi. specialize (Hin Hi). split; [exact Hin|].
  apply (wfl_ready_status s' (wf_wf_lists s' W') t Hin).
Qed.

Lemma thread_set_priority_same_gives_up_cpu_witness :
  let t := running_thread nap0 in
  exists s',
    thread_set_priority (priority (threads nap0 t)) nap0 = Some s' /\
    running_thread s' = 3 /\ 3 <> t /\
    status (threads s' 3) = THREAD_RUNNING /\
    priority (threads s' t) = priority (threads nap0 t) /\
    ~ In 3 (ready_list s') /\
    (ptr_is t (idle_thread nap0) = false ->
     In t (ready_list s') /\ status (threads s' t) = THREAD_READY).
Proof.
  apply (thread_set_priority_same_gives_up_cpu nap0 3 []).
  - exact nap0_reachable.
  - vm_compute. reflexivity.
  - vm_compute. reflexivity.
  - vm_compute. reflexivity.
  - vm_compute. discriminate.
Defined.

(** A creation that succeeds returns the tid it took from the counter, which
    is not the failure value. *)
Lemma thread_create_page_tid prio t pos s id s' :
  reachable s ->
  thread_create prio (Some t) pos s = Some (id, s') ->
  id = next_tid s /\ id <> TID_ERROR.
Proof.
  intros R. apply reachable_wf in R. pose proof (next_tid_pos s R) as Hp.
  rewrite thread_create_unfold.
  destruct ((PRI_MIN <=? prio) && (prio <=? PRI_MAX)); [|discriminate].
  destruct (thread_unblock t (spawned t prio pos s)) as [s4|]; [|discriminate].
  destruct (thread_current s4) as [cur|]; [|discriminate].
  destruct (prio >? priority (threads s4 cur)).
  - destruct (thread_yield s4) as [s5|]; [|discriminate].
    intros [= <- _]. unfold TID_ERROR. lia.
  - intros [= <- _]. unfold TID_ERROR. lia.
Qed.

(** Under MLFQS, right after [thread_init]: "main" sets its niceness to -20
    and its priority becomes 103. *)
Example thread_set_nice_above_PRI_MAX :
  let s := after (thread_init true (fun _ => zero_thread) (fun _ => 0) 1 0) in
  reachable s /\
  option_map (fun s' => priority (threads s' (running_thread s')))
             (thread_set_nice (-20) s) = Some 103.
Proof.
  split.
  - eapply (reach_init true (fun _ => zero_thread) (fun _ => 0) 1 0).
    apply after_Some. reflexivity.
  - vm_compute. reflexivity.
Qed.

(** The sleeper of tick 100 of the example stays asleep at tick 99 and is
    woken at tick 100, once. *)
Example wake_at_deadline :
  option_map fst (wake_run [99; 100; 100] nap1) = Some [[]; [1]; []].
Proof. vm_compute. reflexivity. Qed.

End EndToEnd.

(** * Further properties of the code *)

(** ** Fixed point: conversions and wrap-around *)

Section FixedPointMore.

Lemma int32_spec x : exists k, int32 x = x + k * 2 ^ 32.
Proof.
  unfold int32, wrap. change (2 ^ (32 - 1)) with 2147483648.
  change (2 ^ 32) with 4294967296.
  exists (- ((x + 2147483648) / 4294967296)).
  pose proof (Z.div_mod (x + 2147483648) 4294967296 ltac:(lia)). lia.
Qed.

Lemma int32_periodic x k : int32 (x + k * 2 ^ 32) = int32 x.
Proof.
  unfold int32, wrap. change (2 ^ (32 - 1)) with 2147483648.
  change (2 ^ 32) with 4294967296.
  replace (x + k * 4294967296 + 2147483648)
    with (x + 2147483648 + k * 4294967296) by lia.
  rewrite Z.mod_add by lia. reflexivity.
Qed.

Lemma int32_add_l x y : int32 (int32 x + y) = int32 (x + y).
Proof.
  destruct (int32_spec x) as (k & ->).
  replace (x + k * 2 ^ 32 + y) with (x + y + k * 2 ^ 32) by lia.
  apply int32_periodic.
Qed.

Lemma int32_add_r x y : int32 (x + int32 y) = int32 (x + y).
Proof. rewrite Z.add_comm, int32_add_l, Z.add_comm. reflexivity. Qed.

Lemma int32_sub_l x y : int32 (int32 x - y) = int32 (x - y).
Proof. unfold Z.sub. apply int32_add_l. Qed.

Lemma int32_sub_r x y : int32 (x - int32 y) = int32 (x - y).
Proof.
  destruct (int32_spec y) as (k & ->).
  replace (x - (y + k * 2 ^ 32)) with (x - y + (- k) * 2 ^ 32) by lia.
  apply int32_periodic.
Qed.

Lemma int32_mul_l x y : int32 (int32 x * y) = int32 (x * y).
Proof.
  destruct (int32_spec x) as (k & ->).
  replace ((x + k * 2 ^ 32) * y) with (x * y + (k * y) * 2 ^ 32) by lia.
  apply int32_periodic.
Qed.

Lemma FP_FIX_mul n : FP_FIX n = int32 (n * 65536).
Proof.
  unfold FP_FIX, shl32. change FP_SHIFT_BITS with 16.
  rewrite Z.shiftl_mul_pow2 by lia. reflexivity.
Qed.

(** X1.  Converting an integer of the 16-bit signed range to fixed point and
    taking the integer part back with [FP_INT] gives the integer, negative
    ones included (the shift rounds toward minus infinity, and the value is
    a whole number); rounding back with [FP_RND] gives it when it is not
    negative. *)
Theorem FP_FIX_round_trip n :
  -32768 <= n <= 32767 ->
  FP_INT (FP_FIX n) = n /\ (0 <= n -> FP_RND (FP_FIX n) = n).
Proof.
  intros H. split.
  - rewrite FP_FIX_small by lia. unfold FP_INT. change FP_SHIFT_BITS with 16.
    rewrite shr_16. apply Z.div_mul. lia.
  - intros H0. apply FP_RND_FIX_nonneg. lia.
Qed.

Lemma FP_FIX_round_trip_witness :
  FP_INT (FP_FIX (-7)) = -7 /\ (0 <= -7 -> FP_RND (FP_FIX (-7)) = -7).
Proof. apply (FP_FIX_round_trip (-7)). lia. Defined.

(** X2.  Multiplying or dividing any fixed-point value by the fixed-point
    one is the identity: the 64-bit intermediate holds the product and the
    shifted dividend of every 32-bit value, and the division does not
    trap. *)
Theorem FP_MUL_DIV_one a :
  in_int32 a ->
  FP_MUL a (FP_FIX 1) = a /\ FP_MUL (FP_FIX 1) a = a /\
  FP_DIV a (FP_FIX 1) = Some a.
Proof.
  intros H. split; [apply FP_MUL_one, H|]. split; [|apply FP_DIV_one, H].
  unfold FP_MUL. rewrite Z.mul_comm. apply (FP_MUL_one a H).
Qed.

Lemma FP_MUL_DIV_one_witness :
  FP_MUL (-98765) (FP_FIX 1) = -98765 /\
  FP_MUL (FP_FIX 1) (-98765) = -98765 /\
  FP_DIV (-98765) (FP_FIX 1) = Some (-98765).
Proof. apply (FP_MUL_DIV_one (-98765)). vm_compute. split; discriminate. Defined.

(** X3.  On a non-negative value [FP_RND] rounds to the nearest integer,
    halves upward: the result [r] has [-1/2 <= a/65536 - r < 1/2]. *)
Theorem FP_RND_nearest a :
  0 <= a <= INT_MAX - 32768 ->
  0 <= FP_RND a /\ -32768 <= a - 65536 * FP_RND a < 32768.
Proof.
  unfold INT_MAX. change (2 ^ 31) with 2147483648. intros H.
  unfold FP_RND. change (shl32 1 (FP_SHIFT_BITS - 1)) with 32768.
  change FP_SHIFT_BITS with 16.
  destruct (a >=? 0) eqn:E; [|lia].
  rewrite (int32_small (a + 32768)) by (apply in_int32_bounds; lia).
  rewrite shr_16.
  pose proof (Z.div_mod (a + 32768) 65536 ltac:(lia)) as D.
  pose proof (Z.mod_pos_bound (a + 32768) 65536 ltac:(lia)) as B.
  assert (0 <= (a + 32768) / 65536 <= 32768).
  { split; [apply Z.div_pos; lia|].
    apply Z.div_le_upper_bound; lia. }
  rewrite int32_small by (apply in_int32_bounds; lia). lia.
Qed.

Lemma FP_RND_nearest_witness :
  0 <= FP_RND 98304 /\ -32768 <= 98304 - 65536 * FP_RND 98304 < 32768.
Proof. apply (FP_RND_nearest 98304). vm_compute. split; discriminate. Defined.

(** X4.  Adding an integer to a fixed-point value and subtracting it again
    gives the value back, for every 32-bit value and every integer, also
    when the sum in between wraps around; so do [FP_ADD] and [FP_SUB]. *)
Theorem FP_ADDI_SUBI_inverse a n b :
  in_int32 a ->
  FP_SUBI (FP_ADDI a n) n = a /\ FP_ADDI (FP_SUBI a n) n = a /\
  FP_SUB (FP_ADD a b) b = a.
Proof.
  intros H. unfold FP_SUBI, FP_ADDI, FP_SUB, FP_ADD.
  rewrite int32_sub_l, int32_add_l, int32_sub_l.
  replace (a + shl32 n FP_SHIFT_BITS - shl32 n FP_SHIFT_BITS) with a by lia.
  replace (a - shl32 n FP_SHIFT_BITS + shl32 n FP_SHIFT_BITS) with a by lia.
  replace (a + b - b) with a by lia.
  rewrite (int32_small a H). repeat split; reflexivity.
Qed.

Lemma FP_ADDI_SUBI_inverse_witness :
  FP_SUBI (FP_ADDI 2147483647 40000) 40000 = 2147483647 /\
  FP_ADDI (FP_SUBI 2147483647 40000) 40000 = 2147483647 /\
  FP_SUB (FP_ADD 2147483647 5) 5 = 2147483647.
Proof.
  apply (FP_ADDI_SUBI_inverse 2147483647 40000 5).
  vm_compute. split; discriminate.
Defined.

(** X5.  The macros that take two integers agree with converting first,
    whatever the integers are: [FP_IADDI], [FP_ISUBI] and [FP_IMULI] give
    the fixed-point image of the sum, the difference and the product
    ([FP_FIX] wraps the way they do), and [FP_IADD] is [FP_ADDI] with its
    arguments exchanged. *)
Theorem FP_int_macros m n a :
  FP_IADDI m n = FP_FIX (m + n) /\
  FP_ISUBI m n = FP_FIX (m - n) /\
  FP_IMULI m n = FP_FIX (m * n) /\
  FP_IADD m a = FP_ADDI a m.
Proof.
  unfold FP_IADDI, FP_ISUBI, FP_IMULI, FP_IADD, FP_ADDI.
  fold (FP_FIX m). fold (FP_FIX n). rewrite !FP_FIX_mul.
  rewrite int32_add_l, int32_add_r, int32_sub_l, int32_sub_r, int32_mul_l.
  repeat split; f_equal; lia.
Qed.

(** X6.  Dividing two integers with [FP_IDIVI], or an integer by a
    fixed-point value with [FP_IDIV], is [FP_DIV] on the converted
    operands, as long as the conversions do not overflow: the same value
    where the division has one, and a trap on the same inputs, which are
    those with a zero divisor. *)
Theorem FP_IDIV_as_FP_DIV m n a :
  -32768 <= m <= 32767 -> -32768 <= n <= 32767 ->
  FP_IDIVI m n = FP_DIV (FP_FIX m) (FP_FIX n) /\
  FP_IDIV m a = FP_DIV (FP_FIX m) a /\
  (FP_IDIVI m n = None <-> n = 0) /\ (FP_IDIV m a = None <-> a = 0).
Proof.
  intros Hm Hn. unfold FP_IDIVI, FP_IDIV, FP_DIV.
  fold (FP_FIX n). rewrite (FP_FIX_small m Hm), (FP_FIX_small n Hn).
  assert (E : shl64 m (2 * FP_SHIFT_BITS) = shl64 (m * 65536) FP_SHIFT_BITS).
  { unfold shl64. change (2 * FP_SHIFT_BITS) with 32.
    change FP_SHIFT_BITS with 16. rewrite !Z.shiftl_mul_pow2 by lia.
    f_equal. change (2 ^ 32) with (65536 * 2 ^ 16). lia. }
  rewrite E. split; [reflexivity|]. split; [reflexivity|].
  assert (D : shl64 (m * 65536) FP_SHIFT_BITS <> - 2 ^ (64 - 1)).
  { unfold shl64. change FP_SHIFT_BITS with 16.
    rewrite Z.shiftl_mul_pow2 by lia. change (2 ^ 16) with 65536.
    rewrite int64_small by (apply in_int64_bounds; lia).
    change (- 2 ^ (64 - 1)) with (-9223372036854775808). lia. }
  apply Z.eqb_neq in D. unfold cdiv. rewrite D, !Bool.andb_false_r, !Bool.orb_false_r.
  split.
  - destruct (n * 65536 =? 0) eqn:Z0; cbn [option_map].
    + apply Z.eqb_eq in Z0. split; [lia | reflexivity].
    + apply Z.eqb_neq in Z0. split; [discriminate | lia].
  - destruct (a =? 0) eqn:Z0; cbn [option_map].
    + apply Z.eqb_eq in Z0. split; [intros _; exact Z0 | reflexivity].
    + apply Z.eqb_neq in Z0. split; [discriminate | contradiction].
Qed.

Lemma FP_IDIV_as_FP_DIV_witness :
  FP_IDIVI 7 (-60) = FP_DIV (FP_FIX 7) (FP_FIX (-60)) /\
  FP_IDIV 7 12345 = FP_DIV (FP_FIX 7) 12345 /\
  (FP_IDIVI 7 (-60) = None <-> -60 = 0) /\ (FP_IDIV 7 12345 = None <-> 12345 = 0).
Proof. apply (FP_IDIV_as_FP_DIV 7 (-60) 12345); lia. Defined.

End FixedPointMore.

(** ** MLFQS: the priority and the accessors *)

Section MlfqsMore.

(** X7.  For a thread with a non-negative [recent_cpu] and a niceness from 0
    to 20, [thread_mlfqs_update_priority] computes
    [PRI_MAX - recent_cpu / 4 - 2 * nice] on the fixed-point values, takes
    the integer part (rounding down) and raises it to [PRI_MIN] if it is
    below; the result lies in [PRI_MIN, PRI_MAX]. *)
Theorem thread_mlfqs_update_priority_in_range t s :
  thread_mlfqs s = true ->
  ptr_is t (idle_thread s) = false ->
  0 <= recent_cpu (threads s t) <= INT_MAX ->
  0 <= nice (threads s t) <= 20 ->
  exists s',
    thread_mlfqs_update_priority t s = Some s' /\
    priority (threads s' t)
      = Z.max PRI_MIN
          ((PRI_MAX * 65536 - Z.quot (recent_cpu (threads s t)) 4
            - 2 * nice (threads s t) * 65536) / 65536) /\
    PRI_MIN <= priority (threads s' t) <= PRI_MAX.
Proof.
  unfold INT_MAX. change (2 ^ 31) with 2147483648. intros Hm Hi Hr Hn.
  destruct (thread_mlfqs_update_priority_value t s Hm Hi) as (s' & E & P).
  exists s'. split; [exact E|]. rewrite P.
  set (rc := recent_cpu (threads s t)) in *.
  set (n := nice (threads s t)) in *.
  assert (Hq : 0 <= Z.quot rc 4 <= 536870911).
  { split; [apply Z.quot_pos; lia|].
    apply Z.lt_succ_r, Z.quot_lt_upper_bound; lia. }
  change (FP_FIX PRI_MIN) with 0. change (FP_FIX PRI_MAX) with 4128768.
  unfold FP_SUBI, FP_ISUB, FP_DIVI, FP_INT. change FP_SHIFT_BITS with 16.
  change (shl32 PRI_MAX 16) with 4128768.
  rewrite (int32_small (Z.quot rc 4)) by (apply in_int32_bounds; lia).
  rewrite (int32_small (2 * n)) by (apply in_int32_bounds; lia).
  rewrite shl32_16 by lia.
  rewrite (int32_small (4128768 - Z.quot rc 4))
    by (apply in_int32_bounds; lia).
  rewrite int32_small by (apply in_int32_bounds; lia).
  rewrite shr_16. unfold PRI_MAX, PRI_MIN.
  set (raw := (4128768 - Z.quot rc 4 - 2 * n * 65536) / 65536).
  assert (Hraw : raw <= 63).
  { subst raw. apply Z.lt_succ_r, Z.div_lt_upper_bound; lia. }
  replace ((63 * 65536 - Z.quot rc 4 - 2 * n * 65536) / 65536) with raw
    by (subst raw; f_equal).
  unfold MIN, MAX.
  destruct (raw >? 0) eqn:A.
  - destruct (raw <? 4128768) eqn:B; lia.
  - change (0 <? 4128768) with true. cbv iota. lia.
Qed.

Lemma thread_mlfqs_update_priority_in_range_witness :
  exists s',
    thread_mlfqs_update_priority 3 ex_tick = Some s' /\
    priority (threads s' 3)
      = Z.max PRI_MIN
          ((PRI_MAX * 65536 - Z.quot (recent_cpu (threads ex_tick 3)) 4
            - 2 * nice (threads ex_tick 3) * 65536) / 65536) /\
    PRI_MIN <= priority (threads s' 3) <= PRI_MAX.
Proof.
  apply (thread_mlfqs_update_priority_in_range 3 ex_tick);
    [reflexivity | reflexivity | vm_compute; split; discriminate
    | vm_compute; split; discriminate].
Defined.

(** X8.  [thread_get_load_avg] returns 100 times the load average rounded
    to the nearest integer, for every non-negative load average up to 327
    (beyond, the multiplication by 100 overflows). *)
Theorem thread_get_load_avg_rounds s :
  0 <= load_avg s <= 21474000 ->
  -32768 <= 100 * load_avg s - 65536 * thread_get_load_avg s < 32768.
Proof.
  intros H. unfold thread_get_load_avg, FP_MULI.
  rewrite int32_small by (apply in_int32_bounds; lia).
  unfold FP_RND. change (shl32 1 (FP_SHIFT_BITS - 1)) with 32768.
  change FP_SHIFT_BITS with 16.
  destruct (load_avg s * 100 >=? 0) eqn:E; [|lia].
  rewrite (int32_small (load_avg s * 100 + 32768))
    by (apply in_int32_bounds; lia).
  rewrite shr_16.
  pose proof (Z.div_mod (load_avg s * 100 + 32768) 65536 ltac:(lia)) as D.
  pose proof (Z.mod_pos_bound (load_avg s * 100 + 32768) 65536 ltac:(lia)).
  assert (0 <= (load_avg s * 100 + 32768) / 65536 <= 32768).
  { split; [apply Z.div_pos; lia|].
    apply Z.div_le_upper_bound; lia. }
  rewrite int32_small by (apply in_int32_bounds; lia). lia.
Qed.

Lemma thread_get_load_avg_rounds_witness :
  -32768 <= 100 * load_avg ex_tick - 65536 * thread_get_load_avg ex_tick
  < 32768.
Proof.
  apply (thread_get_load_avg_rounds ex_tick). vm_compute.
  split; discriminate.
Defined.

End MlfqsMore.

(** ** What a context switch leaves alone *)

(** [s'] differs from [s] at most in the ready list, the running thread,
    the time-slice counter and the [status] members. *)
Record dispatch_frame (s s' : sched) : Prop := mk_dispatch_frame {
  df_all_list : all_list s' = all_list s;
  df_sleep_list : sleep_list s' = sleep_list s;
  df_next_tid : next_tid s' = next_tid s;
  df_idle_thread : idle_thread s' = idle_thread s;
  df_initial_thread : initial_thread s' = initial_thread s;
  df_thread_mlfqs : thread_mlfqs s' = thread_mlfqs s;
  df_lock_priority : lock_priority s' = lock_priority s;
  df_ticks : ticks s' = ticks s;
  df_idle_ticks : idle_ticks s' = idle_ticks s;
  df_kernel_ticks : kernel_ticks s' = kernel_ticks s;
  df_load_avg : load_avg s' = load_avg s;
  df_yield_on_return : yield_on_return s' = yield_on_return s;
  df_threads :
    forall p, set_status THREAD_RUNNING (threads s' p)
              = set_status THREAD_RUNNING (threads s p)
}.

Section DispatchFrame.

Lemma dispatch_frame_refl s : dispatch_frame s s.
Proof. constructor; reflexivity. Qed.

Lemma dispatch_frame_trans s1 s2 s3 :
  dispatch_frame s1 s2 -> dispatch_frame s2 s3 -> dispatch_frame s1 s3.
Proof.
  intros [] []. constructor; congruence.
Qed.

Lemma dispatch_frame_status t st s :
  dispatch_frame s (store t (set_status st) s).
Proof.
  constructor; try reflexivity. intros p. cbn.
  destruct (p =? t); reflexivity.
Qed.

Lemma dispatch_frame_ready l s : dispatch_frame s (with_ready_list l s).
Proof. constructor; reflexivity. Qed.

Lemma dispatch_frame_data s s' p :
  dispatch_frame s s' ->
  tid (threads s' p) = tid (threads s p) /\
  priority (threads s' p) = priority (threads s p) /\
  base_priority (threads s' p) = base_priority (threads s p) /\
  locks (threads s' p) = locks (threads s p) /\
  nice (threads s' p) = nice (threads s p) /\
  recent_cpu (threads s' p) = recent_cpu (threads s p) /\
  ticks_sleep (threads s' p) = ticks_sleep (threads s p).
Proof.
  intros F. pose proof (df_threads s s' F p) as E.
  destruct (threads s' p), (threads s p). cbn in E.
  injection E as -> -> -> -> -> -> ->. repeat split; reflexivity.
Qed.

Lemma schedule_frame s s' : schedule s = Some s' -> dispatch_frame s s'.
Proof.
  unfold schedule, next_thread_to_run.
  destruct (ready_list s) as [|h rest]; cbn [threads with_ready_list];
    destruct (negb (status_eqb (status (threads s (running_thread s)))
                               THREAD_RUNNING)); try discriminate.
  - destruct (idle_thread s) as [i|] eqn:Ei; [|discriminate]. intros [= <-].
    constructor; try reflexivity. intros p. cbn.
    destruct (p =? i); reflexivity.
  - intros [= <-]. constructor; try reflexivity. intros p. cbn.
    destruct (p =? h); reflexivity.
Qed.

Lemma thread_yield_frame s s' :
  thread_yield s = Some s' -> dispatch_frame s s'.
Proof.
  unfold thread_yield. destruct (thread_current s) as [cur|]; [|discriminate].
  intros H. apply schedule_frame in H.
  eapply dispatch_frame_trans; [|exact H].
  eapply dispatch_frame_trans; [|apply dispatch_frame_status].
  destruct (negb (ptr_is cur (idle_thread s)));
    [apply dispatch_frame_ready | apply dispatch_frame_refl].
Qed.

Lemma thread_block_frame s s' :
  thread_block s = Some s' -> dispatch_frame s s'.
Proof.
  unfold thread_block. destruct (thread_current s) as [cur|]; [|discriminate].
  intros H. apply schedule_frame in H.
  eapply dispatch_frame_trans; [apply dispatch_frame_status | exact H].
Qed.

Lemma thread_unblock_frame t s s' :
  thread_unblock t s = Some s' -> dispatch_frame s s'.
Proof.
  unfold thread_unblock.
  destruct (status_eqb (status (threads s t)) THREAD_BLOCKED);
    [|discriminate]. intros [= <-].
  eapply dispatch_frame_trans;
    [apply dispatch_frame_ready | apply dispatch_frame_status].
Qed.

(** With well-formed lists and something to run, [schedule] returns. *)
Lemma schedule_total s :
  status (threads s (running_thread s)) <> THREAD_RUNNING ->
  ready_list s <> [] \/ idle_thread s <> None ->
  exists s', schedule s = Some s'.
Proof.
  intros Hs Hn. destruct (ready_list s) as [|h rest] eqn:El.
  - rewrite (schedule_idle s El Hs).
    destruct (idle_thread s); [eexists; reflexivity|].
    destruct Hn; contradiction.
  - rewrite (schedule_pop s h rest El Hs). eexists. reflexivity.
Qed.

End DispatchFrame.

(** ** The thread lists on the states the kernel goes through *)

Section ListsMore.

(** X9.  In every state the kernel goes through, the running thread is a
    live thread in state [THREAD_RUNNING] that is in neither the ready list
    nor the sleep list; no thread is twice in these lists or in both; the
    threads of the ready list are live and [THREAD_READY], those of the
    sleep list live and [THREAD_BLOCKED]. *)
Theorem thread_lists_exclusive s :
  reachable s ->
  status (threads s (running_thread s)) = THREAD_RUNNING /\
  In (running_thread s) (all_list s) /\
  ~ In (running_thread s) (ready_list s ++ sleep_list s) /\
  NoDup (ready_list s ++ sleep_list s) /\
  (forall t, In t (ready_list s) ->
     status (threads s t) = THREAD_READY /\ In t (all_list s)) /\
  (forall t, In t (sleep_list s) ->
     status (threads s t) = THREAD_BLOCKED /\ In t (all_list s)).
Proof.
  intros R. apply reachable_wf in R. pose proof R as [Hr Hl WL].
  split; [exact Hr|]. split; [exact Hl|]. split; [|split; [|split]].
  - intros H. apply in_app_or in H. destruct H as [H|H].
    + exact (running_not_ready s R H).
    + exact (running_not_asleep s R H).
  - apply NoDup_app.
    + apply (wfl_ready_nodup s WL).
    + apply (wfl_sleep_nodup s WL).
    + intros t H1 H2. pose proof (wfl_ready_status s WL t H1).
      pose proof (wfl_sleep_status s WL t H2). congruence.
  - intros t H. split; [apply (wfl_ready_status s WL t H)|].
    apply (wfl_ready_live s WL t H).
  - intros t H. split; [apply (wfl_sleep_status s WL t H)|].
    apply (wfl_sleep_live s WL t H).
Qed.

Lemma thread_lists_exclusive_witness :
  status (threads nap2 (running_thread nap2)) = THREAD_RUNNING /\
  In (running_thread nap2) (all_list nap2) /\
  ~ In (running_thread nap2) (ready_list nap2 ++ sleep_list nap2) /\
  NoDup (ready_list nap2 ++ sleep_list nap2) /\
  (forall t, In t (ready_list nap2) ->
     status (threads nap2 t) = THREAD_READY /\ In t (all_list nap2)) /\
  (forall t, In t (sleep_list nap2) ->
     status (threads nap2 t) = THREAD_BLOCKED /\ In t (all_list nap2)).
Proof. apply (thread_lists_exclusive nap2), nap2_reachable. Defined.

(** X10.  In every state the kernel goes through [thread_tid] returns, and
    looking its result up with [thread_from_tid] gives the running
    thread. *)
Theorem thread_from_tid_thread_tid s :
  reachable s ->
  exists id,
    thread_tid s = Some id /\
    thread_from_tid id s = Some (running_thread s).
Proof.
  intros R. apply reachable_wf in R. pose proof R as [Hr Hl WL].
  exists (tid (threads s (running_thread s))). split.
  - unfold thread_tid. rewrite (thread_current_wf s R). reflexivity.
  - apply thread_from_tid_loop_found;
      [apply (wfl_tid_nodup s WL) | exact Hl | reflexivity].
Qed.

Lemma thread_from_tid_thread_tid_witness :
  exists id,
    thread_tid nap2 = Some id /\
    thread_from_tid id nap2 = Some (running_thread nap2).
Proof. apply (thread_from_tid_thread_tid nap2), nap2_reachable. Defined.

End ListsMore.

(** ** Creating, looking up and ending threads *)

Section Lifecycle.

Lemma thread_yield_total s :
  status (threads s (running_thread s)) = THREAD_RUNNING ->
  exists s', thread_yield s = Some s'.
Proof.
  intros R. rewrite (thread_yield_unfold s R).
  destruct (ptr_is (running_thread s) (idle_thread s)) eqn:Ei; cbn [negb];
    apply schedule_total.
  - rewrite threads_store_same. cbn. discriminate.
  - right. cbn. destruct (idle_thread s); [discriminate|].
    cbn in Ei. discriminate.
  - change (running_thread (store _ _ _)) with (running_thread s).
    rewrite threads_store_same. cbn. discriminate.
  - left. cbn. intros E.
    pose proof (proj2 (list_insert_ordered_In
      (thread_cmp_priority (threads s) true) (running_thread s)
      (running_thread s) (ready_list s)) (or_introl eq_refl)) as H.
    rewrite E in H. destruct H.
Qed.

Lemma schedule_status s s' p :
  schedule s = Some s' -> p <> running_thread s' ->
  status (threads s' p) = status (threads s p).
Proof.
  unfold schedule, next_thread_to_run.
  destruct (ready_list s) as [|h rest]; cbn [threads with_ready_list];
    destruct (negb (status_eqb (status (threads s (running_thread s)))
                               THREAD_RUNNING)); try discriminate.
  - destruct (idle_thread s) as [i|]; [|discriminate]. intros [= <-].
    cbn. intros H. apply Z.eqb_neq in H. rewrite H. reflexivity.
  - intros [= <-]. cbn. intros H. apply Z.eqb_neq in H. rewrite H.
    reflexivity.
Qed.

Lemma schedule_keeps_ready s s' x :
  schedule s = Some s' -> In x (ready_list s) ->
  x = running_thread s' \/ In x (ready_list s').
Proof.
  intros E Hx. destruct (schedule_ready s s' E) as [_ H].
  destruct (ready_list s) as [|h rest]; [destruct Hx|].
  destruct H as [-> ->]. destruct Hx; auto.
Qed.

Lemma thread_yield_keeps_ready s s' x :
  thread_yield s = Some s' -> In x (ready_list s) ->
  x = running_thread s' \/ In x (ready_list s').
Proof.
  unfold thread_yield. destruct (thread_current s) as [cur|]; [|discriminate].
  intros E Hx. apply (schedule_keeps_ready _ _ x E).
  destruct (negb (ptr_is cur (idle_thread s))); cbn; [|exact Hx].
  apply list_insert_ordered_In. right. exact Hx.
Qed.

Lemma thread_from_tid_loop_absent m l id :
  (forall t, In t l -> tid (m t) <> id) -> thread_from_tid_loop m l id = None.
Proof.
  induction l as [|e l IH]; simpl; intros H; [reflexivity|].
  destruct (tid (m e) =? id) eqn:E.
  - apply Z.eqb_eq in E. exfalso. apply (H e); auto.
  - apply IH. intros t Ht. apply H. auto.
Qed.

(** X11.  In a state the kernel goes through, [thread_create] with a free
    page and a priority of the range returns the tid it takes from the
    counter; afterwards [thread_from_tid] finds the new thread under that
    tid and every thread that was live under its old tid; the new thread has
    the priority asked for and is either in the ready list, [THREAD_READY],
    or running. *)
Theorem thread_create_lookup prio t pos s :
  reachable s ->
  PRI_MIN <= prio <= PRI_MAX ->
  ~ In t (all_list s) ->
  next_tid s < INT_MAX ->
  exists s',
    thread_create prio (Some t) pos s = Some (next_tid s, s') /\
    next_tid s' = next_tid s + 1 /\
    thread_from_tid (next_tid s) s' = Some t /\
    (forall u, In u (all_list s) ->
       thread_from_tid (tid (threads s u)) s' = Some u) /\
    priority (threads s' t) = prio /\ base_priority (threads s' t) = prio /\
    (In t (ready_list s') /\ status (threads s' t) = THREAD_READY
     \/ running_thread s' = t).
Proof.
  intros R Hp Hf Hn. apply reachable_wf in R.
  pose proof (wf_spawned t prio pos s R Hf Hn) as W3.
  set (s3 := spawned t prio pos s) in *.
  assert (E4 : exists s4, thread_unblock t s3 = Some s4).
  { unfold thread_unblock. subst s3. rewrite spawned_same. cbn.
    eexists. reflexivity. }
  destruct E4 as (s4 & E4).
  assert (W4 : wf s4).
  { pose proof R as [_ _ WL].
    eapply (wf_thread_unblock t s3 s4 W3); [| | |exact E4].
    - cbn. apply (Permutation_in _ (Permutation_sym (insert_at_perm pos t _))).
      left. reflexivity.
    - cbn. intros H. apply Hf, (wfl_sleep_live s WL), H.
    - cbn. destruct (idle_thread s) as [i|] eqn:Ei; [|reflexivity].
      cbn. apply Z.eqb_neq. intros ->.
      destruct (wfl_idle s WL i Ei) as (_ & _ & C). contradiction. }
  pose proof (thread_unblock_frame t s3 s4 E4) as F4.
  assert (Hready4 : In t (ready_list s4)).
  { unfold thread_unblock in E4.
    destruct (status_eqb (status (threads s3 t)) THREAD_BLOCKED);
      [|discriminate].
    injection E4 as <-. cbn. apply list_insert_ordered_In. left. reflexivity. }
  assert (Hfinal : exists s',
    thread_create prio (Some t) pos s = Some (next_tid s, s') /\
    wf s' /\ dispatch_frame s3 s' /\
    (In t (ready_list s') \/ running_thread s' = t)).
  { rewrite thread_create_unfold.
    assert ((PRI_MIN <=? prio) && (prio <=? PRI_MAX) = true) as -> by lia.
    fold s3. rewrite E4, (thread_current_wf s4 W4).
    destruct (prio >? priority (threads s4 (running_thread s4))).
    - destruct (thread_yield_total s4 (wf_running s4 W4)) as (s5 & E5).
      rewrite E5. exists s5. split; [reflexivity|].
      split; [eapply wf_thread_yield; eassumption|].
      split; [eapply dispatch_frame_trans;
              [exact F4 | apply thread_yield_frame, E5]|].
      destruct (thread_yield_keeps_ready s4 s5 t E5 Hready4); auto.
    - exists s4. split; [reflexivity|]. split; [exact W4|].
      split; [exact F4|]. left. exact Hready4. }
  destruct Hfinal as (s' & E & W' & F & Hwhere).
  exists s'. split; [exact E|].
  pose proof (next_tid_pos s R) as Hpos.
  assert (Etid : forall u, tid (threads s' u) = tid (threads s3 u))
    by (intros u; apply (dispatch_frame_data s3 s' u F)).
  assert (Hall : forall u, In u (all_list s') <-> u = t \/ In u (all_list s)).
  { intros u. rewrite (df_all_list s3 s' F). cbn. split; intros H.
    - apply (Permutation_in _ (insert_at_perm pos t (all_list s))) in H.
      destruct H; auto.
    - apply (Permutation_in _ (Permutation_sym (insert_at_perm pos t _))).
      destruct H; [left|right]; auto. }
  pose proof (wfl_tid_nodup s' (wf_wf_lists s' W')) as N.
  split.
  { rewrite (df_next_tid s3 s' F). cbn. apply int32_small, in_int32_bounds.
    unfold INT_MAX in Hn. change (2 ^ 31) with 2147483648 in Hn. lia. }
  split.
  { apply thread_from_tid_loop_found; [exact N | apply Hall; auto |].
    rewrite Etid. subst s3. rewrite spawned_same. reflexivity. }
  split.
  { intros u Hu. apply thread_from_tid_loop_found;
      [exact N | apply Hall; auto |].
    rewrite Etid. subst s3. apply f_equal, spawned_other.
    intros ->. contradiction. }
  destruct (dispatch_frame_data s3 s' t F) as (_ & Ep & Eb & _).
  split; [rewrite Ep; subst s3; rewrite spawned_same; reflexivity|].
  split; [rewrite Eb; subst s3; rewrite spawned_same; reflexivity|].
  destruct Hwhere as [H|H]; [left|right; exact H].
  split; [exact H|]. apply (wfl_ready_status s' (wf_wf_lists s' W') t H).
Qed.

Lemma thread_create_lookup_witness :
  exists s',
    thread_create 40 (Some 3) 0 boot5 = Some (next_tid boot5, s') /\
    next_tid s' = next_tid boot5 + 1 /\
    thread_from_tid (next_tid boot5) s' = Some 3 /\
    (forall u, In u (all_list boot5) ->
       thread_from_tid (tid (threads boot5 u)) s' = Some u) /\
    priority (threads s' 3) = 40 /\ base_priority (threads s' 3) = 40 /\
    (In 3 (ready_list s') /\ status (threads s' 3) = THREAD_READY
     \/ running_thread s' = 3).
Proof.
  apply (thread_create_lookup 40 3 0 boot5).
  - apply boot5_reachable.
  - vm_compute. split; discriminate.
  - vm_compute. intros [H|[H|[]]]; discriminate H.
  - vm_compute. reflexivity.
Defined.

(** X12.  When the running thread (not the idle thread) exits in a state
    the kernel goes through, it is marked [THREAD_DYING], another thread
    runs, [thread_from_tid] no longer finds a thread under its tid, and
    still finds every other live thread under its own. *)
Theorem thread_exit_lookup s s' :
  reachable s ->
  ptr_is (running_thread s) (idle_thread s) = false ->
  thread_exit s = Some s' ->
  let t := running_thread s in
  status (threads s' t) = THREAD_DYING /\
  running_thread s' <> t /\
  thread_from_tid (tid (threads s t)) s' = None /\
  (forall u, In u (all_list s) -> u <> t ->
     thread_from_tid (tid (threads s u)) s' = Some u).
Proof.
  intros R Hi E t. apply reachable_wf in R.
  pose proof (wf_thread_exit s s' R Hi E) as W'.
  pose proof R as [Hr Hl WL].
  rewrite (thread_exit_unfold s R) in E.
  cbv zeta in E. fold t in E.
  set (mid := store t (set_status THREAD_DYING)
                (with_all_list (unlink t (all_list s)) s)) in *.
  pose proof (schedule_frame mid s' E) as F.
  assert (Eall : all_list s' = unlink t (all_list s))
    by (rewrite (df_all_list mid s' F); reflexivity).
  assert (Etid : forall u, tid (threads s' u) = tid (threads s u)).
  { intros u. destruct (dispatch_frame_data mid s' u F) as (-> & _).
    subst mid. cbn. destruct (u =? t); reflexivity. }
  assert (Hrun : running_thread s' <> t).
  { intros H. pose proof (wf_running_live s' W') as L'.
    rewrite Eall, H in L'.
    exact (unlink_not_In t (all_list s) (wfl_all_nodup s WL) L'). }
  split.
  { rewrite (schedule_status mid s' t E) by auto.
    subst mid. rewrite threads_store_same. reflexivity. }
  split; [exact Hrun|]. split.
  - apply thread_from_tid_loop_absent. rewrite Eall. intros u Hu.
    rewrite Etid. intros Heq.
    assert (u = t).
    { pose proof (wfl_tid_nodup s WL) as N.
      pose proof (thread_from_tid_loop_found (threads s) (all_list s) _ u N
                    (unlink_In _ _ _ Hu) Heq) as E1.
      pose proof (thread_from_tid_loop_found (threads s) (all_list s) _ t N
                    Hl eq_refl) as E2.
      congruence. }
    subst u. exact (unlink_not_In t (all_list s) (wfl_all_nodup s WL) Hu).
  - intros u Hu Hne. apply thread_from_tid_loop_found.
    + apply (wfl_tid_nodup s' (wf_wf_lists s' W')).
    + rewrite Eall. apply unlink_In_other; assumption.
    + apply Etid.
Qed.

Lemma thread_exit_lookup_witness :
  let s := nap0 in
  let s' := after (thread_exit nap0) in
  let t := running_thread s in
  status (threads s' t) = THREAD_DYING /\
  running_thread s' <> t /\
  thread_from_tid (tid (threads s t)) s' = None /\
  (forall u, In u (all_list s) -> u <> t ->
     thread_from_tid (tid (threads s u)) s' = Some u).
Proof.
  apply (thread_exit_lookup nap0 (after (thread_exit nap0))).
  - apply nap0_reachable.
  - vm_compute. reflexivity.
  - apply after_Some. vm_compute. reflexivity.
Defined.

End Lifecycle.

(** ** Yielding and sleeping *)

Section YieldSleep.

Lemma list_insert_ordered_back (key : ptr -> Z) x l :
  Forall (fun r => key x <= key r) l ->
  list_insert_ordered (desc key) x l = l ++ [x].
Proof.
  induction 1 as [|e l He _ IH]; simpl; [reflexivity|].
  unfold desc at 1. destruct (key x >? key e) eqn:G; [lia|].
  rewrite IH. reflexivity.
Qed.

(** X13.  Round robin: when the running thread (not the idle thread) yields
    and no ready thread has a lower priority than it, the front of the ready
    list gets the CPU and the yielding thread goes to the back of the ready
    list, behind all the others. *)
Theorem thread_yield_round_robin s h rest :
  status (threads s (running_thread s)) = THREAD_RUNNING ->
  ptr_is (running_thread s) (idle_thread s) = false ->
  ready_list s = h :: rest ->
  Forall (fun r => priority (threads s (running_thread s))
                   <= priority (threads s r)) (h :: rest) ->
  exists s',
    thread_yield s = Some s' /\
    running_thread s' = h /\
    ready_list s' = rest ++ [running_thread s] /\
    status (threads s' h) = THREAD_RUNNING /\
    (h <> running_thread s ->
     status (threads s' (running_thread s)) = THREAD_READY).
Proof.
  intros Hr Hi El Hf.
  assert (Hh : priority (threads s (running_thread s))
               <= priority (threads s h)) by (inversion Hf; assumption).
  destruct (thread_yield_outranked s h rest Hr Hi El Hh) as (s' & E & A & B).
  exists s'. split; [exact E|]. split; [exact A|]. split.
  { rewrite B.
    apply (list_insert_ordered_back (fun p => priority (threads s p))).
    inversion Hf; assumption. }
  rewrite (thread_yield_unfold s Hr), Hi in E. cbn [negb] in E.
  split.
  - unfold schedule, next_thread_to_run in E.
    destruct (ready_list (store _ _ _)) as [|h' rest'] eqn:El';
      destruct (negb _); try discriminate.
    + destruct (idle_thread _) as [i|]; [|discriminate].
      injection E as <-. cbn in A. subst i. cbn. rewrite Z.eqb_refl.
      reflexivity.
    + injection E as <-. cbn in A. subst h'. cbn. rewrite Z.eqb_refl.
      reflexivity.
  - intros Hne. rewrite (schedule_status _ s' (running_thread s) E)
      by (rewrite A; auto).
    rewrite threads_store_same. reflexivity.
Qed.

Lemma thread_yield_round_robin_witness :
  exists s',
    thread_yield ex_rr = Some s' /\
    running_thread s' = 3 /\
    ready_list s' = [] ++ [running_thread ex_rr] /\
    status (threads s' 3) = THREAD_RUNNING /\
    (3 <> running_thread ex_rr ->
     status (threads s' (running_thread ex_rr)) = THREAD_READY).
Proof.
  apply (thread_yield_round_robin ex_rr 3 []);
    [reflexivity | reflexivity | reflexivity |].
  constructor; [vm_compute; discriminate | constructor].
Defined.

(** What [thread_sleep] leaves behind. *)
Lemma thread_sleep_result tks s s' :
  wf s -> ptr_is (running_thread s) (idle_thread s) = false ->
  thread_sleep tks s = Some s' ->
  In (running_thread s) (sleep_list s') /\
  ticks_sleep (threads s' (running_thread s)) = tks /\
  (forall u, In u (sleep_list s) ->
     In u (sleep_list s') /\
     ticks_sleep (threads s' u) = ticks_sleep (threads s u)).
Proof.
  intros W Hi E. pose proof W as [R _ _].
  rewrite (thread_sleep_unfold tks s R) in E. cbv zeta in E.
  pose proof (schedule_frame _ _ E) as F.
  split; [|split].
  - rewrite (df_sleep_list _ _ F). cbn. apply list_insert_ordered_In.
    left. reflexivity.
  - destruct (dispatch_frame_data _ _ (running_thread s) F)
      as (_ & _ & _ & _ & _ & _ & ->).
    cbn. rewrite Z.eqb_refl. reflexivity.
  - intros u Hu. split.
    + rewrite (df_sleep_list _ _ F). cbn. apply list_insert_ordered_In.
      right. exact Hu.
    + destruct (dispatch_frame_data _ _ u F)
        as (_ & _ & _ & _ & _ & _ & ->).
      cbn. destruct (u =? running_thread s) eqn:Eu; [|reflexivity].
      apply Z.eqb_eq in Eu. subst u.
      exfalso. exact (running_not_asleep s W Hu).
Qed.

(** X14.  Sleeping and waking compose: after the running thread (not the
    idle thread) has called [thread_sleep] with a deadline, it is blocked in
    the sleep list and another thread runs; a [thread_foreach_wake] before
    the deadline leaves it blocked there, and one at or after the deadline
    takes it out and makes it ready. *)
Theorem thread_sleep_then_wake deadline now s s1 :
  reachable s ->
  ptr_is (running_thread s) (idle_thread s) = false ->
  thread_sleep deadline s = Some s1 ->
  let t := running_thread s in
  In t (sleep_list s1) /\ status (threads s1 t) = THREAD_BLOCKED /\
  running_thread s1 <> t /\
  exists s2,
    thread_foreach_wake now s1 = Some s2 /\
    (now < deadline ->
     In t (sleep_list s2) /\ status (threads s2 t) = THREAD_BLOCKED /\
     ~ In t (ready_list s2)) /\
    (deadline <= now ->
     In t (ready_list s2) /\ status (threads s2 t) = THREAD_READY /\
     ~ In t (sleep_list s2)).
Proof.
  intros R Hi E t. apply reachable_wf in R.
  pose proof (wf_thread_sleep deadline s s1 R Hi E) as W1.
  destruct (thread_sleep_result deadline s s1 R Hi E) as (Hin & Hk & _).
  fold t in Hin, Hk.
  pose proof (wfl_sleep_status s1 (wf_wf_lists s1 W1) t Hin) as Hb.
  split; [exact Hin|]. split; [exact Hb|]. split.
  { intros H. pose proof (wf_running s1 W1) as Hr. rewrite H in Hr.
    congruence. }
  destruct (thread_foreach_wake_spec now s1 W1)
    as (s2 & E2 & W2 & S2 & P2 & F2 & D2).
  exists s2. split; [exact E2|]. split.
  - intros Hlt.
    assert (Hin2 : In t (sleep_list s2)).
    { rewrite S2. apply filter_In. split; [exact Hin|]. rewrite Hk. lia. }
    split; [exact Hin2|].
    pose proof (wfl_sleep_status s2 (wf_wf_lists s2 W2) t Hin2) as Hb2.
    split; [exact Hb2|]. intros H.
    pose proof (wfl_ready_status s2 (wf_wf_lists s2 W2) t H). congruence.
  - intros Hle. destruct (D2 t Hin) as [Hs _]; [rewrite Hk; exact Hle|].
    split; [|split; [exact Hs|]].
    + apply (Permutation_in _ (Permutation_sym P2)), in_or_app. left.
      apply filter_In. split; [exact Hin|]. rewrite Hk. lia.
    + rewrite S2. intros H. apply filter_In in H. rewrite Hk in H. lia.
Qed.

Lemma thread_sleep_then_wake_witness :
  let t := running_thread nap0 in
  In t (sleep_list nap1) /\ status (threads nap1 t) = THREAD_BLOCKED /\
  running_thread nap1 <> t /\
  exists s2,
    thread_foreach_wake 100 nap1 = Some s2 /\
    (100 < 100 ->
     In t (sleep_list s2) /\ status (threads s2 t) = THREAD_BLOCKED /\
     ~ In t (ready_list s2)) /\
    (100 <= 100 ->
     In t (ready_list s2) /\ status (threads s2 t) = THREAD_READY /\
     ~ In t (sleep_list s2)).
Proof.
  apply (thread_sleep_then_wake 100 100 nap0 nap1).
  - apply nap0_reachable.
  - vm_compute. reflexivity.
  - apply after_Some. vm_compute. reflexivity.
Defined.

End YieldSleep.

(** ** The timer tick *)

(** [s'] differs from [s] at most in [load_avg] and in the [recent_cpu] and
    [priority] members: what the MLFQS accounting writes. *)
Record mlfqs_frame (s s' : sched) : Prop := mk_mlfqs_frame {
  mf_ready_list : ready_list s' = ready_list s;
  mf_sleep_list : sleep_list s' = sleep_list s;
  mf_all_list : all_list s' = all_list s;
  mf_idle_thread : idle_thread s' = idle_thread s;
  mf_running_thread : running_thread s' = running_thread s;
  mf_next_tid : next_tid s' = next_tid s;
  mf_thread_mlfqs : thread_mlfqs s' = thread_mlfqs s;
  mf_lock_priority : lock_priority s' = lock_priority s;
  mf_ticks : ticks s' = ticks s;
  mf_idle_ticks : idle_ticks s' = idle_ticks s;
  mf_kernel_ticks : kernel_ticks s' = kernel_ticks s;
  mf_thread_ticks : thread_ticks s' = thread_ticks s;
  mf_yield_on_return : yield_on_return s' = yield_on_return s;
  mf_threads :
    forall p, set_priority 0 (set_recent_cpu 0 (threads s' p))
              = set_priority 0 (set_recent_cpu 0 (threads s p))
}.

(** [n] timer ticks in a row. *)
Fixpoint ticks_run (n : nat) (s : sched) : option sched :=
  match n with
  | O => Some s
  | S k => s1 <- thread_tick s ;; ticks_run k s1
  end.

Section Tick.

Lemma mlfqs_frame_refl s : mlfqs_frame s s.
Proof. constructor; reflexivity. Qed.

Lemma mlfqs_frame_trans s1 s2 s3 :
  mlfqs_frame s1 s2 -> mlfqs_frame s2 s3 -> mlfqs_frame s1 s3.
Proof.
  intros F1 F2. destruct F1, F2.
  constructor; first [congruence | intros p; etransitivity; eauto].
Qed.

Lemma mlfqs_frame_status s s' p :
  mlfqs_frame s s' -> status (threads s' p) = status (threads s p).
Proof.
  intros F. pose proof (mf_threads s s' F p) as E.
  destruct (threads s' p), (threads s p).
  unfold set_priority, set_recent_cpu in E. cbn in E |- *. congruence.
Qed.

Lemma mlfqs_frame_nice s s' p :
  mlfqs_frame s s' -> nice (threads s' p) = nice (threads s p).
Proof.
  intros F. pose proof (mf_threads s s' F p) as E.
  destruct (threads s' p), (threads s p).
  unfold set_priority, set_recent_cpu in E. cbn in E |- *. congruence.
Qed.

(** [frame_tac] settles [mlfqs_frame] between a state and one that differs
    from it by assignments to members the frame leaves open. *)
Ltac frame_tac :=
  constructor; try reflexivity; intros ?; cbn;
  repeat match goal with
         | |- context [?p =? ?t] => destruct (p =? t)
         end;
  reflexivity.

Lemma thread_mlfqs_update_priority_frame t s s' :
  thread_mlfqs_update_priority t s = Some s' -> mlfqs_frame s s'.
Proof.
  unfold thread_mlfqs_update_priority.
  destruct (thread_mlfqs s); [|discriminate].
  destruct (negb (ptr_is t (idle_thread s))); [|discriminate].
  rewrite FP_DIVI_4. intros [= <-]. frame_tac.
Qed.

Lemma update_recent_cpu_loop_mlfqs_frame l : forall s s',
  update_recent_cpu_loop l s = Some s' -> mlfqs_frame s s'.
Proof.
  induction l as [|t l IH]; intros s s'; simpl.
  - intros [= <-]. apply mlfqs_frame_refl.
  - destruct (negb (ptr_is t (idle_thread s))); [|apply IH].
    destruct (FP_DIV _ _) as [d|]; [|discriminate].
    match goal with
    | |- match thread_mlfqs_update_priority t ?s1 with _ => _ end = _ -> _ =>
        destruct (thread_mlfqs_update_priority t s1) as [s2|] eqn:E;
        [|discriminate];
        intros H; apply IH in H;
        apply thread_mlfqs_update_priority_frame in E;
        refine (mlfqs_frame_trans s s1 s' _ (mlfqs_frame_trans s1 s2 s' E H))
    end.
    frame_tac.
Qed.

Lemma thread_mlfqs_update_recent_cpu_frame s s' :
  thread_mlfqs_update_recent_cpu s = Some s' -> mlfqs_frame s s'.
Proof.
  unfold thread_mlfqs_update_recent_cpu, thread_mlfqs_update_load_avg.
  destruct (thread_mlfqs s); [|discriminate].
  destruct (thread_current s); [|discriminate].
  destruct (FP_DIVI _ _) as [a|]; [|discriminate].
  destruct (FP_IDIVI _ _) as [b|]; [|discriminate].
  intros H. apply update_recent_cpu_loop_mlfqs_frame in H.
  eapply mlfqs_frame_trans; [|exact H]. frame_tac.
Qed.

Lemma thread_mlfqs_increment_recent_cpu_mlfqs_frame s s' :
  thread_mlfqs_increment_recent_cpu s = Some s' -> mlfqs_frame s s'.
Proof.
  unfold thread_mlfqs_increment_recent_cpu.
  destruct (thread_mlfqs s); [|discriminate].
  destruct (thread_current s) as [cur|]; [|discriminate].
  destruct (ptr_is cur (idle_thread s)); intros [= <-];
    [apply mlfqs_frame_refl | frame_tac].
Qed.

(** The MLFQS part of [thread_tick]. *)
Definition tick_mlfqs (current : ptr) (s1 : sched) : option sched :=
  if thread_mlfqs s1 then
    s' <- thread_mlfqs_increment_recent_cpu s1 ;;
    if Z.rem (ticks s') TIMER_FREQ =? 0 then
      thread_mlfqs_update_recent_cpu s'
    else if (Z.rem (ticks s') 4 =? 0)
            && negb (ptr_is current (idle_thread s'))
    then thread_mlfqs_update_priority current s'
    else Some s'
  else Some s1.

Lemma tick_mlfqs_frame current s1 s2 :
  tick_mlfqs current s1 = Some s2 -> mlfqs_frame s1 s2.
Proof.
  unfold tick_mlfqs. destruct (thread_mlfqs s1);
    [|intros [= <-]; apply mlfqs_frame_refl].
  destruct (thread_mlfqs_increment_recent_cpu s1) as [s'|] eqn:E1;
    [|discriminate].
  apply thread_mlfqs_increment_recent_cpu_mlfqs_frame in E1.
  destruct (Z.rem (ticks s') TIMER_FREQ =? 0).
  - intros H. apply thread_mlfqs_update_recent_cpu_frame in H.
    eapply mlfqs_frame_trans; eassumption.
  - destruct ((Z.rem (ticks s') 4 =? 0)
              && negb (ptr_is current (idle_thread s'))).
    + intros H. apply thread_mlfqs_update_priority_frame in H.
      eapply mlfqs_frame_trans; eassumption.
    + intros [= <-]. exact E1.
Qed.

(** One tick that returns: it counts the tick for the running thread,
    advances the time-slice counter, asks for a yield when the slice is used
    up, and switches no thread. *)
Lemma thread_tick_effect s s' :
  status (threads s (running_thread s)) = THREAD_RUNNING ->
  thread_tick s = Some s' ->
    ticks s' = int64 (ticks s + 1) /\
    (if ptr_is (running_thread s) (idle_thread s)
     then idle_ticks s' = int64 (idle_ticks s + 1)
          /\ kernel_ticks s' = kernel_ticks s
     else idle_ticks s' = idle_ticks s
          /\ kernel_ticks s' = int64 (kernel_ticks s + 1)) /\
    thread_ticks s' = uint32 (thread_ticks s + 1) /\
    yield_on_return s'
      = (yield_on_return s || (uint32 (thread_ticks s + 1) >=? TIME_SLICE)) /\
    running_thread s' = running_thread s /\ ready_list s' = ready_list s /\
    thread_mlfqs s' = thread_mlfqs s /\
    (forall p, status (threads s' p) = status (threads s p)) /\
    idle_thread s' = idle_thread s.
Proof.
  intros Hr. unfold thread_tick, thread_current. rewrite Hr.
  cbn [status_eqb]. cbv zeta.
  set (cur := running_thread s).
  set (s1 := if ptr_is cur (idle_thread s) then _ else _).
  fold (tick_mlfqs cur s1).
  assert (P1 : mlfqs_frame
                 (with_tick_stats (ticks s1) (idle_ticks s1)
                                  (kernel_ticks s1) s) s1).
  { subst s1. destruct (ptr_is cur (idle_thread s)); constructor;
      reflexivity. }
  assert (Hr1 : status (threads s1 (running_thread s1)) = THREAD_RUNNING).
  { rewrite (mf_running_thread _ _ P1), (mlfqs_frame_status _ _ _ P1).
    exact Hr. }
  assert (Hc : cur = running_thread s1)
    by (rewrite (mf_running_thread _ _ P1); reflexivity).
  destruct (tick_mlfqs cur s1) as [s2|] eqn:E2; [|discriminate].
  pose proof (tick_mlfqs_frame cur s1 s2 E2) as F2.
  assert (Hstats : ticks s1 = int64 (ticks s + 1) /\
    (if ptr_is cur (idle_thread s)
     then idle_ticks s1 = int64 (idle_ticks s + 1)
          /\ kernel_ticks s1 = kernel_ticks s
     else idle_ticks s1 = idle_ticks s
          /\ kernel_ticks s1 = int64 (kernel_ticks s + 1))).
  { subst s1. destruct (ptr_is cur (idle_thread s)); repeat split. }
  destruct Hstats as (Ht & Hik).
  assert (Hik' :
    if ptr_is cur (idle_thread s)
    then idle_ticks s2 = int64 (idle_ticks s + 1)
         /\ kernel_ticks s2 = kernel_ticks s
    else idle_ticks s2 = idle_ticks s
         /\ kernel_ticks s2 = int64 (kernel_ticks s + 1)).
  { rewrite (mf_idle_ticks _ _ F2), (mf_kernel_ticks _ _ F2). exact Hik. }
  assert (Hyr : yield_on_return s2 = yield_on_return s)
    by (rewrite (mf_yield_on_return _ _ F2), (mf_yield_on_return _ _ P1);
        reflexivity).
  assert (Htt : thread_ticks s2 = thread_ticks s)
    by (rewrite (mf_thread_ticks _ _ F2), (mf_thread_ticks _ _ P1);
        reflexivity).
  assert (Hcommon :
    ticks s2 = int64 (ticks s + 1) /\ running_thread s2 = running_thread s /\
    ready_list s2 = ready_list s /\ thread_mlfqs s2 = thread_mlfqs s /\
    (forall p, status (threads s2 p) = status (threads s p)) /\
    idle_thread s2 = idle_thread s).
  { rewrite (mf_ticks _ _ F2), (mf_running_thread _ _ F2),
      (mf_ready_list _ _ F2), (mf_thread_mlfqs _ _ F2),
      (mf_idle_thread _ _ F2),
      (mf_running_thread _ _ P1), (mf_ready_list _ _ P1),
      (mf_thread_mlfqs _ _ P1), (mf_idle_thread _ _ P1).
    repeat split; try assumption. intros p.
    rewrite (mlfqs_frame_status _ _ _ F2), (mlfqs_frame_status _ _ _ P1).
    reflexivity. }
  destruct Hcommon as (C1 & C2 & C3 & C4 & C5 & C6).
  rewrite Htt.
  destruct (uint32 (thread_ticks s + 1) >=? TIME_SLICE) eqn:G;
    intros [= <-]; cbn;
    rewrite ?Bool.orb_true_r, ?Bool.orb_false_r;
    repeat split; assumption.
Qed.

(** Under MLFQS, a tick that does not complete a second returns and
    leaves the load average alone: it divides by the constant 4 only. *)
Lemma thread_tick_between s :
  status (threads s (running_thread s)) = THREAD_RUNNING ->
  thread_mlfqs s = true ->
  Z.rem (int64 (ticks s + 1)) TIMER_FREQ <> 0 ->
  exists s', thread_tick s = Some s' /\ load_avg s' = load_avg s.
Proof.
  intros Hr Hm Hsec. apply Z.eqb_neq in Hsec.
  unfold thread_tick, thread_current. rewrite Hr. cbn [status_eqb].
  cbv zeta.
  unfold thread_mlfqs_increment_recent_cpu, thread_current.
  destruct (ptr_is (running_thread s) (idle_thread s)) eqn:Hi;
    cbn [thread_mlfqs with_tick_stats threads running_thread idle_thread
         ticks];
    rewrite Hm, Hr; cbn [status_eqb]; rewrite Hi.
  - cbn [ticks idle_thread with_tick_stats]. rewrite Hsec, Hi.
    rewrite Bool.andb_false_r.
    match goal with
    | |- context [if ?c then _ else _] => destruct c
    end; eexists; (split; reflexivity).
  - cbn [ticks idle_thread store with_threads with_tick_stats].
    rewrite Hsec, Hi. cbn [negb]. rewrite Bool.andb_true_r.
    destruct (Z.rem (int64 (ticks s + 1)) 4 =? 0).
    + unfold thread_mlfqs_update_priority.
      cbn [thread_mlfqs idle_thread store with_threads with_tick_stats].
      rewrite Hm, Hi, FP_DIVI_4. cbn [negb].
      match goal with
      | |- context [if ?c then _ else _] => destruct c
      end; eexists; (split; reflexivity).
    + match goal with
      | |- context [if ?c then _ else _] => destruct c
      end; eexists; (split; reflexivity).
Qed.

(** A tick returns: always without MLFQS, and under MLFQS for a load average
    between 0 and 555 with fewer than 555 ready threads, which is where the
    multiplication by 59 does not overflow and the divisor of the decay is
    positive; the load average stays in that range. *)
Lemma thread_tick_total s :
  status (threads s (running_thread s)) = THREAD_RUNNING ->
  (thread_mlfqs s = true ->
   0 <= load_avg s <= 36372480 /\
   Z.of_nat (length (ready_list s)) < 555) ->
  exists s',
    thread_tick s = Some s' /\
    (thread_mlfqs s = true -> 0 <= load_avg s' <= 36372480).
Proof.
  intros Hr Hb. destruct (thread_mlfqs s) eqn:Hm.
  - destruct (Hb eq_refl) as [Hla Hlen].
    destruct (Z.eq_dec (Z.rem (int64 (ticks s + 1)) TIMER_FREQ) 0)
      as [Ht|Ht].
    + assert (H1 : 59 * load_avg s <= INT_MAX).
      { unfold INT_MAX. change (2 ^ 31) with 2147483648. lia. }
      destruct (thread_tick_sweep s Hm Hr Ht ltac:(lia) H1 ltac:(lia))
        as (s' & E & L).
      exists s'. split; [exact E|]. intros _. rewrite L.
      assert (Hc : 0 <= ready_thread_count s <= 555).
      { unfold ready_thread_count.
        destruct (ptr_is (running_thread s) (idle_thread s)); lia. }
      pose proof (load_avg_formula_exact (load_avg s) (ready_thread_count s)
                    ltac:(lia) ltac:(lia)).
      pose proof (load_avg_formula_bound (load_avg s) (ready_thread_count s)
                    ltac:(lia) H1 ltac:(lia)).
      lia.
    + destruct (thread_tick_between s Hr Hm Ht) as (s' & E & L).
      exists s'. split; [exact E|]. intros _. rewrite L. exact Hla.
  - unfold thread_tick, thread_current. rewrite Hr. cbn [status_eqb].
    cbv zeta.
    destruct (ptr_is (running_thread s) (idle_thread s));
      cbn [thread_mlfqs with_tick_stats]; rewrite Hm;
      match goal with
      | |- context [if ?c then _ else _] => destruct c
      end; eexists; (split; [reflexivity | discriminate]).
Qed.

End Tick.

Section TimeSlice.

Lemma ticks_run_slice n : forall s k,
  status (threads s (running_thread s)) = THREAD_RUNNING ->
  thread_ticks s = k -> 0 <= k -> k + Z.of_nat n < 2 ^ 32 ->
  yield_on_return s = (k >=? TIME_SLICE) ->
  (thread_mlfqs s = true ->
   0 <= load_avg s <= 36372480 /\
   Z.of_nat (length (ready_list s)) < 555) ->
  exists s',
    ticks_run n s = Some s' /\
    thread_ticks s' = k + Z.of_nat n /\
    yield_on_return s' = (k + Z.of_nat n >=? TIME_SLICE) /\
    running_thread s' = running_thread s /\ ready_list s' = ready_list s.
Proof.
  induction n as [|n IH]; intros s k Hr Hk H0 Hb Hy Hl.
  - exists s. simpl. rewrite Z.add_0_r. repeat split; assumption.
  - destruct (thread_tick_total s Hr Hl) as (s1 & E & Hl1).
    destruct (thread_tick_effect s s1 Hr E)
      as (_ & _ & Tt & Ty & Tr & Tl & Tm & Ts & _).
    simpl ticks_run. rewrite E.
    assert (Eu : uint32 (k + 1) = k + 1).
    { unfold uint32. apply Z.mod_small. lia. }
    rewrite Hk, Eu in Tt, Ty.
    destruct (IH s1 (k + 1)) as (s' & E' & A & B & C & D).
    + rewrite Tr, Ts. exact Hr.
    + exact Tt.
    + lia.
    + lia.
    + rewrite Ty, Hy. unfold TIME_SLICE.
      destruct (k >=? 4) eqn:G1; destruct (k + 1 >=? 4) eqn:G2;
        cbn; try reflexivity; lia.
    + rewrite Tm, Tl. intros Hm. split; [apply Hl1, Hm | apply Hl, Hm].
    + exists s'. split; [exact E'|].
      replace (k + Z.of_nat (S n)) with (k + 1 + Z.of_nat n) by lia.
      repeat split; congruence.
Qed.

(** X15.  The time slice: starting where a context switch leaves the
    counter ([thread_ticks] is 0, no yield asked for), any number of timer
    ticks in a row return and switch no thread, and the yield on return from
    the interrupt is asked for exactly from the [TIME_SLICE]-th tick on.
    Under MLFQS this is for a load average between 0 and 555 and fewer than
    555 ready threads: there no multiplication of the recalculation of
    every second overflows and its divisions do not trap. *)
Theorem time_slice_preemption n s :
  status (threads s (running_thread s)) = THREAD_RUNNING ->
  thread_ticks s = 0 -> yield_on_return s = false ->
  Z.of_nat n < 2 ^ 32 ->
  (thread_mlfqs s = true ->
   0 <= load_avg s <= 36372480 /\
   Z.of_nat (length (ready_list s)) < 555) ->
  exists s',
    ticks_run n s = Some s' /\
    yield_on_return s' = (Z.of_nat n >=? TIME_SLICE) /\
    thread_ticks s' = Z.of_nat n /\
    running_thread s' = running_thread s /\ ready_list s' = ready_list s.
Proof.
  intros Hr Hk Hy Hb Hl.
  destruct (ticks_run_slice n s 0 Hr Hk ltac:(lia) ltac:(lia) Hy Hl)
    as (s' & E & A & B & C & D).
  exists s'. cbn in A, B. repeat split; assumption.
Qed.

Lemma time_slice_preemption_witness :
  exists s',
    ticks_run 4 (with_thread_ticks 0 ex_tick) = Some s' /\
    yield_on_return s' = (Z.of_nat 4 >=? TIME_SLICE) /\
    thread_ticks s' = Z.of_nat 4 /\
    running_thread s' = running_thread (with_thread_ticks 0 ex_tick) /\
    ready_list s' = ready_list (with_thread_ticks 0 ex_tick).
Proof.
  apply (time_slice_preemption 4 (with_thread_ticks 0 ex_tick)).
  - reflexivity.
  - reflexivity.
  - reflexivity.
  - vm_compute. reflexivity.
  - intros _. vm_compute. split; [split; discriminate | reflexivity].
Defined.

End TimeSlice.

(** ** What the calls never touch *)

(** [s'] has the scheduling policy, the lock priorities and the tick
    statistics of [s]. *)
Record stats_frame (s s' : sched) : Prop := mk_stats_frame {
  sf_thread_mlfqs : thread_mlfqs s' = thread_mlfqs s;
  sf_lock_priority : lock_priority s' = lock_priority s;
  sf_ticks : ticks s' = ticks s;
  sf_idle_ticks : idle_ticks s' = idle_ticks s;
  sf_kernel_ticks : kernel_ticks s' = kernel_ticks s
}.

Section StatsFrame.

Lemma stats_frame_refl s : stats_frame s s.
Proof. constructor; reflexivity. Qed.

Lemma stats_frame_trans s1 s2 s3 :
  stats_frame s1 s2 -> stats_frame s2 s3 -> stats_frame s1 s3.
Proof. intros [] []. constructor; congruence. Qed.

Lemma dispatch_stats_frame s s' : dispatch_frame s s' -> stats_frame s s'.
Proof. intros []. constructor; assumption. Qed.

Lemma mlfqs_stats_frame s s' : mlfqs_frame s s' -> stats_frame s s'.
Proof. intros []. constructor; assumption. Qed.

Lemma thread_update_priority_stats t s :
  stats_frame s (thread_update_priority t s).
Proof.
  unfold thread_update_priority. rewrite threads_store_same.
  cbn [locks set_priority].
  destruct (locks (threads s t)) as [|l0 ls]; [constructor; reflexivity|].
  destruct (list_sort _ (l0 :: ls)) as [|l rest]; [constructor; reflexivity|].
  match goal with |- context [if ?c then _ else _] => destruct c end;
    constructor; reflexivity.
Qed.

Lemma wake_loop_stats tks l : forall s s',
  wake_loop tks l s = Some s' -> stats_frame s s'.
Proof.
  induction l as [|e l IH]; intros s s'; simpl;
    [intros [= <-]; apply stats_frame_refl|].
  destruct (ticks_sleep (threads s e) <=? tks);
    [|intros [= <-]; apply stats_frame_refl].
  match goal with
  | |- match thread_unblock e ?s1 with _ => _ end = _ -> _ =>
      destruct (thread_unblock e s1) as [s2|] eqn:E; [|discriminate];
      apply thread_unblock_frame, dispatch_stats_frame in E
  end.
  intros H. apply IH in H.
  eapply stats_frame_trans; [|exact H].
  eapply stats_frame_trans; [|exact E]. constructor; reflexivity.
Qed.

(** Every call but the timer tick leaves policy, lock priorities and tick
    statistics alone. *)
Lemma step_stats_frame s s' :
  step s s' -> stats_frame s s' \/ thread_tick s = Some s'.
Proof.
  intros St. destruct St; try (right; assumption); left.
  - destruct page as [t|]; [|injection H2 as _ <-; apply stats_frame_refl].
    rewrite thread_create_unfold in H2.
    destruct ((PRI_MIN <=? prio) && (prio <=? PRI_MAX)); [|discriminate].
    destruct (thread_unblock t (spawned t prio pos s)) as [s4|] eqn:E4;
      [|discriminate].
    apply thread_unblock_frame, dispatch_stats_frame in E4.
    assert (F3 : stats_frame s (spawned t prio pos s))
      by (constructor; reflexivity).
    destruct (thread_current s4) as [cur|]; [|discriminate].
    destruct (prio >? priority (threads s4 cur)).
    + destruct (thread_yield s4) as [s5|] eqn:E5; [|discriminate].
      apply thread_yield_frame, dispatch_stats_frame in E5.
      injection H2 as _ <-.
      eapply stats_frame_trans; [|exact E5].
      eapply stats_frame_trans; eassumption.
    + injection H2 as _ <-. eapply stats_frame_trans; eassumption.
  - apply dispatch_stats_frame, thread_block_frame. assumption.
  - eapply dispatch_stats_frame, thread_unblock_frame. eassumption.
  - apply dispatch_stats_frame, thread_yield_frame. assumption.
  - unfold thread_sleep in H0.
    destruct (thread_current s) as [cur|]; [|discriminate].
    apply thread_block_frame, dispatch_stats_frame in H0.
    eapply stats_frame_trans; [|exact H0]. constructor; reflexivity.
  - eapply wake_loop_stats. eassumption.
  - unfold thread_exit in H0.
    destruct (thread_current s) as [cur|]; [|discriminate].
    destruct (list_remove cur (all_list s)) as [l|]; [|discriminate].
    apply schedule_frame, dispatch_stats_frame in H0.
    eapply stats_frame_trans; [|exact H0]. constructor; reflexivity.
  - unfold thread_set_priority in H0.
    destruct (thread_mlfqs s); [injection H0 as <-; apply stats_frame_refl|].
    destruct (thread_current s) as [cur|]; [|discriminate].
    match type of H0 with (if ?c then _ else _) = _ => destruct c end.
    + apply thread_yield_frame, dispatch_stats_frame in H0.
      eapply stats_frame_trans; [|exact H0]. constructor; reflexivity.
    + injection H0 as <-. constructor; reflexivity.
  - pose proof (thread_update_priority_stats t s) as F.
    destruct (thread_donate_priority_cases t s s' H1) as [->|(_ & _ & _ & ->)];
      [exact F|].
    eapply stats_frame_trans; [exact F|]. constructor; reflexivity.
  - unfold thread_hold_lock in H0.
    destruct (thread_current s) as [cur|]; [|discriminate]. cbv zeta in H0.
    match type of H0 with (if ?c then _ else _) = _ => destruct c end.
    + apply thread_yield_frame, dispatch_stats_frame in H0.
      eapply stats_frame_trans; [|exact H0]. constructor; reflexivity.
    + injection H0 as <-. constructor; reflexivity.
  - unfold thread_release_lock in H.
    destruct (lock_holder lock s) as [h|]; [|discriminate].
    destruct (list_remove lock (locks (threads s h))) as [l|];
      [|discriminate].
    match type of H with
    | match thread_current ?s1 with _ => _ end = _ =>
        destruct (thread_current s1) as [cur|]; [|discriminate];
        injection H as <-;
        refine (stats_frame_trans s s1 _ _ (thread_update_priority_stats cur s1))
    end.
    constructor; reflexivity.
  - unfold thread_set_nice in H0.
    destruct (thread_current s) as [cur|]; [|discriminate]. cbv zeta in H0.
    match type of H0 with
    | match thread_mlfqs_update_priority ?t ?s1 with _ => _ end = _ =>
        destruct (thread_mlfqs_update_priority t s1) as [s2|] eqn:E;
        [|discriminate];
        apply thread_mlfqs_update_priority_frame, mlfqs_stats_frame in E;
        assert (F2 : stats_frame s s2)
          by (eapply stats_frame_trans; [|exact E]; constructor; reflexivity)
    end.
    match type of H0 with (if ?c then _ else _) = _ => destruct c end.
    + apply thread_yield_frame, dispatch_stats_frame in H0.
      eapply stats_frame_trans; eassumption.
    + injection H0 as <-. exact F2.
  - unfold idle_enter in H0.
    destruct (thread_current s) as [cur|]; [|discriminate].
    injection H0 as <-. constructor; reflexivity.
Qed.

Lemma int64_periodic x k : int64 (x + k * 2 ^ 64) = int64 x.
Proof.
  unfold int64, wrap. change (2 ^ (64 - 1)) with 9223372036854775808.
  change (2 ^ 64) with 18446744073709551616.
  replace (x + k * 18446744073709551616 + 9223372036854775808)
    with (x + 9223372036854775808 + k * 18446744073709551616) by lia.
  rewrite Z.mod_add by lia. reflexivity.
Qed.

Lemma int64_spec x : exists k, int64 x = x + k * 2 ^ 64.
Proof.
  unfold int64, wrap. change (2 ^ (64 - 1)) with 9223372036854775808.
  change (2 ^ 64) with 18446744073709551616.
  exists (- ((x + 9223372036854775808) / 18446744073709551616)).
  pose proof (Z.div_mod (x + 9223372036854775808) 18446744073709551616
                ltac:(lia)). lia.
Qed.

Lemma int64_add_l x y : int64 (int64 x + y) = int64 (x + y).
Proof.
  destruct (int64_spec x) as (k & ->).
  replace (x + k * 2 ^ 64 + y) with (x + y + k * 2 ^ 64) by lia.
  apply int64_periodic.
Qed.

(** X16.  Every timer tick is counted once, as an idle tick or as a kernel
    tick, and nothing else changes the counters: in every state the kernel
    goes through [ticks] is the sum of [idle_ticks] and [kernel_ticks] (in
    64-bit arithmetic).  The policy chosen at boot stays as it is. *)
Theorem ticks_accounting mlfqs mem lp main pos s0 s :
  thread_init mlfqs mem lp main pos = Some s0 ->
  steps s0 s ->
  ticks s = int64 (idle_ticks s + kernel_ticks s) /\
  thread_mlfqs s = mlfqs /\ lock_priority s = lp.
Proof.
  intros E0 St.
  assert (R0 : reachable s0) by (eapply reach_init; exact E0).
  induction St as [|s1 s2 St IH Hstep].
  - unfold thread_init, init_thread in E0. cbn in E0.
    injection E0 as <-. repeat split; reflexivity.
  - destruct IH as (I1 & I2 & I3).
    destruct (step_stats_frame s1 s2 Hstep) as [F|T].
    + destruct F. repeat split; congruence.
    + pose proof (reachable_wf s1 (steps_reachable s0 s1 R0 St)) as W1.
      destruct (thread_tick_effect s1 s2 (wf_running s1 W1) T)
        as (Tk & Tik & _ & _ & _ & _ & Tm & _).
      pose proof (thread_tick_view s1 s2 T) as V.
      assert (Elp : lock_priority s2 = lock_priority s1).
      { unfold thread_tick in T.
        destruct (thread_current s1) as [cur|]; [|discriminate].
        cbv zeta in T.
        match type of T with
        | match ?c with _ => _ end = _ =>
            change c with (tick_mlfqs cur
              (if ptr_is cur (idle_thread s1)
               then with_tick_stats (int64 (ticks s1 + 1))
                      (int64 (idle_ticks s1 + 1)) (kernel_ticks s1) s1
               else with_tick_stats (int64 (ticks s1 + 1)) (idle_ticks s1)
                      (int64 (kernel_ticks s1 + 1)) s1)) in T
        end.
        destruct (tick_mlfqs cur _) as [s3|] eqn:E3; [|discriminate].
        apply tick_mlfqs_frame in E3. destruct E3.
        destruct (ptr_is cur (idle_thread s1));
          destruct (uint32 (thread_ticks s3 + 1) >=? TIME_SLICE);
          injection T as <-; cbn; rewrite mf_lock_priority0; reflexivity. }
      split; [|split; congruence].
      rewrite Tk, I1.
      destruct (ptr_is (running_thread s1) (idle_thread s1));
        destruct Tik as [-> ->].
      * rewrite !int64_add_l. f_equal. lia.
      * rewrite int64_add_l,
          (Z.add_comm (idle_ticks s1) (int64 (kernel_ticks s1 + 1))),
          int64_add_l.
        f_equal. lia.
Qed.

Lemma boot0_nap2 : steps boot0 nap2.
Proof.
  apply (steps_step boot0 nap1 nap2).
  apply (steps_step boot0 nap0 nap1).
  apply (steps_step boot0 boot5 nap0).
  apply (steps_step boot0 boot4 boot5).
  apply (steps_step boot0 boot3 boot4).
  apply (steps_step boot0 boot2 boot3).
  apply (steps_step boot0 boot1 boot2).
  apply (steps_step boot0 boot0 boot1).
  - apply steps_refl.
  - eapply (step_create boot0 PRI_MIN (Some 2) 0 2).
    + vm_compute. reflexivity.
    + intros t [= <-]. vm_compute. intros [H|[]]. discriminate H.
    + vm_compute. reflexivity.
    + apply after_create. vm_compute. reflexivity.
  - apply (step_block boot1 boot2), after_Some. vm_compute. reflexivity.
  - apply (step_idle_enter boot2 boot3);
      [|apply after_Some]; vm_compute; reflexivity.
  - apply (step_unblock boot3 1 boot4).
    + vm_compute. auto.
    + vm_compute. tauto.
    + vm_compute. reflexivity.
    + apply after_Some. vm_compute. reflexivity.
  - apply (step_block boot4 boot5), after_Some. vm_compute. reflexivity.
  - eapply (step_create boot5 PRI_DEFAULT (Some 3) 0 3).
    + vm_compute. reflexivity.
    + intros t [= <-]. vm_compute. intros [H|[H|[]]]; discriminate H.
    + vm_compute. reflexivity.
    + apply after_create. vm_compute. reflexivity.
  - apply (step_sleep nap0 100);
      [|apply after_Some]; vm_compute; reflexivity.
  - apply (step_sleep nap1 50); [|apply after_Some]; vm_compute; reflexivity.
Qed.

Lemma ticks_accounting_witness :
  ticks nap2 = int64 (idle_ticks nap2 + kernel_ticks nap2) /\
  thread_mlfqs nap2 = false /\ lock_priority nap2 = (fun _ => 0).
Proof.
  apply (ticks_accounting false (fun _ => zero_thread) (fun _ => 0) 1 0
                          boot0 nap2).
  - apply after_Some. reflexivity.
  - exact boot0_nap2.
Defined.

End StatsFrame.

(** ** Priority scheduling without MLFQS *)

(** The ready list is in descending order of priority. *)
Definition ready_sorted (s : sched) : Prop :=
  StronglySorted Z.ge
    (map (fun t => priority (threads s t)) (ready_list s)).

(** No live thread has a priority below its base priority. *)
Definition base_le_priority (s : sched) : Prop :=
  forall p, In p (all_list s) ->
    base_priority (threads s p) <= priority (threads s p).

Definition prio_inv (s : sched) : Prop :=
  ready_sorted s /\ base_le_priority s.

Section PriorityInvariant.

Lemma list_insert_ordered_desc_sorted (key : ptr -> Z) x l :
  StronglySorted Z.ge (map key l) ->
  StronglySorted Z.ge (map key (list_insert_ordered (desc key) x l)).
Proof.
  induction l as [|e l IH]; simpl; intros Hs.
  - constructor; constructor.
  - apply StronglySorted_inv in Hs. destruct Hs as [Hs' Hall].
    unfold desc at 1. destruct (key x >? key e) eqn:E.
    + simpl. constructor; [constructor; assumption|].
      constructor; [lia|].
      eapply Forall_impl; [|exact Hall]. intros k Hk. cbv beta in Hk. lia.
    + simpl. constructor; [apply IH, Hs'|].
      apply Forall_forall. intros k Hk. apply in_map_iff in Hk.
      destruct Hk as (y & <- & Hy). apply list_insert_ordered_In in Hy.
      destruct Hy as [->|Hy]; [lia|].
      rewrite Forall_forall in Hall. apply Hall, in_map, Hy.
Qed.

Lemma unlink_sorted (key : ptr -> Z) x l :
  StronglySorted Z.ge (map key l) ->
  StronglySorted Z.ge (map key (unlink x l)).
Proof.
  induction l as [|e l IH]; simpl; intros Hs; [constructor|].
  apply StronglySorted_inv in Hs. destruct Hs as [Hs' Hall].
  destruct (e =? x); [exact Hs'|]. simpl. constructor; [apply IH, Hs'|].
  apply Forall_forall. intros k Hk. apply in_map_iff in Hk.
  destruct Hk as (y & <- & Hy). apply unlink_In in Hy.
  rewrite Forall_forall in Hall. apply Hall, in_map, Hy.
Qed.

Lemma ready_sorted_ext s s' :
  ready_list s' = ready_list s ->
  (forall t, In t (ready_list s) ->
     priority (threads s' t) = priority (threads s t)) ->
  ready_sorted s -> ready_sorted s'.
Proof.
  unfold ready_sorted. intros -> H Hs.
  erewrite map_ext_in; [exact Hs|]. exact H.
Qed.

Lemma base_le_priority_ext s s' :
  incl (all_list s') (all_list s) ->
  (forall t, In t (all_list s') ->
     priority (threads s' t) = priority (threads s t) /\
     base_priority (threads s' t) = base_priority (threads s t)) ->
  base_le_priority s -> base_le_priority s'.
Proof.
  intros Hi H Hb p Hp. destruct (H p Hp) as [-> ->]. apply Hb, Hi, Hp.
Qed.

Lemma prio_inv_dispatch_data s s' :
  dispatch_frame s s' -> base_le_priority s -> base_le_priority s'.
Proof.
  intros F. apply base_le_priority_ext.
  - rewrite (df_all_list s s' F). apply incl_refl.
  - intros t _. destruct (dispatch_frame_data s s' t F)
      as (_ & A & B & _). split; assumption.
Qed.

Lemma schedule_sorted s s' :
  schedule s = Some s' -> ready_sorted s -> ready_sorted s'.
Proof.
  intros E Hs. destruct (schedule_ready s s' E) as [Hp Hr].
  unfold ready_sorted in *.
  erewrite map_ext; [|intros a; apply Hp].
  destruct (ready_list s) as [|h rest].
  - rewrite Hr. constructor.
  - destruct Hr as [_ ->]. simpl in Hs.
    apply StronglySorted_inv in Hs. apply Hs.
Qed.

Lemma enqueue_sorted t s :
  ready_sorted s ->
  ready_sorted
    (store t (set_status THREAD_READY)
       (with_ready_list
          (list_insert_ordered (thread_cmp_priority (threads s) true) t
                               (ready_list s)) s)).
Proof.
  intros Hs. unfold ready_sorted.
  cbn [ready_list store with_threads with_ready_list].
  erewrite map_ext.
  - apply (list_insert_ordered_desc_sorted
             (fun p => priority (threads s p))), Hs.
  - intros a. cbn. destruct (a =? t); reflexivity.
Qed.

Lemma status_store_sorted t st s :
  ready_sorted s -> ready_sorted (store t (set_status st) s).
Proof.
  apply ready_sorted_ext; [reflexivity|].
  intros u _. cbn. destruct (u =? t); reflexivity.
Qed.

Lemma prio_inv_unblock t s s' :
  prio_inv s -> thread_unblock t s = Some s' -> prio_inv s'.
Proof.
  intros [Hs Hb] E.
  split; [|eapply prio_inv_dispatch_data;
           [eapply thread_unblock_frame|]; eassumption].
  unfold thread_unblock in E.
  destruct (status_eqb (status (threads s t)) THREAD_BLOCKED);
    [|discriminate].
  injection E as <-. apply enqueue_sorted, Hs.
Qed.

Lemma prio_inv_yield s s' :
  prio_inv s -> thread_yield s = Some s' -> prio_inv s'.
Proof.
  intros [Hs Hb] E.
  split; [|eapply prio_inv_dispatch_data;
           [eapply thread_yield_frame|]; eassumption].
  unfold thread_yield in E.
  destruct (thread_current s) as [cur|]; [|discriminate].
  apply (schedule_sorted _ _ E).
  destruct (negb (ptr_is cur (idle_thread s)));
    [apply enqueue_sorted | apply status_store_sorted]; exact Hs.
Qed.

Lemma prio_inv_block s s' :
  prio_inv s -> thread_block s = Some s' -> prio_inv s'.
Proof.
  intros [Hs Hb] E.
  split; [|eapply prio_inv_dispatch_data;
           [eapply thread_block_frame|]; eassumption].
  unfold thread_block in E.
  destruct (thread_current s) as [cur|]; [|discriminate].
  apply (schedule_sorted _ _ E), status_store_sorted, Hs.
Qed.

(** An assignment to a thread that is not in the ready list and keeps its
    priority at or above its base priority. *)
Lemma prio_inv_store t f s :
  prio_inv s -> ~ In t (ready_list s) ->
  base_priority (f (threads s t)) <= priority (f (threads s t)) ->
  prio_inv (store t f s).
Proof.
  intros [Hs Hb] Hn Hf. split.
  - revert Hs. apply ready_sorted_ext; [reflexivity|].
    intros u Hu. cbn. destruct (u =? t) eqn:E; [|reflexivity].
    apply Z.eqb_eq in E. subst u. contradiction.
  - intros p Hp. cbn. destruct (p =? t) eqn:E; [|apply Hb, Hp].
    apply Z.eqb_eq in E. subst p. exact Hf.
Qed.

Lemma prio_inv_wake_loop tks l : forall s s',
  wf s -> sleep_list s = l -> prio_inv s ->
  wake_loop tks l s = Some s' -> prio_inv s'.
Proof.
  induction l as [|e l IH]; intros s s' W El P; simpl.
  - intros [= <-]. exact P.
  - destruct (ticks_sleep (threads s e) <=? tks); [|intros [= <-]; exact P].
    destruct (wake_one e l s W El) as (s2 & E2 & W2 & S2 & _).
    rewrite E2. apply (IH s2 s' W2 S2).
    eapply prio_inv_unblock; [|exact E2].
    assert (He : In e (sleep_list s)) by (rewrite El; left; reflexivity).
    change (prio_inv (with_sleep_list l (store e (set_ticks_sleep 0) s))).
    assert (P1 : prio_inv (store e (set_ticks_sleep 0) s)).
    { apply prio_inv_store; [exact P| |].
      - intros H. pose proof (wfl_ready_status s (wf_wf_lists s W) e H).
        pose proof (wfl_sleep_status s (wf_wf_lists s W) e He). congruence.
      - cbn. destruct P as [_ Hb].
        apply Hb, (wfl_sleep_live s (wf_wf_lists s W)), He. }
    exact P1.
Qed.

Lemma max_key_ge_base {A} (key : A -> Z) base l : base <= max_key key base l.
Proof. induction l as [|x l IH]; simpl; lia. Qed.

Lemma prio_inv_update_priority t s :
  prio_inv s -> ~ In t (ready_list s) ->
  prio_inv (thread_update_priority t s).
Proof.
  intros [Hs Hb] Hn.
  pose proof (thread_update_priority_view t s) as V.
  pose proof (thread_update_priority_value t s) as Ev.
  destruct (thread_update_priority_frame t s) as (Er & _ & Eb & _).
  assert (Hother : forall u, u <> t ->
            priority (threads (thread_update_priority t s) u)
              = priority (threads s u) /\
            base_priority (threads (thread_update_priority t s) u)
              = base_priority (threads s u)).
  { intros u Hu. apply Z.eqb_neq in Hu. unfold thread_update_priority.
    rewrite threads_store_same. cbn [locks set_priority].
    destruct (locks (threads s t)) as [|l0 ls];
      [cbn; rewrite Hu; split; reflexivity|].
    destruct (list_sort _ (l0 :: ls)) as [|l rest];
      [cbn; rewrite Hu; split; reflexivity|].
    match goal with |- context [if ?c then _ else _] => destruct c end;
      cbn; rewrite Hu; split; reflexivity. }
  split.
  - revert Hs. apply ready_sorted_ext; [exact Er|].
    intros u Hu. apply Hother. intros ->. contradiction.
  - intros p Hp. destruct V as (_ & _ & Va & _).
    destruct (Z.eq_dec p t) as [->|Hne].
    + rewrite Ev, Eb. apply max_key_ge_base.
    + destruct (Hother p Hne) as [-> ->]. apply Hb. rewrite <- Va. exact Hp.
Qed.

End PriorityInvariant.

Section PriorityInvariantSteps.

(** A state that differs from [s] in the priorities of one thread outside
    the ready list, and possibly in that thread being new. *)
Lemma prio_inv_touch t s s' :
  prio_inv s -> ~ In t (ready_list s) ->
  ready_list s' = ready_list s ->
  (forall p, In p (all_list s') -> p = t \/ In p (all_list s)) ->
  (forall u, u <> t ->
     priority (threads s' u) = priority (threads s u) /\
     base_priority (threads s' u) = base_priority (threads s u)) ->
  (In t (all_list s') ->
   base_priority (threads s' t) <= priority (threads s' t)) ->
  prio_inv s'.
Proof.
  intros [Hs Hb] Hn Er Ha Ho Ht. split.
  - revert Hs. apply ready_sorted_ext; [exact Er|].
    intros u Hu. apply Ho. intros ->. contradiction.
  - intros p Hp. destruct (Z.eq_dec p t) as [->|Hne]; [apply Ht, Hp|].
    destruct (Ho p Hne) as [-> ->]. apply Hb.
    destruct (Ha p Hp); [contradiction | assumption].
Qed.

Lemma prio_inv_schedule s s' :
  prio_inv s -> schedule s = Some s' -> prio_inv s'.
Proof.
  intros [Hs Hb] E. split; [eapply schedule_sorted; eassumption|].
  eapply prio_inv_dispatch_data; [eapply schedule_frame|]; eassumption.
Qed.

Lemma prio_inv_donate t s s' :
  wf s -> prio_inv s -> thread_donate_priority t s = Some s' -> prio_inv s'.
Proof.
  intros W [Hs Hb]. unfold thread_donate_priority.
  pose proof (thread_update_priority_view t s) as V.
  pose proof (thread_update_priority_value t s) as Ev.
  destruct (thread_update_priority_frame t s) as (Er & _ & Eb & _).
  set (s1 := thread_update_priority t s) in *.
  assert (Hother : forall u, u <> t ->
            priority (threads s1 u) = priority (threads s u) /\
            base_priority (threads s1 u) = base_priority (threads s u)).
  { intros u Hu. apply Z.eqb_neq in Hu. subst s1.
    unfold thread_update_priority.
    rewrite threads_store_same. cbn [locks set_priority].
    destruct (locks (threads s t)) as [|l0 ls];
      [cbn; rewrite Hu; split; reflexivity|].
    destruct (list_sort _ (l0 :: ls)) as [|l rest];
      [cbn; rewrite Hu; split; reflexivity|].
    match goal with |- context [if ?c then _ else _] => destruct c end;
      cbn; rewrite Hu; split; reflexivity. }
  assert (Hb1 : base_le_priority s1).
  { intros p Hp. destruct V as (_ & _ & Va & _).
    destruct (Z.eq_dec p t) as [->|Hne].
    - rewrite Ev, Eb. apply max_key_ge_base.
    - destruct (Hother p Hne) as [-> ->]. apply Hb. rewrite <- Va.
      exact Hp. }
  destruct (status_eqb (status (threads s1 t)) THREAD_READY) eqn:Est;
    cbn [andb].
  - destruct (priority (threads s1 t) =? priority (threads s t)) eqn:Ep;
      cbn [negb].
    + intros [= <-]. apply Z.eqb_eq in Ep. split; [|exact Hb1].
      revert Hs. apply ready_sorted_ext; [exact Er|].
      intros u _. destruct (Z.eq_dec u t) as [->|Hne];
        [exact Ep | apply Hother, Hne].
    + destruct (list_remove t (ready_list s1)) as [l|] eqn:El;
        [|discriminate].
      apply list_remove_inv in El. destruct El as [_ ->]. intros [= <-].
      split; [|exact Hb1]. unfold ready_sorted. cbn [ready_list with_ready_list threads].
      apply (list_insert_ordered_desc_sorted
               (fun p => priority (threads s1 p))).
      rewrite Er.
      erewrite map_ext_in.
      * apply (unlink_sorted (fun p => priority (threads s p))), Hs.
      * intros u Hu. cbv beta. apply Hother. intros ->.
        exact (unlink_not_In t (ready_list s)
                 (wfl_ready_nodup s (wf_wf_lists s W)) Hu).
  - intros [= <-]. split; [|exact Hb1].
    revert Hs. apply ready_sorted_ext; [exact Er|].
    intros u Hu. apply Hother. intros ->.
    pose proof (wfl_ready_status s (wf_wf_lists s W) t Hu) as Hst.
    destruct V as (_ & _ & _ & _ & _ & _ & Vp).
    destruct (Vp t) as (Vs & _). rewrite Vs, Hst in Est. discriminate.
Qed.

Lemma thread_tick_round_robin s s' :
  thread_mlfqs s = false -> thread_tick s = Some s' ->
  threads s' = threads s /\ ready_list s' = ready_list s /\
  all_list s' = all_list s.
Proof.
  intros Hm. unfold thread_tick.
  destruct (thread_current s) as [cur|]; [|discriminate]. cbv zeta.
  destruct (ptr_is cur (idle_thread s)); cbn [thread_mlfqs with_tick_stats];
    rewrite Hm;
    match goal with
    | |- (if ?c then _ else _) = _ -> _ => destruct c
    end; intros [= <-]; repeat split; reflexivity.
Qed.

(** Outside MLFQS every call of [thread.c] keeps the ready list in
    descending order of priority and every live thread's priority at or
    above its base priority. *)
Lemma step_prio_inv s s' :
  wf s -> thread_mlfqs s = false -> prio_inv s -> step s s' -> prio_inv s'.
Proof.
  intros W Hm P St. pose proof W as [Hr Hl WL].
  pose proof (running_not_ready s W) as Hnr.
  destruct St.
  - (* thread_create *)
    destruct page as [t|]; [|injection H2 as _ <-; exact P].
    rewrite thread_create_unfold in H2.
    destruct ((PRI_MIN <=? prio) && (prio <=? PRI_MAX)); [|discriminate].
    specialize (H0 t eq_refl).
    assert (P3 : prio_inv (spawned t prio pos s)).
    { apply (prio_inv_touch t s); [exact P | | reflexivity | | |].
      - intros Hin. apply H0, (wfl_ready_live s WL), Hin.
      - intros p Hp. cbn in Hp.
        apply (Permutation_in _ (insert_at_perm pos t (all_list s))) in Hp.
        destruct Hp; auto.
      - intros u Hu. rewrite (spawned_other t prio pos s u Hu).
        split; reflexivity.
      - intros _. rewrite spawned_same. cbn. lia. }
    destruct (thread_unblock t (spawned t prio pos s)) as [s4|] eqn:E4;
      [|discriminate].
    pose proof (prio_inv_unblock t _ s4 P3 E4) as P4.
    destruct (thread_current s4) as [cur|]; [|discriminate].
    destruct (prio >? priority (threads s4 cur)).
    + destruct (thread_yield s4) as [s5|] eqn:E5; [|discriminate].
      injection H2 as _ <-. eapply prio_inv_yield; eassumption.
    + injection H2 as _ <-. exact P4.
  - eapply prio_inv_block; eassumption.
  - eapply prio_inv_unblock; eassumption.
  - eapply prio_inv_yield; eassumption.
  - (* thread_sleep *)
    rewrite (thread_sleep_unfold tks s Hr) in H0. cbv zeta in H0.
    eapply prio_inv_schedule; [|exact H0].
    apply (prio_inv_touch (running_thread s) s);
      [exact P | exact Hnr | reflexivity | auto | |].
    + intros u Hu. apply Z.eqb_neq in Hu. cbn. rewrite Hu.
      split; reflexivity.
    + intros _. cbn. rewrite Z.eqb_refl. cbn. destruct P as [_ Hb].
      apply Hb, Hl.
  - eapply (prio_inv_wake_loop tks (sleep_list s) s); eauto.
  - (* thread_exit *)
    rewrite (thread_exit_unfold s W) in H0.
    eapply prio_inv_schedule; [|exact H0].
    apply (prio_inv_touch (running_thread s) s);
      [exact P | exact Hnr | reflexivity | | |].
    + intros p Hp. cbn in Hp. right. eapply unlink_In, Hp.
    + intros u Hu. apply Z.eqb_neq in Hu. cbn. rewrite Hu.
      split; reflexivity.
    + intros Hin. cbn in Hin. exfalso.
      exact (unlink_not_In _ _ (wfl_all_nodup s WL) Hin).
  - (* thread_set_priority *)
    unfold thread_set_priority in H0. rewrite Hm in H0.
    rewrite (thread_current_wf s W) in H0.
    set (t := running_thread s) in *.
    rewrite !threads_store_same in H0.
    cbn [locks priority set_base_priority] in H0.
    destruct (list_empty (locks (threads s t))
              || (p >? priority (threads s t))) eqn:G.
    + eapply prio_inv_yield; [|exact H0].
      apply (prio_inv_touch t s);
        [exact P | exact Hnr | reflexivity | auto | |].
      * intros u Hu. apply Z.eqb_neq in Hu. cbn. rewrite Hu.
        split; reflexivity.
      * intros _. cbn. rewrite Z.eqb_refl. cbn. lia.
    + injection H0 as <-.
      apply (prio_inv_touch t s);
        [exact P | exact Hnr | reflexivity | auto | |].
      * intros u Hu. apply Z.eqb_neq in Hu. cbn. rewrite Hu.
        split; reflexivity.
      * intros _. cbn. rewrite Z.eqb_refl. cbn.
        apply Bool.orb_false_iff in G. destruct G as [_ G]. lia.
  - eapply prio_inv_donate; eassumption.
  - (* thread_hold_lock *)
    unfold thread_hold_lock in H0. rewrite (thread_current_wf s W) in H0.
    cbv zeta in H0. set (t := running_thread s) in *.
    destruct P as [Hs Hb].
    match type of H0 with (if ?c then _ else _) = _ =>
      destruct c eqn:G end.
    + eapply prio_inv_yield; [|exact H0].
      apply (prio_inv_touch t s);
        [split; assumption | exact Hnr | reflexivity | auto | |].
      * intros u Hu. apply Z.eqb_neq in Hu. cbn. rewrite Hu.
        split; reflexivity.
      * intros _. cbn. rewrite Z.eqb_refl. cbn.
        cbn in G. rewrite Z.eqb_refl in G. cbn in G.
        specialize (Hb t Hl). lia.
    + injection H0 as <-.
      apply (prio_inv_touch t s);
        [split; assumption | exact Hnr | reflexivity | auto | |].
      * intros u Hu. apply Z.eqb_neq in Hu. cbn. rewrite Hu.
        split; reflexivity.
      * intros _. cbn. rewrite Z.eqb_refl. cbn. apply Hb, Hl.
  - (* thread_release_lock *)
    unfold thread_release_lock in H.
    destruct (lock_holder lock s) as [h|]; [|discriminate].
    destruct (list_remove lock (locks (threads s h))) as [l|];
      [|discriminate].
    match type of H with
    | match thread_current ?s1 with _ => _ end = _ =>
        assert (P1 : prio_inv s1);
        [|assert (Ec : thread_current s1 = Some (running_thread s))
            by (unfold thread_current; cbn;
                destruct (running_thread s =? h); cbn; rewrite Hr;
                reflexivity);
          rewrite Ec in H; injection H as <-;
          apply prio_inv_update_priority; [exact P1 | exact Hnr]]
    end.
    apply (prio_inv_touch (running_thread s) s);
      [exact P | exact Hnr | reflexivity | auto | |].
    + intros u _. cbn. destruct (u =? h); split; reflexivity.
    + intros _. cbn. destruct P as [_ Hb].
      destruct (running_thread s =? h); cbn; apply Hb, Hl.
  - (* thread_set_nice: needs MLFQS *)
    unfold thread_set_nice in H0. rewrite (thread_current_wf s W) in H0.
    cbv zeta in H0. unfold thread_mlfqs_update_priority in H0.
    cbn [thread_mlfqs store with_threads] in H0. rewrite Hm in H0.
    discriminate H0.
  - (* thread_tick *)
    destruct (thread_tick_round_robin s s' Hm H) as (Et & Er & Ea).
    apply (prio_inv_touch (running_thread s) s);
      [exact P | exact Hnr | exact Er | rewrite Ea; auto | |].
    + intros u _. rewrite Et. split; reflexivity.
    + intros _. rewrite Et. destruct P as [_ Hb]. apply Hb, Hl.
  - (* idle *)
    unfold idle_enter in H0. rewrite (thread_current_wf s W) in H0.
    injection H0 as <-. exact P.
Qed.

Lemma steps_prio_inv mem lp main pos s0 s :
  thread_init false mem lp main pos = Some s0 ->
  steps s0 s ->
  wf s /\ thread_mlfqs s = false /\ prio_inv s.
Proof.
  intros E0 St.
  assert (R0 : reachable s0) by (eapply reach_init; exact E0).
  induction St as [|s1 s2 St IH Hstep].
  - split; [apply reachable_wf, R0|].
    unfold thread_init, init_thread in E0. cbn in E0. injection E0 as <-.
    split; [reflexivity|]. split.
    + unfold ready_sorted. destruct pos; cbn; constructor.
    + intros p Hp. destruct pos; cbn in Hp |- *;
        destruct Hp as [<-|[]]; rewrite Z.eqb_refl; cbn; lia.
  - destruct IH as (W1 & M1 & P1).
    split; [eapply step_wf; eassumption|].
    split; [|eapply step_prio_inv; eassumption].
    destruct (step_stats_frame s1 s2 Hstep) as [F|T].
    + rewrite (sf_thread_mlfqs s1 s2 F). exact M1.
    + destruct (thread_tick_effect s1 s2 (wf_running s1 W1) T)
        as (_ & _ & _ & _ & _ & _ & Tm & _).
      congruence.
Qed.

End PriorityInvariantSteps.

(** "main" creates thread 4 at priority 40 after thread 3: thread 4 runs,
    thread 3 and "main" are ready. *)
Definition pri0 : sched :=
  after (option_map snd (thread_create 40 (Some 4) 0 nap0)).

Section PriorityScheduling.

Lemma schedule_highest s s' :
  ready_sorted s -> schedule s = Some s' ->
  forall u, In u (ready_list s') ->
    priority (threads s' u) <= priority (threads s' (running_thread s')).
Proof.
  intros Hs E u Hu. destruct (schedule_ready s s' E) as [Hp Hr].
  rewrite !Hp. unfold ready_sorted in Hs.
  destruct (ready_list s) as [|h rest].
  - rewrite Hr in Hu. destruct Hu.
  - destruct Hr as [-> Hr]. rewrite Hr in Hu. simpl in Hs.
    apply StronglySorted_inv in Hs. destruct Hs as [_ Hall].
    rewrite Forall_forall in Hall.
    apply Z.ge_le, Hall, (in_map (fun t => priority (threads s t))), Hu.
Qed.

Lemma boot0_pri0 : steps boot0 pri0.
Proof.
  apply (steps_step boot0 nap0 pri0).
  apply (steps_step boot0 boot5 nap0).
  apply (steps_step boot0 boot4 boot5).
  apply (steps_step boot0 boot3 boot4).
  apply (steps_step boot0 boot2 boot3).
  apply (steps_step boot0 boot1 boot2).
  apply (steps_step boot0 boot0 boot1).
  - apply steps_refl.
  - eapply (step_create boot0 PRI_MIN (Some 2) 0 2).
    + vm_compute. reflexivity.
    + intros t [= <-]. vm_compute. intros [H|[]]. discriminate H.
    + vm_compute. reflexivity.
    + apply after_create. vm_compute. reflexivity.
  - apply (step_block boot1 boot2), after_Some. vm_compute. reflexivity.
  - apply (step_idle_enter boot2 boot3);
      [|apply after_Some]; vm_compute; reflexivity.
  - apply (step_unblock boot3 1 boot4).
    + vm_compute. auto.
    + vm_compute. tauto.
    + vm_compute. reflexivity.
    + apply after_Some. vm_compute. reflexivity.
  - apply (step_block boot4 boot5), after_Some. vm_compute. reflexivity.
  - eapply (step_create boot5 PRI_DEFAULT (Some 3) 0 3).
    + vm_compute. reflexivity.
    + intros t [= <-]. vm_compute. intros [H|[H|[]]]; discriminate H.
    + vm_compute. reflexivity.
    + apply after_create. vm_compute. reflexivity.
  - eapply (step_create nap0 40 (Some 4) 0 4).
    + vm_compute. reflexivity.
    + intros t [= <-]. vm_compute. intros [H|[H|[H|[]]]]; discriminate H.
    + vm_compute. reflexivity.
    + apply after_create. vm_compute. reflexivity.
Qed.

(** X17.  Without MLFQS, in every state the kernel goes through from
    [thread_init] on, the ready list is in descending order of priority, so
    that the thread [next_thread_to_run] takes from a ready list that is not
    empty, its first, has the highest priority of all ready threads. *)
Theorem ready_list_priority_order mem lp main pos s0 s :
  thread_init false mem lp main pos = Some s0 ->
  steps s0 s ->
  StronglySorted Z.ge
    (map (fun t => priority (threads s t)) (ready_list s)) /\
  (ready_list s <> [] ->
   exists t,
     fst (next_thread_to_run s) = Some t /\
     ready_list (snd (next_thread_to_run s)) = tl (ready_list s) /\
     In t (ready_list s) /\
     forall u, In u (ready_list s) ->
       priority (threads s u) <= priority (threads s t)).
Proof.
  intros E0 St.
  destruct (steps_prio_inv mem lp main pos s0 s E0 St) as (_ & _ & Hs & _).
  split; [exact Hs|]. intros Hne. unfold ready_sorted in Hs.
  unfold next_thread_to_run.
  destruct (ready_list s) as [|t rest]; [contradiction|].
  exists t. repeat split; [left; reflexivity|].
  simpl in Hs. apply StronglySorted_inv in Hs. destruct Hs as [_ Hall].
  rewrite Forall_forall in Hall.
  intros u [<-|Hu]; [lia|].
  apply Z.ge_le, Hall, (in_map (fun t => priority (threads s t))), Hu.
Qed.

Lemma ready_list_priority_order_witness :
  StronglySorted Z.ge
    (map (fun t => priority (threads pri0 t)) (ready_list pri0)) /\
  (ready_list pri0 <> [] ->
   exists t,
     fst (next_thread_to_run pri0) = Some t /\
     ready_list (snd (next_thread_to_run pri0)) = tl (ready_list pri0) /\
     In t (ready_list pri0) /\
     forall u, In u (ready_list pri0) ->
       priority (threads pri0 u) <= priority (threads pri0 t)).
Proof.
  apply (ready_list_priority_order (fun _ => zero_thread) (fun _ => 0) 1 0
                                   boot0 pri0).
  - apply after_Some. reflexivity.
  - exact boot0_pri0.
Defined.

(** X18.  Without MLFQS, in every state the kernel goes through from
    [thread_init] on, no live thread has a priority below its base
    priority: donation only raises; and [thread_get_priority] returns a
    value that is at least the base priority of the running thread. *)
Theorem priority_at_least_base mem lp main pos s0 s :
  thread_init false mem lp main pos = Some s0 ->
  steps s0 s ->
  (forall p, In p (all_list s) ->
     base_priority (threads s p) <= priority (threads s p)) /\
  exists v,
    thread_get_priority s = Some v /\
    base_priority (threads s (running_thread s)) <= v.
Proof.
  intros E0 St.
  destruct (steps_prio_inv mem lp main pos s0 s E0 St) as (W & _ & _ & Hb).
  split; [exact Hb|]. unfold thread_get_priority.
  rewrite (thread_current_wf s W). eexists. split; [reflexivity|].
  apply Hb, (wf_running_live s W).
Qed.

Lemma priority_at_least_base_witness :
  (forall p, In p (all_list pri0) ->
     base_priority (threads pri0 p) <= priority (threads pri0 p)) /\
  exists v,
    thread_get_priority pri0 = Some v /\
    base_priority (threads pri0 (running_thread pri0)) <= v.
Proof.
  apply (priority_at_least_base (fun _ => zero_thread) (fun _ => 0) 1 0
                                boot0 pri0).
  - apply after_Some. reflexivity.
  - exact boot0_pri0.
Defined.

(** X19.  Without MLFQS, whenever the running thread gives up the CPU in a
    state the kernel goes through, by [thread_yield], [thread_block],
    [thread_sleep] or [thread_exit], the thread that runs next has a
    priority at least that of every thread left in the ready list. *)
Theorem schedule_picks_highest mem lp main pos s0 s s' :
  thread_init false mem lp main pos = Some s0 ->
  steps s0 s ->
  thread_yield s = Some s' \/ thread_block s = Some s' \/
  (exists tks, thread_sleep tks s = Some s') \/ thread_exit s = Some s' ->
  forall u, In u (ready_list s') ->
    priority (threads s' u) <= priority (threads s' (running_thread s')).
Proof.
  intros E0 St Hop.
  destruct (steps_prio_inv mem lp main pos s0 s E0 St) as (W & _ & Hs & _).
  pose proof (wf_running s W) as Hr.
  destruct Hop as [E|[E|[[tks E]|E]]].
  - unfold thread_yield in E. rewrite (thread_current_wf s W) in E.
    eapply schedule_highest; [|exact E].
    destruct (negb (ptr_is (running_thread s) (idle_thread s)));
      [apply enqueue_sorted | apply status_store_sorted]; exact Hs.
  - unfold thread_block in E. rewrite (thread_current_wf s W) in E.
    eapply schedule_highest; [|exact E]. apply status_store_sorted, Hs.
  - rewrite (thread_sleep_unfold tks s Hr) in E. cbv zeta in E.
    eapply schedule_highest; [|exact E].
    revert Hs. apply ready_sorted_ext; [reflexivity|].
    intros u _. cbn. destruct (u =? running_thread s); reflexivity.
  - rewrite (thread_exit_unfold s W) in E.
    eapply schedule_highest; [|exact E].
    revert Hs. apply ready_sorted_ext; [reflexivity|].
    intros u _. cbn. destruct (u =? running_thread s); reflexivity.
Qed.

Lemma schedule_picks_highest_witness :
  In 1 (ready_list (after (thread_block pri0))) /\
  priority (threads (after (thread_block pri0)) 1)
  <= priority (threads (after (thread_block pri0))
                 (running_thread (after (thread_block pri0)))).
Proof.
  assert (H : In 1 (ready_list (after (thread_block pri0))))
    by (vm_compute; auto).
  split; [exact H|].
  apply (schedule_picks_highest (fun _ => zero_thread) (fun _ => 0) 1 0
                                boot0 pri0 (after (thread_block pri0))).
  - apply after_Some. reflexivity.
  - exact boot0_pri0.
  - right. left. apply after_Some. vm_compute. reflexivity.
  - exact H.
Defined.

End PriorityScheduling.

Section CreatePreempts.




End CreatePreempts.

(** ** MLFQS: the recalculation of every second *)

(** What one turn of the loop of [thread_mlfqs_update_recent_cpu] makes of
    a thread, with [d] the quotient [(2 * load_avg) / (2 * load_avg + 1)]:
    the new [recent_cpu], then [thread_mlfqs_update_priority]. *)
Definition mlfqs_recalc (d : fixed_t) (th : thread) : thread :=
  let th1 :=
    set_recent_cpu (FP_ADDI (FP_MUL d (recent_cpu th)) (nice th)) th in
  let th2 :=
    set_priority
      (FP_INT (FP_SUBI (FP_ISUB PRI_MAX (int32 (Z.quot (recent_cpu th1) 4)))
                       (int32 (2 * nice th1)))) th1 in
  set_priority (MIN (MAX (priority th2) (FP_FIX PRI_MIN)) (FP_FIX PRI_MAX))
               th2.

(** Under MLFQS, right after [thread_init]: "main" creates thread 3 and is
    charged one timer tick. *)
Definition mq0 : sched :=
  after (thread_init true (fun _ => zero_thread) (fun _ => 0) 1 0).
Definition mq1 : sched :=
  after (option_map snd (thread_create PRI_DEFAULT (Some 3) 0 mq0)).
Definition mq2 : sched := after (thread_tick mq1).

Section MlfqsRecalc.

(** A sweep that returns has recalculated every thread of a list without
    repetition once, with a division that did not trap, has skipped the
    idle thread and touched no other thread. *)
Lemma update_recent_cpu_loop_spec l : forall s s',
  NoDup l ->
  update_recent_cpu_loop l s = Some s' ->
  (forall p, In p l -> ptr_is p (idle_thread s) = false ->
     exists d,
       FP_DIV (FP_MULI (load_avg s) 2) (FP_ADDI (FP_MULI (load_avg s) 2) 1)
         = Some d /\
       threads s' p = mlfqs_recalc d (threads s p)) /\
  (forall p, ~ In p l \/ ptr_is p (idle_thread s) = true ->
     threads s' p = threads s p).
Proof.
  induction l as [|t l IH]; intros s s' Hn; simpl.
  - intros [= <-]. split; [intros p []|reflexivity].
  - apply NoDup_cons_iff in Hn. destruct Hn as [Ht Hn].
    destruct (ptr_is t (idle_thread s)) eqn:Hi; cbn [negb].
    + intros E. destruct (IH s s' Hn E) as (A & B). split.
      * intros p [<-|Hp] Hp'; [congruence | apply A; assumption].
      * intros p [Hp|Hp]; apply B; [left; intros H; apply Hp; right|right];
          assumption.
    + destruct (FP_DIV _ _) as [d|] eqn:Ed; [|discriminate].
      unfold thread_mlfqs_update_priority.
      cbn [thread_mlfqs idle_thread store with_threads].
      destruct (thread_mlfqs s); [|discriminate].
      rewrite Hi, FP_DIVI_4. cbn [negb].
      match goal with
      | |- update_recent_cpu_loop l ?s2 = _ -> _ =>
          intros E; destruct (IH s2 s' Hn E) as (A & B);
          assert (Et : threads s2 t = mlfqs_recalc d (threads s t))
            by (cbn; rewrite Z.eqb_refl; reflexivity);
          assert (Eo : forall p, p <> t -> threads s2 p = threads s p)
            by (intros p Hp; apply Z.eqb_neq in Hp; cbn; rewrite Hp;
                reflexivity)
      end.
      cbn [load_avg idle_thread store with_threads] in A, B. split.
      * intros p [<-|Hp] Hp'.
        -- exists d. split; [reflexivity|].
           rewrite B by (left; exact Ht). exact Et.
        -- destruct (A p Hp Hp') as (d' & Ed' & Ep).
           rewrite Ed in Ed'. injection Ed' as <-.
           exists d. split; [reflexivity|].
           rewrite Ep, Eo; [reflexivity|]. intros ->. contradiction.
      * intros p Hp.
        assert (Hne : p <> t).
        { destruct Hp as [Hp|Hp]; intros ->;
            [apply Hp; left; reflexivity | congruence]. }
        rewrite B, Eo; [reflexivity | exact Hne |].
        destruct Hp as [Hp|Hp]; [left; intros H; apply Hp; right|right];
          assumption.
Qed.

Lemma update_recent_cpu_loop_load_avg l : forall s s',
  update_recent_cpu_loop l s = Some s' -> load_avg s' = load_avg s.
Proof.
  induction l as [|t l IH]; intros s s'; simpl.
  - intros [= <-]. reflexivity.
  - destruct (negb (ptr_is t (idle_thread s))); [|apply IH].
    destruct (FP_DIV _ _) as [d|]; [|discriminate].
    unfold thread_mlfqs_update_priority.
    cbn [thread_mlfqs idle_thread store with_threads].
    destruct (thread_mlfqs s); [|discriminate].
    destruct (negb (ptr_is t (idle_thread s))); [|discriminate].
    rewrite FP_DIVI_4. intros H. apply IH in H. exact H.
Qed.

Lemma thread_mlfqs_update_recent_cpu_spec s s' :
  wf s ->
  thread_mlfqs_update_recent_cpu s = Some s' ->
  (forall p, In p (all_list s) -> ptr_is p (idle_thread s) = false ->
     exists d,
       FP_DIV (FP_MULI (load_avg s') 2) (FP_ADDI (FP_MULI (load_avg s') 2) 1)
         = Some d /\
       threads s' p = mlfqs_recalc d (threads s p)) /\
  (forall p, ~ In p (all_list s) \/ ptr_is p (idle_thread s) = true ->
     threads s' p = threads s p) /\
  ready_list s' = ready_list s /\ running_thread s' = running_thread s.
Proof.
  intros W E. pose proof W as [Hr _ WL].
  pose proof (thread_mlfqs_update_recent_cpu_frame s s' E) as F.
  unfold thread_mlfqs_update_recent_cpu in E.
  destruct (thread_mlfqs s) eqn:Hm; [|discriminate].
  destruct (thread_mlfqs_update_load_avg_value s Hm Hr)
    as (a & b & _ & _ & E1).
  rewrite E1 in E. cbn [all_list with_load_avg] in E.
  pose proof (update_recent_cpu_loop_view _ _ _ E) as V.
  destruct (update_recent_cpu_loop_spec _ _ _ (wfl_all_nodup s WL) E)
    as (A & B).
  cbn [load_avg idle_thread threads with_load_avg] in A, B.
  assert (La : load_avg s' = FP_ADD a b)
    by apply (update_recent_cpu_loop_load_avg _ _ _ E).
  rewrite La. split; [exact A|]. split; [exact B|].
  split; [apply (mf_ready_list s s' F) | apply (mf_running_thread s s' F)].
Qed.

Lemma FP_MUL_fraction c r :
  0 <= c < 65536 -> 0 <= r <= INT_MAX ->
  0 <= FP_MUL c r <= r /\ (0 < r -> FP_MUL c r < r).
Proof.
  unfold INT_MAX. change (2 ^ 31) with 2147483648. intros Hc Hr.
  unfold FP_MUL. change FP_SHIFT_BITS with 16.
  rewrite int64_small by (apply in_int64_bounds; nia).
  rewrite shr_16.
  assert (Hq : 0 <= c * r / 65536 <= r /\ (0 < r -> c * r / 65536 < r)).
  { split; [split|].
    - apply Z.div_pos; nia.
    - apply Z.lt_succ_r, Z.div_lt_upper_bound; nia.
    - intros H. apply Z.div_lt_upper_bound; nia. }
  rewrite int32_small by (apply in_int32_bounds; lia). exact Hq.
Qed.

End MlfqsRecalc.

Section MlfqsSweep.

Lemma mq2_reachable : reachable mq2.
Proof.
  assert (R0 : reachable mq0).
  { eapply (reach_init true (fun _ => zero_thread) (fun _ => 0) 1 0).
    apply after_Some. reflexivity. }
  assert (R1 : reachable mq1).
  { eapply reach_step; [exact R0|].
    eapply (step_create mq0 PRI_DEFAULT (Some 3) 0 2).
    - vm_compute. reflexivity.
    - intros t [= <-]. vm_compute. intros [H|[]]. discriminate H.
    - vm_compute. reflexivity.
    - apply after_create. vm_compute. reflexivity. }
  eapply reach_step; [exact R1|].
  apply (step_tick mq1 mq2), after_Some. vm_compute. reflexivity.
Qed.

(** X21.  Under MLFQS, in a state the kernel goes through whose load
    average is not negative and below the overflow of its multiplication by
    59 (a load average below 555), [thread_mlfqs_update_recent_cpu]
    returns: none of its divisions traps.  It first moves [load_avg] one
    step of its recurrence; the quotient [d] of
    [(2 * load_avg) / (2 * load_avg + 1)] on the new load average lies in
    [0, 1); every live thread but the idle thread gets, once,
    [recent_cpu = d * recent_cpu + nice] and the priority that follows from
    the new [recent_cpu]; the idle thread and every page that holds no live
    thread are left as they were, and neither the ready list (which is not
    put in order again) nor the running thread changes. *)
Theorem thread_mlfqs_update_recent_cpu_sweep s :
  reachable s -> thread_mlfqs s = true ->
  0 <= load_avg s -> 59 * load_avg s <= INT_MAX ->
  Z.of_nat (length (ready_list s)) <= 32767 ->
  exists s' d,
    thread_mlfqs_update_recent_cpu s = Some s' /\
    load_avg s' = load_avg_formula (load_avg s) (ready_thread_count s) /\
    FP_DIV (FP_MULI (load_avg s') 2) (FP_ADDI (FP_MULI (load_avg s') 2) 1)
      = Some d /\
    0 <= d < 65536 /\
    (forall t, In t (all_list s) -> ptr_is t (idle_thread s) = false ->
       recent_cpu (threads s' t) =
         FP_ADDI (FP_MUL d (recent_cpu (threads s t))) (nice (threads s t)) /\
       priority (threads s' t) =
         MIN (MAX (FP_INT (FP_SUBI
                             (FP_ISUB PRI_MAX
                                (int32 (Z.quot (recent_cpu (threads s' t))
                                               4)))
                             (int32 (2 * nice (threads s t)))))
                  (FP_FIX PRI_MIN))
             (FP_FIX PRI_MAX) /\
       nice (threads s' t) = nice (threads s t) /\
       status (threads s' t) = status (threads s t)) /\
    (forall t, ~ In t (all_list s) \/ ptr_is t (idle_thread s) = true ->
       threads s' t = threads s t) /\
    ready_list s' = ready_list s /\ running_thread s' = running_thread s.
Proof.
  intros R Hm H0 H1 Hn. apply reachable_wf in R.
  pose proof (wf_running s R) as Hr.
  assert (Hc : 0 <= ready_thread_count s <= 32768).
  { unfold ready_thread_count.
    destruct (ptr_is (running_thread s) (idle_thread s)); lia. }
  destruct (FP_load_avg_step (load_avg s) (ready_thread_count s) H0 H1 Hc)
    as (a & b & Ea & Eb & Eab).
  pose proof (load_avg_formula_bound _ _ H0 H1 Hc) as Hb.
  destruct (decay_coefficient (FP_ADD a b)) as (d & Ed & Hd);
    [rewrite Eab; lia|].
  rewrite <- (ready_threads_count s Hn) in Eb.
  destruct (thread_mlfqs_update_recent_cpu_load_avg s a b d Hm Hr Ea Eb Ed)
    as (s' & E & La & _).
  destruct (thread_mlfqs_update_recent_cpu_spec s s' R E)
    as (A & B & Er & Ec).
  exists s', d. split; [exact E|].
  split; [rewrite La; exact Eab|].
  split; [rewrite La; exact Ed|]. split; [exact Hd|].
  split; [|split; [exact B|split; [exact Er | exact Ec]]].
  intros t Ht Hi. destruct (A t Ht Hi) as (d' & Ed' & Et).
  rewrite La, Ed in Ed'. injection Ed' as <-.
  rewrite Et. unfold mlfqs_recalc.
  cbn [recent_cpu priority nice status set_priority set_recent_cpu].
  split; [reflexivity|]. split; [reflexivity|]. split; reflexivity.
Qed.

Lemma thread_mlfqs_update_recent_cpu_sweep_witness :
  exists s' d,
    thread_mlfqs_update_recent_cpu mq2 = Some s' /\
    load_avg s' = load_avg_formula (load_avg mq2) (ready_thread_count mq2) /\
    FP_DIV (FP_MULI (load_avg s') 2) (FP_ADDI (FP_MULI (load_avg s') 2) 1)
      = Some d /\
    0 <= d < 65536 /\
    (forall t, In t (all_list mq2) -> ptr_is t (idle_thread mq2) = false ->
       recent_cpu (threads s' t) =
         FP_ADDI (FP_MUL d (recent_cpu (threads mq2 t)))
                 (nice (threads mq2 t)) /\
       priority (threads s' t) =
         MIN (MAX (FP_INT (FP_SUBI
                             (FP_ISUB PRI_MAX
                                (int32 (Z.quot (recent_cpu (threads s' t))
                                               4)))
                             (int32 (2 * nice (threads mq2 t)))))
                  (FP_FIX PRI_MIN))
             (FP_FIX PRI_MAX) /\
       nice (threads s' t) = nice (threads mq2 t) /\
       status (threads s' t) = status (threads mq2 t)) /\
    (forall t, ~ In t (all_list mq2) \/ ptr_is t (idle_thread mq2) = true ->
       threads s' t = threads mq2 t) /\
    ready_list s' = ready_list mq2 /\ running_thread s' = running_thread mq2.
Proof.
  apply (thread_mlfqs_update_recent_cpu_sweep mq2).
  - exact mq2_reachable.
  - vm_compute. reflexivity.
  - vm_compute. discriminate.
  - vm_compute. discriminate.
  - vm_compute. discriminate.
Defined.

(** X22.  The decay of [recent_cpu]: when the recalculation of every second
    leaves a load average between 0 and 16383 (1073709055 in fixed point),
    a live thread of niceness 0 whose [recent_cpu] is not negative keeps a
    [recent_cpu] that is not negative and not larger than before, and
    strictly smaller when it was positive. *)
Theorem recent_cpu_decays s s' t :
  reachable s ->
  thread_mlfqs_update_recent_cpu s = Some s' ->
  In t (all_list s) -> ptr_is t (idle_thread s) = false ->
  0 <= load_avg s' <= 1073709055 ->
  nice (threads s t) = 0 ->
  0 <= recent_cpu (threads s t) <= INT_MAX ->
  0 <= recent_cpu (threads s' t) <= recent_cpu (threads s t) /\
  (0 < recent_cpu (threads s t) ->
   recent_cpu (threads s' t) < recent_cpu (threads s t)).
Proof.
  intros R E Ht Hi Hla Hn Hr. apply reachable_wf in R.
  destruct (thread_mlfqs_update_recent_cpu_spec s s' R E) as (A & _).
  destruct (A t Ht Hi) as (d & Ed & Et).
  destruct (decay_coefficient (load_avg s') Hla) as (d' & Ed' & Hc).
  rewrite Ed in Ed'. injection Ed' as <-.
  rewrite Et. unfold mlfqs_recalc.
  cbn [recent_cpu set_recent_cpu set_priority]. rewrite Hn.
  destruct (FP_MUL_fraction d (recent_cpu (threads s t)) Hc Hr) as [Hb Hs].
  set (m := FP_MUL _ _) in *. unfold FP_ADDI.
  change (shl32 0 FP_SHIFT_BITS) with 0.
  rewrite Z.add_0_r.
  unfold INT_MAX in Hr. change (2 ^ 31) with 2147483648 in Hr.
  rewrite int32_small by (apply in_int32_bounds; lia).
  split; [exact Hb | exact Hs].
Qed.

Lemma recent_cpu_decays_witness :
  0 <= recent_cpu (threads (after (thread_mlfqs_update_recent_cpu mq2)) 1)
    <= recent_cpu (threads mq2 1) /\
  (0 < recent_cpu (threads mq2 1) ->
   recent_cpu (threads (after (thread_mlfqs_update_recent_cpu mq2)) 1)
   < recent_cpu (threads mq2 1)).
Proof.
  apply (recent_cpu_decays mq2 (after (thread_mlfqs_update_recent_cpu mq2)) 1).
  - exact mq2_reachable.
  - apply after_Some. vm_compute. reflexivity.
  - vm_compute. auto.
  - vm_compute. reflexivity.
  - vm_compute. split; discriminate.
  - vm_compute. reflexivity.
  - vm_compute. split; discriminate.
Defined.

End MlfqsSweep.

(** ** The two policies and the timer tick *)

Section PolicyTick.

(** X23.  Without MLFQS the entry points of MLFQS fail their assertion:
    [thread_set_nice] and the four [thread_mlfqs_*] functions have no
    result; and a timer tick changes no thread (no priority, no
    [recent_cpu]), not the load average and not the ready list. *)
Theorem mlfqs_entry_points_guarded s :
  thread_mlfqs s = false ->
  (forall n, thread_set_nice n s = None) /\
  (forall t, thread_mlfqs_update_priority t s = None) /\
  thread_mlfqs_increment_recent_cpu s = None /\
  thread_mlfqs_update_load_avg s = None /\
  thread_mlfqs_update_recent_cpu s = None /\
  (forall s', thread_tick s = Some s' ->
     threads s' = threads s /\ load_avg s' = load_avg s /\
     ready_list s' = ready_list s /\ running_thread s' = running_thread s).
Proof.
  intros Hm.
  assert (Hp : forall t f, thread_mlfqs_update_priority t (store t f s) = None).
  { intros t f. unfold thread_mlfqs_update_priority.
    cbn [thread_mlfqs store with_threads]. rewrite Hm. reflexivity. }
  split.
  { intros n. unfold thread_set_nice.
    destruct (thread_current s) as [cur|]; [|reflexivity].
    cbv zeta. rewrite Hp. reflexivity. }
  split.
  { intros t. unfold thread_mlfqs_update_priority. rewrite Hm. reflexivity. }
  split.
  { unfold thread_mlfqs_increment_recent_cpu. rewrite Hm. reflexivity. }
  split.
  { unfold thread_mlfqs_update_load_avg. rewrite Hm. reflexivity. }
  split.
  { unfold thread_mlfqs_update_recent_cpu. rewrite Hm. reflexivity. }
  intros s'. unfold thread_tick.
  destruct (thread_current s) as [cur|]; [|discriminate]. cbv zeta.
  destruct (ptr_is cur (idle_thread s)); cbn [thread_mlfqs with_tick_stats];
    rewrite Hm;
    match goal with
    | |- (if ?c then _ else _) = _ -> _ => destruct c
    end; intros [= <-]; repeat split; reflexivity.
Qed.

Lemma mlfqs_entry_points_guarded_witness :
  (forall n, thread_set_nice n nap0 = None) /\
  (forall t, thread_mlfqs_update_priority t nap0 = None) /\
  thread_mlfqs_increment_recent_cpu nap0 = None /\
  thread_mlfqs_update_load_avg nap0 = None /\
  thread_mlfqs_update_recent_cpu nap0 = None /\
  (forall s', thread_tick nap0 = Some s' ->
     threads s' = threads nap0 /\ load_avg s' = load_avg nap0 /\
     ready_list s' = ready_list nap0 /\
     running_thread s' = running_thread nap0).
Proof.
  apply (mlfqs_entry_points_guarded nap0). vm_compute. reflexivity.
Defined.

(** X24.  Under MLFQS a timer tick that does not complete a second charges
    the running thread only: unless it is the idle thread, its [recent_cpu]
    grows by 1 (in fixed point) and, on every fourth tick, its priority is
    recalculated from it; every other thread, the load average and the ready
    list stay as they are. *)
Theorem thread_tick_charges_running s :
  status (threads s (running_thread s)) = THREAD_RUNNING ->
  thread_mlfqs s = true ->
  Z.rem (int64 (ticks s + 1)) TIMER_FREQ <> 0 ->
  let cur := running_thread s in
  exists s',
    thread_tick s = Some s' /\
    (forall p, p <> cur -> threads s' p = threads s p) /\
    load_avg s' = load_avg s /\ ready_list s' = ready_list s /\
    nice (threads s' cur) = nice (threads s cur) /\
    recent_cpu (threads s' cur) =
      (if ptr_is cur (idle_thread s) then recent_cpu (threads s cur)
       else FP_ADDI (recent_cpu (threads s cur)) 1) /\
    priority (threads s' cur) =
      (if (Z.rem (int64 (ticks s + 1)) 4 =? 0)
          && negb (ptr_is cur (idle_thread s))
       then MIN (MAX (FP_INT (FP_SUBI
                                (FP_ISUB PRI_MAX
                                   (int32 (Z.quot
                                      (recent_cpu (threads s' cur)) 4)))
                                (int32 (2 * nice (threads s cur)))))
                     (FP_FIX PRI_MIN))
                (FP_FIX PRI_MAX)
       else priority (threads s cur)).
Proof.
  intros Hr Hm Hsec cur. subst cur. apply Z.eqb_neq in Hsec.
  unfold thread_tick, thread_current. rewrite Hr. cbn [status_eqb].
  cbv zeta.
  unfold thread_mlfqs_increment_recent_cpu, thread_current.
  destruct (ptr_is (running_thread s) (idle_thread s)) eqn:Hi;
    cbn [thread_mlfqs with_tick_stats threads running_thread idle_thread
         ticks];
    rewrite Hm, Hr; cbn [status_eqb]; rewrite Hi.
  - cbn [ticks idle_thread with_tick_stats]. rewrite Hsec, Hi.
    rewrite Bool.andb_false_r.
    match goal with
    | |- context [if ?c then _ else _] => destruct c
    end; eexists; (split; [reflexivity|]); repeat split.
  - cbn [ticks idle_thread store with_threads with_tick_stats].
    rewrite Hsec, Hi. cbn [negb]. rewrite Bool.andb_true_r.
    destruct (Z.rem (int64 (ticks s + 1)) 4 =? 0).
    + unfold thread_mlfqs_update_priority.
      cbn [thread_mlfqs idle_thread store with_threads with_tick_stats].
      rewrite Hm, Hi, FP_DIVI_4. cbn [negb].
      match goal with
      | |- context [if ?c then _ else _] => destruct c
      end; eexists; (split; [reflexivity|]); cbn;
        rewrite Z.eqb_refl; cbn;
        (split; [intros p Hp; apply Z.eqb_neq in Hp; rewrite Hp; reflexivity|]);
        repeat split.
    + match goal with
      | |- context [if ?c then _ else _] => destruct c
      end; eexists; (split; [reflexivity|]); cbn;
        rewrite Z.eqb_refl; cbn;
        (split; [intros p Hp; apply Z.eqb_neq in Hp; rewrite Hp; reflexivity|]);
        repeat split.
Qed.

Lemma thread_tick_charges_running_witness :
  let cur := running_thread mq1 in
  exists s',
    thread_tick mq1 = Some s' /\
    (forall p, p <> cur -> threads s' p = threads mq1 p) /\
    load_avg s' = load_avg mq1 /\ ready_list s' = ready_list mq1 /\
    nice (threads s' cur) = nice (threads mq1 cur) /\
    recent_cpu (threads s' cur) =
      (if ptr_is cur (idle_thread mq1) then recent_cpu (threads mq1 cur)
       else FP_ADDI (recent_cpu (threads mq1 cur)) 1) /\
    priority (threads s' cur) =
      (if (Z.rem (int64 (ticks mq1 + 1)) 4 =? 0)
          && negb (ptr_is cur (idle_thread mq1))
       then MIN (MAX (FP_INT (FP_SUBI
                                (FP_ISUB PRI_MAX
                                   (int32 (Z.quot
                                      (recent_cpu (threads s' cur)) 4)))
                                (int32 (2 * nice (threads mq1 cur)))))
                     (FP_FIX PRI_MIN))
                (FP_FIX PRI_MAX)
       else priority (threads mq1 cur)).
Proof.
  apply (thread_tick_charges_running mq1).
  - vm_compute. reflexivity.
  - vm_compute. reflexivity.
  - vm_compute. discriminate.
Defined.

End PolicyTick.
